(** * OpenPNM [GenericTransport]: steady-state linear transport on a pore network

    A shallow embedding of [openpnm/algorithms/GenericTransport.py]:
    the boundary-condition store ([_set_BC]), the matrix and right-hand-side
    builders with their caches ([_build_A], [_build_b], the [A] and [b]
    properties), boundary-condition elimination ([_apply_BCs]), the solver
    dispatcher ([_solve]), [run] and the post-solve [rate].

    Conventions of the embedding.
    - numpy's float64 numbers are modelled as exact rationals [Q]; the
      not-a-number sentinel that marks an unset boundary condition is
      [None] in an [option Q] entry.  Rounding and infinities are not
      modelled; [Float64] names the data on which float64 does not round,
      and the properties that hold of the rationals only are stated for
      such data.
    - a scipy COO matrix is its shape together with the list of its
      (row, col, data) triples; duplicate coordinates are summed when an
      entry is read, as scipy does.
    - the algorithm object is a record; a method is a function from the
      record to a result and the record after the call.  A Python exception
      is an [Err] result; the mutations made before it was raised stay. *)

From Stdlib Require Import String ZArith QArith Qabs Lia Lqa Bool PeanoNat DecimalString List Permutation.
From Stdlib Require PrimFloat.
Import ListNotations.
Local Open Scope Q_scope.

(* ================================================================== *)
(** ** numpy arrays *)

Module Numpy.

Definition vec := list Q.

(** An array of floats some of whose entries are [nan]. *)
Definition farray := list (option Q).

Definition tabulate {A : Type} (n : nat) (f : nat -> A) : list A :=
  map f (seq 0 n).

Definition Qsum (l : vec) : Q := fold_right Qplus 0 l.

(** [np.zeros(n)] *)
Definition zeros (n : nat) : vec := repeat 0 n.

(** [a.mean()]; numpy returns nan for an empty array, here the quotient by
    zero is [0]. *)
Definition mean (v : vec) : Q := Qsum v / inject_Z (Z.of_nat (length v)).

(** [np.isfinite(a)] *)
Definition isfinite (a : farray) : list bool :=
  map (fun o => match o with Some _ => true | None => false end) a.

(** The number held by a finite entry. *)
Definition fval (o : option Q) : Q :=
  match o with Some q => q | None => 0 end.

(** [a[m] = x[m]] for a boolean mask [m] and [x] as long as [a]. *)
Definition put_masked (a : vec) (m : list bool) (x : vec) : vec :=
  tabulate (length a) (fun k => if nth k m false then nth k x 0 else nth k a 0).

(** [a[m] -= x[m]] *)
Definition sub_masked (a : vec) (m : list bool) (x : vec) : vec :=
  tabulate (length a)
    (fun k => if nth k m false then nth k a 0 - nth k x 0 else nth k a 0).

(** [~m] *)
Definition invert (m : list bool) : list bool := map negb m.

(** Modelled from the spec: [toindices] and [Ps] of the base class are not
    among the sources.  Section 4.4 speaks of the rows and columns that
    belong to the nodes a mask selects: [self.toindices(m)] and
    [self.Ps[m]] are the indices at which the mask holds, ascending, as
    [np.where(m)[0]]. *)
Definition toindices (m : list bool) : list nat :=
  filter (fun k => nth k m false) (seq 0 (length m)).

(** [np.isin(a, test)] on one element. *)
Definition isin (k : nat) (test : list nat) : bool := existsb (Nat.eqb k) test.

(** [np.unique(l)]: the distinct elements of [l], ascending. *)
Definition unique (l : list nat) : list nat :=
  filter (fun k => isin k l) (seq 0 (S (list_max l))).

(** [np.intersect1d(a, b)] *)
Definition intersect1d (a b : list nat) : list nat :=
  filter (fun k => isin k b) (unique a).

(** [np.setdiff1d(a, b)] *)
Definition setdiff1d (a b : list nat) : list nat :=
  filter (fun k => negb (isin k b)) (unique a).

(** One write [a[i] = v]. *)
Fixpoint upd {A : Type} (a : list A) (i : nat) (v : A) : list A :=
  match a, i with
  | [], _ => []
  | _ :: a', O => v :: a'
  | x :: a', S i' => x :: upd a' i' v
  end.

(** [a[idx] = vals] with [vals] as long as [idx]: the writes happen in
    order, so the last one wins at a repeated index. *)
Fixpoint put_at {A : Type} (a : list A) (idx : list nat) (vals : list A)
  : list A :=
  match idx, vals with
  | i :: idx', v :: vals' => put_at (upd a i v) idx' vals'
  | _, _ => a
  end.

(** Every index of [idx] is inside an array of length [n]. *)
Definition in_bounds (idx : list nat) (n : nat) : bool :=
  forallb (fun i => i <? n)%nat idx.

End Numpy.
Import Numpy.

(* ================================================================== *)
(** ** scipy sparse matrices in coordinate format *)

Module Sparse.

Definition entry := (nat * nat * Q)%type.
Definition erow (e : entry) : nat := fst (fst e).
Definition ecol (e : entry) : nat := snd (fst e).
Definition edata (e : entry) : Q := snd e.

(** [coo_matrix((data, (row, col)), shape=(n, n))]: the three parallel
    arrays [row], [col] and [data] are kept as one list of triples. *)
Record coo := mkcoo { shape : nat; entries : list entry }.

(** The value of entry [(i, j)]: triples at the same coordinates add up. *)
Fixpoint entries_get (l : list entry) (i j : nat) : Q :=
  match l with
  | [] => 0
  | e :: l' =>
      (if (erow e =? i)%nat && (ecol e =? j)%nat then edata e else 0)
      + entries_get l' i j
  end.

Definition get (A : coo) (i j : nat) : Q := entries_get (entries A) i j.

(** [A.diagonal()] *)
Definition diagonal (A : coo) : vec :=
  tabulate (shape A) (fun i => get A i i).

(** Row [k] of the product [A * x]. *)
Fixpoint row_dot (l : list entry) (k : nat) (x : vec) : Q :=
  match l with
  | [] => 0
  | e :: l' =>
      (if (erow e =? k)%nat then edata e * nth (ecol e) x 0 else 0)
      + row_dot l' k x
  end.

(** [A.tocsr() * x] *)
Definition matvec (A : coo) (x : vec) : vec :=
  tabulate (shape A) (fun k => row_dot (entries A) k x).

(** Column [j] of [m.sum(axis=0)]. *)
Fixpoint col_sum (l : list entry) (j : nat) : Q :=
  match l with
  | [] => 0
  | e :: l' => (if (ecol e =? j)%nat then edata e else 0) + col_sum l' j
  end.

(** [m.sum(axis=0).getA1()] *)
Definition sum_axis0 (A : coo) : vec :=
  tabulate (shape A) (col_sum (entries A)).

(** [m.data *= q] *)
Definition scale_data (q : Q) (A : coo) : coo :=
  mkcoo (shape A) (map (fun e => (erow e, ecol e, edata e * q)) (entries A)).

(** [A.data[np.isin(A.row, P)] = 0] *)
Definition zero_rows (P : list nat) (A : coo) : coo :=
  mkcoo (shape A)
    (map (fun e => if isin (erow e) P then (erow e, ecol e, 0) else e)
         (entries A)).

(** [A.data[np.isin(A.col, P)] = 0] *)
Definition zero_cols (P : list nat) (A : coo) : coo :=
  mkcoo (shape A)
    (map (fun e => if isin (ecol e) P then (erow e, ecol e, 0) else e)
         (entries A)).

(** [A.setdiag(v)]: the stored triples of the main diagonal that [v]
    covers are dropped and one triple per element of [v] is appended. *)
Definition setdiag (A : coo) (v : vec) : coo :=
  let n := Nat.min (shape A) (length v) in
  mkcoo (shape A)
    (filter (fun e => negb (erow e =? ecol e)%nat || (n <=? erow e)%nat)
            (entries A)
     ++ tabulate n (fun i => (i, i, nth i v 0))).

(** [A.eliminate_zeros()] *)
Definition eliminate_zeros (A : coo) : coo :=
  mkcoo (shape A) (filter (fun e => negb (Qeq_bool (edata e) 0)) (entries A)).

(** Every stored coordinate lies inside the shape. *)
Definition coo_wf (A : coo) : Prop :=
  Forall (fun e => (erow e < shape A)%nat /\ (ecol e < shape A)%nat)
         (entries A).

(** Exact symmetry of the values. *)
Definition symmetric (A : coo) : Prop := forall i j, get A i j == get A j i.

End Sparse.
Import Sparse.

(* ================================================================== *)
(** ** Exceptions and results *)

Module Exn.

(** The Python exceptions the engine raises or lets through. *)
Inductive exn : Type :=
| Exception (msg : string)
| KeyError
| IndexError
| ValueError
| AttributeError
| UnboundLocalError.

Inductive res (A : Type) : Type :=
| Ok (a : A)
| Err (e : exn).

Arguments Ok {A} a.
Arguments Err {A} e.

End Exn.
Import Exn.

(* ================================================================== *)
(** ** The network and phase collaborators *)

Module Network.

(** [Np] pores and the rows of [network['throat.conns']]. *)
Record network := mknet { Np : nat; conns : list (nat * nat) }.

Definition Nt (net : network) : nat := length (conns net).

(** Every throat joins two pores of the network. *)
Definition net_wf (net : network) : Prop :=
  Forall (fun c => (fst c < Np net)%nat /\ (snd c < Np net)%nat) (conns net).

Definition net_wfb (net : network) : bool :=
  forallb (fun c => (fst c <? Np net)%nat && (snd c <? Np net)%nat) (conns net).

(** The conductance array of the phase: one value per throat, or an
    [Nt] by 2 array with one value per direction. *)
Inductive conductance : Type :=
| per_throat (g : vec)
| per_direction (g : list (Q * Q)).

(** Modelled from the spec: [GenericNetwork.create_adjacency_matrix] is not
    among the sources.  Section 6 describes it as the primitive that accepts
    per-edge weights and returns a sparse matrix in coordinate format, and
    section 4.1 asks for a symmetric matrix in which parallel edges add up:
    throat [k] between pores [i] and [j] with weight [w] contributes the
    triples [(i, j, w)] and [(j, i, w)].  Weights that are not one per
    throat, or a throat that leaves the network, are rejected. *)
Definition create_adjacency_matrix (net : network) (weights : vec) : res coo :=
  if negb (length weights =? Nt net)%nat then Err ValueError
  else if negb (net_wfb net) then Err ValueError
  else
    let cw := combine (conns net) weights in
    Ok (mkcoo (Np net)
          (map (fun e => (fst (fst e), snd (fst e), snd e)) cw
           ++ map (fun e => (snd (fst e), fst (fst e), snd e)) cw)).

(** [scipy.sparse.csgraph.laplacian(am)] of a COO matrix: the degrees are
    the column sums without the diagonal, the data are negated and the
    degrees become the diagonal. *)
Definition laplacian (am : coo) : coo :=
  let w := tabulate (shape am)
             (fun i => nth i (sum_axis0 am) 0 - nth i (diagonal am) 0) in
  setdiag (scale_data (-1) am) w.


End Network.
Import Network.


(* ================================================================== *)
(** ** Code outside the sources *)

Module Env.

(** What [GenericTransport] calls and the sources do not contain: the
    adjacency primitive on a two-column weight array, numpy's norm,
    [openpnm.utils.is_symmetric] and the solver backends.  A backend may
    return anything and may raise. *)
Record env := mkenv {
  adjacency_directed : network -> list (Q * Q) -> res coo;
  norm : vec -> Q;
  is_symmetric : coo -> bool;
  (** [hasattr(scipy.sparse.linalg, name)] *)
  scipy_has : string -> bool;
  (** [solver(A=A, b=b, atol=atol, tol=tol, maxiter=max_it, x0=x0)] *)
  scipy_iterative : string -> coo -> vec -> Q -> Q -> Z -> vec -> res (vec * Z);
  (** [solver(A=A, b=b)] *)
  scipy_direct : string -> coo -> vec -> res vec;
  (** [SLS(A, b, settings).solve(x0, atol, rtol, max_it)], when installed *)
  petsc : option (string -> string -> coo -> vec -> vec -> Q -> Q -> Z -> res vec);
  (** [pyamg.ruge_stuben_solver(A).solve(b, tol, maxiter)], when installed *)
  pyamg : option (coo -> vec -> Q -> Z -> res vec)
}.

End Env.
Import Env.

(* ================================================================== *)
(** ** The algorithm object *)

Module GenericTransport.

Record settings := mksettings {
  solver_family : string;
  solver_type : string;
  solver_preconditioner : string;
  solver_tol : Q;
  solver_atol : option Q;
  solver_rtol : option Q;
  solver_maxiter : Z;
  cache_A : bool;
  cache_b : bool
}.

(** [def_set] *)
Definition def_set : settings :=
  mksettings "scipy" "spsolve" "jacobi" (1 # 1000000) None None 5000 true true.

(** The instance: its network, the array [phase[settings['conductance']]]
    ([None] when the key is missing), its settings, the working and the
    pure system, the two boundary-condition arrays ([None] when the key is
    not on the object) and the array stored under [settings['quantity']]. *)
Record alg := mkalg {
  the_network : network;
  phase_conductance : option conductance;
  the_settings : settings;
  _A : option coo;
  _pure_A : option coo;
  _b : option vec;
  _pure_b : option vec;
  bc_rate : option farray;
  bc_value : option farray;
  quantity : option vec
}.

Definition set_A (v : option coo) (s : alg) : alg :=
  mkalg (the_network s) (phase_conductance s) (the_settings s)
        v (_pure_A s) (_b s) (_pure_b s) (bc_rate s) (bc_value s) (quantity s).
Definition set_pure_A (v : option coo) (s : alg) : alg :=
  mkalg (the_network s) (phase_conductance s) (the_settings s)
        (_A s) v (_b s) (_pure_b s) (bc_rate s) (bc_value s) (quantity s).
Definition set_b (v : option vec) (s : alg) : alg :=
  mkalg (the_network s) (phase_conductance s) (the_settings s)
        (_A s) (_pure_A s) v (_pure_b s) (bc_rate s) (bc_value s) (quantity s).
Definition set_pure_b (v : option vec) (s : alg) : alg :=
  mkalg (the_network s) (phase_conductance s) (the_settings s)
        (_A s) (_pure_A s) (_b s) v (bc_rate s) (bc_value s) (quantity s).
Definition set_bc_rate (v : option farray) (s : alg) : alg :=
  mkalg (the_network s) (phase_conductance s) (the_settings s)
        (_A s) (_pure_A s) (_b s) (_pure_b s) v (bc_value s) (quantity s).
Definition set_bc_value (v : option farray) (s : alg) : alg :=
  mkalg (the_network s) (phase_conductance s) (the_settings s)
        (_A s) (_pure_A s) (_b s) (_pure_b s) (bc_rate s) v (quantity s).
Definition set_quantity (v : option vec) (s : alg) : alg :=
  mkalg (the_network s) (phase_conductance s) (the_settings s)
        (_A s) (_pure_A s) (_b s) (_pure_b s) (bc_rate s) (bc_value s) v.

(** Modelled from the spec: the item assignment of the base class is not
    among the sources.  Section 3 stores each kind of condition as an array
    of length N whose unset entries are not-a-number, so
    [self['pore.bc_rate'] = np.nan] leaves an array of N unset entries. *)
Definition all_nan (n : nat) : farray := repeat None n.

(** [__init__]: no system yet, both boundary-condition arrays all nan. *)
Definition init (net : network) (g : option conductance) (st : settings) : alg :=
  mkalg net g st None None None None
        (Some (all_nan (Np net))) (Some (all_nan (Np net))) None.

(** *** Methods: state and exceptions *)

Definition M (A : Type) : Type := alg -> res A * alg.

Definition ret {A : Type} (a : A) : M A := fun s => (Ok a, s).

Definition raise {A : Type} (e : exn) : M A := fun s => (Err e, s).

Definition bind {A B : Type} (m : M A) (k : A -> M B) : M B :=
  fun s => match m s with
           | (Ok a, s') => k a s'
           | (Err e, s') => (Err e, s')
           end.

Definition gets {A : Type} (f : alg -> A) : M A := fun s => (Ok (f s), s).

Definition modify (f : alg -> alg) : M unit := fun s => (Ok tt, f s).

Definition lift {A : Type} (r : res A) : M A := fun s => (r, s).

(** [raise e] unless the test holds. *)
Definition guard (c : bool) (e : exn) : M unit :=
  if c then ret tt else raise e.

(** Looking up a key of the object or of the phase. *)
Definition lookup {A : Type} (f : alg -> option A) : M A :=
  fun s => match f s with Some a => (Ok a, s) | None => (Err KeyError, s) end.

Notation "x <- m ;; k" := (bind m (fun x => k))
  (at level 61, m at next level, right associativity).
Notation "m ;; k" := (bind m (fun _ => k))
  (at level 61, right associativity).

(** *** The boundary-condition store *)

(** ['value'] and ['rate'] *)
Inductive bctype := Value | Rate.
Inductive bcmode := merge | overwrite.

(** [np.array(bcvalues)]: a scalar or a one-dimensional array. *)
Inductive bcvalues := scalar (v : Q) | array (vs : list Q).

Definition size (v : bcvalues) : nat :=
  match v with scalar _ => 1%nat | array vs => length vs end.

(** The values that numpy writes to [k] indexed places: one value is
    repeated, [k] values go one to a place, anything else is a shape
    mismatch. *)
Definition broadcast_to (v : bcvalues) (k : nat) : res (list Q) :=
  match v with
  | scalar q => Ok (repeat q k)
  | array [q] => Ok (repeat q k)
  | array vs => if (length vs =? k)%nat then Ok vs else Err ValueError
  end.

(** [nan + v] is [nan]. *)
Definition fadd (o : option Q) (v : Q) : option Q :=
  match o with Some c => Some (c + v) | None => None end.

Fixpoint zip_with {A B C : Type} (f : A -> B -> C) (l1 : list A) (l2 : list B)
  : list C :=
  match l1, l2 with
  | a :: l1', b :: l2' => f a b :: zip_with f l1' l2'
  | _, _ => []
  end.

(** [a[idx] = values] on an array with nan entries. *)
Definition assign_at (a : farray) (idx : list nat) (v : bcvalues) : res farray :=
  match broadcast_to v (length idx) with
  | Err e => Err e
  | Ok vals =>
      if in_bounds idx (length a) then Ok (put_at a idx (map Some vals))
      else Err IndexError
  end.

(** [a[idx] += values] *)
Definition add_at (a : farray) (idx : list nat) (v : bcvalues) : res farray :=
  if negb (in_bounds idx (length a)) then Err IndexError
  else
    match broadcast_to v (length idx) with
    | Err e => Err e
    | Ok vals =>
        Ok (put_at a idx (zip_with fadd (map (fun i => nth i a None) idx) vals))
    end.

Definition get_bc (t : bctype) (s : alg) : option farray :=
  match t with Value => bc_value s | Rate => bc_rate s end.

Definition set_bc (t : bctype) (v : option farray) (s : alg) : alg :=
  match t with Value => set_bc_value v s | Rate => set_bc_rate v s end.

(** [_set_BC].  [_parse_mode] and [_parse_indices] of the base class are
    not among the sources: the mode and the type are values of the
    enumerations of section 4.3 (any other string is a fatal input error
    before anything is touched) and [pores] is already an array of indices.
    The warning about a location that already holds a condition is only
    logged. *)
Definition _set_BC (pores : list nat) (t : bctype) (bcvalues : bcvalues)
    (mode : bcmode) : M unit :=
  let values := bcvalues in
  guard (negb ((1 <? size values)%nat
               && negb (size values =? length pores)%nat))
        (Exception "The number of boundary values must match the number of locations") ;;
  bv <- lookup bc_value ;;
  br <- lookup bc_rate ;;
  Np_ <- gets (fun s => Np (the_network s)) ;;
  let value_BC_mask := isfinite bv in
  let rate_BC_mask := isfinite br in
  guard ((length rate_BC_mask =? length value_BC_mask)%nat) ValueError ;;
  guard ((length rate_BC_mask =? Np_)%nat) IndexError ;;
  (* Store boundary values *)
  present <- gets (fun s => match get_bc t s with Some _ => true | None => false end) ;;
  (if negb present || match mode with overwrite => true | merge => false end
   then modify (set_bc t (Some (all_nan Np_)))
   else ret tt) ;;
  (match t with
   | Value =>
       a <- lookup bc_value ;;
       a' <- lift (assign_at a pores values) ;;
       modify (set_bc_value (Some a'))
   | Rate => ret tt
   end) ;;
  (match t with
   | Rate =>
       (* Preserve already-assigned rate BCs *)
       let bc_rate_current := toindices rate_BC_mask in
       let intersect := intersect1d bc_rate_current pores in
       a <- lookup bc_rate ;;
       a' <- lift (add_at a intersect values) ;;
       modify (set_bc_rate (Some a')) ;;
       (* Assign rate BCs to those without previously assigned values *)
       a <- lookup bc_rate ;;
       a' <- lift (assign_at a (setdiff1d pores intersect) values) ;;
       modify (set_bc_rate (Some a'))
   | Value => ret tt
   end).

Definition set_value_BC (pores : list nat) (values : bcvalues) (mode : bcmode)
  : M unit :=
  _set_BC pores Value values mode.

Definition set_rate_BC (pores : list nat) (values : bcvalues) (mode : bcmode)
  : M unit :=
  _set_BC pores Rate values mode.

(** *** Building the pure system *)

(** [_build_A] *)
Definition _build_A (E : env) : M unit :=
  cache_A <- gets (fun s => cache_A (the_settings s)) ;;
  (if negb cache_A then modify (set_pure_A None) else ret tt) ;;
  pure <- gets _pure_A ;;
  (match pure with
   | None =>
       network <- gets the_network ;;
       g <- lookup phase_conductance ;;
       am <- lift (match g with
                   | per_throat w => create_adjacency_matrix network w
                   | per_direction w => adjacency_directed E network w
                   end) ;;
       modify (set_pure_A (Some (laplacian am)))
   | Some _ => ret tt
   end) ;;
  pure <- gets _pure_A ;;
  match pure with
  | Some P => modify (set_A (Some P))  (* self.A = self._pure_A.copy() *)
  | None => raise AttributeError
  end.

(** [_build_b] *)
Definition _build_b : M unit :=
  cache_b <- gets (fun s => cache_b (the_settings s)) ;;
  (if negb cache_b then modify (set_pure_b None) else ret tt) ;;
  pure <- gets _pure_b ;;
  (match pure with
   | None =>
       n <- gets (fun s => Np (the_network s)) ;;
       modify (set_pure_b (Some (zeros n)))
   | Some _ => ret tt
   end) ;;
  pure <- gets _pure_b ;;
  match pure with
  | Some b => modify (set_b (Some b))  (* self.b = self._pure_b.copy() *)
  | None => raise AttributeError
  end.

(** [_get_A], the getter of the property [A] *)
Definition _get_A (E : env) : M (option coo) :=
  a <- gets _A ;;
  (match a with None => _build_A E | Some _ => ret tt end) ;;
  gets _A.

(** [_get_b], the getter of the property [b] *)
Definition _get_b : M (option vec) :=
  b <- gets _b ;;
  (match b with None => _build_b | Some _ => ret tt end) ;;
  gets _b.

(** Using the object an expression evaluates to: [None] has no attributes. *)
Definition deref {A : Type} (m : M (option A)) : M A :=
  o <- m ;;
  match o with Some a => ret a | None => raise AttributeError end.

(** *** Applying the boundary conditions *)

(** [_apply_BCs] *)
Definition _apply_BCs (E : env) : M unit :=
  r <- gets bc_rate ;;
  (match r with
   | Some bc_rate =>
       (* Update b *)
       let ind := isfinite bc_rate in
       b <- deref _get_b ;;
       guard (length ind =? length b)%nat IndexError ;;
       modify (set_b (Some (put_masked b ind (map fval bc_rate))))
   | None => ret tt
   end) ;;
  v <- gets bc_value ;;
  match v with
  | Some bc_value =>
      A <- deref (_get_A E) ;;
      let f := mean (diagonal A) in
      (* Update b (impose bc values) *)
      let ind := isfinite bc_value in
      b <- deref _get_b ;;
      guard (length ind =? length b)%nat IndexError ;;
      let b := put_masked b ind (map (fun v => fval v * f) bc_value) in
      modify (set_b (Some b)) ;;
      (* Update b (substract quantities from b to keep A symmetric) *)
      let x_BC := put_masked (zeros (length b)) ind (map fval bc_value) in
      guard (length x_BC =? shape A)%nat ValueError ;;
      let b := sub_masked b (invert ind) (matvec A x_BC) in
      modify (set_b (Some b)) ;;
      (* Update A *)
      let P_bc := toindices ind in
      let A := zero_rows P_bc A in
      modify (set_A (Some A)) ;;
      let A := zero_cols P_bc A in
      modify (set_A (Some A)) ;;
      let datadiag := diagonal A in
      let datadiag := put_at datadiag P_bc (repeat f (length P_bc)) in
      let A := setdiag A datadiag in
      modify (set_A (Some A)) ;;
      let A := eliminate_zeros A in
      modify (set_A (Some A))
  | None => ret tt
  end.

(** *** The solver dispatcher *)

(** [A * x] for a sparse [A]: the dimensions must agree. *)
Definition mul (A : coo) (x : vec) : res vec :=
  if (length x =? shape A)%nat then Ok (matvec A x) else Err ValueError.

(** [a - b] on arrays, with numpy's broadcasting of a one-element array. *)
Definition vsub (a b : vec) : res vec :=
  if (length a =? length b)%nat then Ok (zip_with Qminus a b)
  else match a, b with
       | [x], _ => Ok (map (fun y => x - y) b)
       | _, [y] => Ok (map (fun x => x - y) a)
       | _, _ => Err ValueError
       end.

(** [_get_atol] *)
Definition _get_atol (E : env) : M Q :=
  atol <- gets (fun s => solver_atol (the_settings s)) ;;
  match atol with
  | Some atol => ret atol
  | None =>
      tol <- gets (fun s => solver_tol (the_settings s)) ;;
      b <- deref _get_b ;;
      ret (norm E b * tol)
  end.

(** [_get_residual] *)
Definition _get_residual (E : env) (x : option vec) : M Q :=
  x <- (match x with Some x => ret x | None => lookup quantity end) ;;
  A <- deref (_get_A E) ;;
  Ax <- lift (mul A x) ;;
  b <- deref _get_b ;;
  r <- lift (vsub Ax b) ;;
  ret (norm E r).

(** [_get_rtol] *)
Definition _get_rtol (E : env) (x0 : vec) : M Q :=
  rtol <- gets (fun s => solver_rtol (the_settings s)) ;;
  match rtol with
  | Some rtol => ret rtol
  | None =>
      res0 <- _get_residual E (Some x0) ;;
      atol <- _get_atol E ;;
      ret (atol / res0)
  end.

Definition iterative : list string :=
  ["bicg"; "bicgstab"; "cg"; "cgs"; "gmres"; "lgmres"; "minres"; "gcrotmk";
   "qmr"]%string.

Definition string_of_Z (z : Z) : string := NilZero.string_of_int (Z.to_int z).

(** [_solve].  The three [if] statements on the solver family follow each
    other; [x] stays unbound when the family is none of the three. *)
Definition _solve (E : env) (A : option coo) (b : option vec) (x0 : option vec)
  : M vec :=
  A <- (match A with None => _get_A E | Some _ => ret A end) ;;
  b <- (match b with None => _get_b | Some _ => ret b end) ;;
  match A, b with
  | Some A, Some b =>
      (* A = A.tocsr() *)
      let x0 := match x0 with None => zeros (length b) | Some x0 => x0 end in
      (* Set tolerance for iterative solvers *)
      tol <- gets (fun s => solver_tol (the_settings s)) ;;
      max_it <- gets (fun s => solver_maxiter (the_settings s)) ;;
      atol <- _get_atol E ;;
      rtol <- _get_rtol E x0 ;;
      (* Check if A is symmetric *)
      self_A <- deref (_get_A E) ;;
      let is_sym := is_symmetric E self_A in
      family <- gets (fun s => solver_family (the_settings s)) ;;
      type <- gets (fun s => solver_type (the_settings s)) ;;
      if (type =? "cg")%string && negb is_sym
      then raise (Exception "CG solver only works on symmetric matrices.")
      else
        (* SciPy *)
        x <- (if (family =? "scipy")%string then
                guard (scipy_has E type) AttributeError ;;
                if existsb (String.eqb type) iterative then
                  r <- lift (scipy_iterative E type A b atol tol max_it x0) ;;
                  let (x, exit_code) := r : vec * Z in
                  if (0 <? exit_code)%Z
                  then raise (Exception ("Solver did not converge, exit code: "
                                         ++ string_of_Z exit_code))
                  else ret (Some x)
                else
                  x <- lift (scipy_direct E type A b) ;;
                  ret (Some x)
              else ret None) ;;
        (* PETSc *)
        x <- (if (family =? "petsc")%string then
                match petsc E with
                | None => raise (Exception "PETSc is not installed.")
                | Some ls =>
                    pre <- gets (fun s => solver_preconditioner (the_settings s)) ;;
                    x <- lift (ls type pre A b x0 atol rtol max_it) ;;
                    ret (Some x)
                end
              else ret x) ;;
        (* PyAMG *)
        x <- (if (family =? "pyamg")%string then
                match pyamg E with
                | None => raise (Exception "PyAMG is not installed.")
                | Some ml =>
                    x <- lift (ml A b rtol max_it) ;;
                    ret (Some x)
                end
              else ret x) ;;
        match x with
        | Some x => ret x
        | None => raise UnboundLocalError
        end
  | _, _ => raise (Exception "The A matrix or the b vector not yet built.")
  end.

(** [_run_generic] *)
Definition _run_generic (E : env) (x0 : option vec) : M unit :=
  _apply_BCs E ;;
  b <- deref _get_b ;;
  let x0 := zeros (length b) in
  x_new <- _solve E None None (Some x0) ;;
  modify (set_quantity (Some x_new)).

(** [run] *)
Definition run (E : env) (x0 : option vec) : M unit :=
  _run_generic E x0.

(** *** Rates *)

(** [np.add.at(a, idx, vals)]: the additions happen one after the other. *)
Fixpoint add_at_each (a : vec) (idx : list nat) (vals : vec) : vec :=
  match idx, vals with
  | i :: idx', v :: vals' => add_at_each (upd a i (nth i a 0 + v)) idx' vals'
  | _, _ => a
  end.

(** The conductance as an [Nt] by 2 array: a one-dimensional array is
    tiled.  An array of another length does not fit the throats and numpy
    fails on it. *)
Definition as_two_columns (g : conductance) (nt : nat) : res (list (Q * Q)) :=
  match g with
  | per_throat w =>
      if (length w =? nt)%nat then Ok (map (fun x => (x, x)) w)
      else Err ValueError
  | per_direction w =>
      if (length w =? nt)%nat then Ok w else Err ValueError
  end.

(** [rate].  [Qt] has lost its only axis when there is one throat, and
    cannot be indexed then. *)
Definition rate (pores throats : list nat) (mode : string) : M vec :=
  network <- gets the_network ;;
  g <- lookup phase_conductance ;;
  quantity <- lookup quantity ;;
  let P12 := conns network in
  guard (in_bounds (map fst P12) (length quantity)
         && in_bounds (map snd P12) (length quantity)) IndexError ;;
  let X12 := map (fun c => (nth (fst c) quantity 0, nth (snd c) quantity 0)) P12 in
  g <- lift (as_two_columns g (Nt network)) ;;
  (* The next line is critical for rates to be correct *)
  let g := map (fun p => (snd p, fst p)) g in
  let Qt := zip_with (fun gk xk => snd gk * snd xk - fst gk * fst xk) g X12 in
  if (0 <? length throats)%nat && (0 <? length pores)%nat then
    raise (Exception "Must specify either pores or throats, not both")
  else if (length throats =? 0)%nat && (length pores =? 0)%nat then
    raise (Exception "Must specify either pores or throats")
  else if (0 <? length throats)%nat then
    guard (negb (Nt network =? 1)%nat) IndexError ;;
    guard (in_bounds throats (length Qt)) IndexError ;;
    let R := map (fun t => Qabs (nth t Qt 0)) throats in
    ret (if (mode =? "group")%string then [Qsum R] else R)
  else
    let Qp := zeros (Np network) in
    guard (in_bounds (map fst P12) (Np network)) IndexError ;;
    let Qp := add_at_each Qp (map fst P12) (map Qopp Qt) in
    guard (in_bounds (map snd P12) (Np network)) IndexError ;;
    let Qp := add_at_each Qp (map snd P12) Qt in
    guard (in_bounds pores (Np network)) IndexError ;;
    let R := map (fun p => nth p Qp 0) pores in
    ret (if (mode =? "group")%string then [Qsum R] else R).

(** *** Removing conditions, resetting, reading results *)

Definition set_phase_conductance (v : option conductance) (s : alg) : alg :=
  mkalg (the_network s) v (the_settings s)
        (_A s) (_pure_A s) (_b s) (_pure_b s) (bc_rate s) (bc_value s) (quantity s).

Definition set_settings (v : settings) (s : alg) : alg :=
  mkalg (the_network s) (phase_conductance s) v
        (_A s) (_pure_A s) (_b s) (_pure_b s) (bc_rate s) (bc_value s) (quantity s).

(** [a[pores] = np.nan] *)
Definition nan_at (a : farray) (pores : list nat) : res farray :=
  if in_bounds pores (length a)
  then Ok (put_at a pores (repeat None (length pores)))
  else Err IndexError.

(** [remove_BC].  A [bctype] that is one string is wrapped into a list
    first; [pores=None] stands for all the pores, [self.Ps]. *)
Definition remove_BC (pores : option (list nat)) (bctype : list string) : M unit :=
  let bctype := if existsb (String.eqb "all") bctype
                then ["value"; "rate"]%string else bctype in
  Np_ <- gets (fun s => Np (the_network s)) ;;
  let pores := match pores with None => seq 0 Np_ | Some pores => pores end in
  v <- gets bc_value ;;
  (match v with
   | Some a =>
       if existsb (String.eqb "value") bctype then
         a' <- lift (nan_at a pores) ;;
         modify (set_bc_value (Some a'))
       else ret tt
   | None => ret tt
   end) ;;
  r <- gets bc_rate ;;
  match r with
  | Some a =>
      if existsb (String.eqb "rate") bctype then
        a' <- lift (nan_at a pores) ;;
        modify (set_bc_rate (Some a'))
      else ret tt
  | None => ret tt
  end.

(** [reset].  Taking the phase out of the settings leaves the conductance
    array out of reach: looking it up raises [KeyError] from then on. *)
Definition reset (bcs results phase : bool) : M unit :=
  Np_ <- gets (fun s => Np (the_network s)) ;;
  (if bcs then
     modify (set_bc_value (Some (all_nan Np_))) ;;
     modify (set_bc_rate (Some (all_nan Np_)))
   else ret tt) ;;
  (if results then modify (set_quantity None) else ret tt) ;;
  (if phase then modify (set_phase_conductance None) else ret tt).

(** [results]: the dictionary has one entry, the stored quantity. *)
Definition results : M vec := lookup quantity.

(** [set_solver]: an argument that is [None] keeps the setting. *)
Definition set_solver (family type preconditioner : option string)
    (tol atol rtol : option Q) (maxiter : option Z) : M unit :=
  settings <- gets the_settings ;;
  let family := match family with
                | None => solver_family settings | Some v => v end in
  let type := match type with
              | None => solver_type settings | Some v => v end in
  let preconditioner := match preconditioner with
                        | None => solver_preconditioner settings
                        | Some v => v end in
  let tol := match tol with None => solver_tol settings | Some v => v end in
  let atol := match atol with None => solver_atol settings | Some _ => atol end in
  let rtol := match rtol with None => solver_rtol settings | Some _ => rtol end in
  let maxiter := match maxiter with
                 | None => solver_maxiter settings | Some v => v end in
  modify (set_settings
            (mksettings family type preconditioner tol atol rtol maxiter
                        (cache_A settings) (cache_b settings))).

(** *** Inlets, outlets and the effective property *)

(** [a[np.isfinite(a)]] *)
Definition finite_values (a : farray) : vec :=
  flat_map (fun o => match o with Some q => [q] | None => [] end) a.

(** [np.unique]: the distinct values, ascending. *)
Fixpoint insert_unique (x : Q) (l : vec) : vec :=
  match l with
  | [] => [x]
  | y :: l' =>
      if Qeq_bool x y then l
      else if Qle_bool x y then x :: l
      else y :: insert_unique x l'
  end.

Definition unique_values (l : vec) : vec := fold_right insert_unique [] l.

(** [np.amax] and [np.amin]: an empty array has no extremum. *)
Definition amax (l : vec) : res Q :=
  match l with
  | [] => Err ValueError
  | x :: l' => Ok (fold_left (fun m y => if Qle_bool m y then y else m) l' x)
  end.

Definition amin (l : vec) : res Q :=
  match l with
  | [] => Err ValueError
  | x :: l' => Ok (fold_left (fun m y => if Qle_bool y m then y else m) l' x)
  end.

(** [np.where(a == v)[0]]: nan equals nothing. *)
Definition where_eq (a : farray) (v : Q) : list nat :=
  filter (fun k => match nth k a None with
                   | Some q => Qeq_bool q v
                   | None => false
                   end)
         (seq 0 (length a)).

(** [_get_inlets] *)
Definition _get_inlets : M (list nat) :=
  a <- lookup bc_value ;;
  let BCs := unique_values (finite_values a) in
  m <- lift (amax BCs) ;;
  ret (where_eq a m).

(** [_get_outlets] *)
Definition _get_outlets : M (list nat) :=
  a <- lookup bc_value ;;
  let BCs := unique_values (finite_values a) in
  m <- lift (amin BCs) ;;
  ret (where_eq a m).

(** [np.diff] *)
Fixpoint diff (l : vec) : vec :=
  match l with
  | x :: (y :: _) as l' => (y - x) :: diff l'
  | _ => []
  end.

(** [_get_domain_area] and [_get_domain_length] estimate the geometry from
    the coordinates of the pores with a convex hull and a nearest-neighbour
    search in floating point; they are taken as given functions of the
    object and of the inlets and outlets.  They do not modify the object. *)
Record geometry := mkgeometry {
  _get_domain_area : alg -> list nat -> option (list nat) -> res Q;
  _get_domain_length : alg -> list nat -> option (list nat) -> res Q
}.

(** [_calc_eff_prop].  The quotient by the differences of the distinct
    boundary values is taken entry by entry. *)
Definition _calc_eff_prop (G : geometry) (inlets outlets : option (list nat))
    (domain_area domain_length : option Q) : M vec :=
  q <- gets quantity ;;
  guard (match q with Some _ => true | None => false end)
        (Exception "The algorithm has not been run yet. Cannot calculate effective property.") ;;
  a <- lookup bc_value ;;
  let BCs := unique_values (finite_values a) in
  let Dx := map Qabs (diff BCs) in
  inlets <- (match inlets with
             | None => _get_inlets
             | Some inlets => ret inlets
             end) ;;
  flow <- rate inlets [] "group" ;;
  domain_area <- (match domain_area with
                  | None => fun s => (_get_domain_area G s inlets outlets, s)
                  | Some v => ret v
                  end) ;;
  domain_length <- (match domain_length with
                    | None => fun s => (_get_domain_length G s inlets outlets, s)
                    | Some v => ret v
                    end) ;;
  ret (map (fun d => Qsum flow * domain_length / domain_area / d) Dx).

End GenericTransport.

(* ================================================================== *)
(** ** An exact environment *)

Module Exact.

(** Gauss-Jordan elimination on the rows of the augmented matrix [A | b]:
    the exact answer of a direct solver, [None] for a singular matrix. *)
Fixpoint find_pivot (rows : list vec) (c : nat) : option (vec * list vec) :=
  match rows with
  | [] => None
  | r :: rs =>
      if Qeq_bool (nth c r 0) 0 then
        match find_pivot rs c with
        | Some (p, rest) => Some (p, r :: rest)
        | None => None
        end
      else Some (r, rs)
  end.

Definition eliminate (c : nat) (p r : vec) : vec :=
  map Qred (GenericTransport.zip_with (fun a b => a - nth c r 0 * b) r p).

Fixpoint gauss (n c : nat) (done todo : list vec) : option (list vec) :=
  match n with
  | O => Some done
  | S n' =>
      match find_pivot todo c with
      | None => None
      | Some (p, rest) =>
          let p := map (fun a => Qred (a / nth c p 0)) p in
          gauss n' (S c) (map (eliminate c p) done ++ [p])
                (map (eliminate c p) rest)
      end
  end.

Definition spsolve (A : coo) (b : vec) : res vec :=
  let n := shape A in
  if negb (length b =? n)%nat then Err ValueError
  else
    let rows := tabulate n (fun i => tabulate n (fun j => get A i j) ++ [nth i b 0]) in
    match gauss n 0 [] rows with
    | Some rows => Ok (map (fun r => nth n r 0) rows)
    | None => Err (Exception "Matrix is exactly singular")
    end.

(** The exact test of symmetry. *)
Definition is_symmetric (A : coo) : bool :=
  forallb (fun i => forallb (fun j => Qeq_bool (get A i j) (get A j i))
                            (seq 0 (shape A)))
          (seq 0 (shape A)).

(** The largest absolute value, a norm with rational values. *)
Definition norm (v : vec) : Q :=
  fold_right (fun x m => if Qle_bool m (Qabs x) then Qabs x else m) 0 v.

(** Modelled from the spec: [GenericNetwork.create_adjacency_matrix] is not
    among the sources.  Section 3 lets an edge carry a two-column,
    direction-dependent conductance and section 6 describes the primitive
    as accepting per-edge weights and returning coordinate entries: throat
    [k] between pores [i] and [j] with the row [(w0, w1)] contributes the
    triples [(i, j, w0)] and [(j, i, w1)], each direction with its own
    weight. *)
Definition adjacency_directed (net : network) (w : list (Q * Q)) : res coo :=
  if negb (length w =? Nt net)%nat then Err ValueError
  else if negb (net_wfb net) then Err ValueError
  else
    let cw := combine (conns net) w in
    Ok (mkcoo (Np net)
          (map (fun e => (fst (fst e), snd (fst e), fst (snd e))) cw
           ++ map (fun e => (snd (fst e), fst (fst e), snd (snd e))) cw)).

(** An environment in which scipy offers the direct solver only and the
    other two families are not installed. *)
Definition exact_env : env :=
  mkenv adjacency_directed norm is_symmetric
        (fun name => (name =? "spsolve")%string)
        (fun _ _ _ _ _ _ _ => Err AttributeError)
        (fun _ A b => spsolve A b)
        None None.

(** The chain of section 8: five pores in a row, unit conductances. *)
Definition chain5 : network := mknet 5 [(0, 1); (1, 2); (2, 3); (3, 4)]%nat.

Definition chain5_alg : GenericTransport.alg :=
  GenericTransport.init chain5 (Some (per_throat [1; 1; 1; 1]))
                        GenericTransport.def_set.

(** The pure matrix of the chain. *)
Definition triple (r c : nat) (d : Q) : entry := (r, c, d).

Definition chain5_L : coo :=
  mkcoo 5 [triple 0 1 (-1); triple 1 2 (-1); triple 2 3 (-1); triple 3 4 (-1);
           triple 1 0 (-1); triple 2 1 (-1); triple 3 2 (-1); triple 4 3 (-1);
           triple 0 0 1; triple 1 1 2; triple 2 2 2; triple 3 3 2;
           triple 4 4 1].

(** The chain with its system built, the value 1 held at pore 0 and the
    value 0 at pore 4. *)
Definition chain5_bcs : GenericTransport.alg :=
  GenericTransport.mkalg chain5 (Some (per_throat [1; 1; 1; 1]))
    GenericTransport.def_set
    (Some chain5_L) (Some chain5_L) (Some (zeros 5)) (Some (zeros 5))
    (Some (repeat None 5)) (Some [Some 1; None; None; None; Some 0]) None.

(** Two pores joined by one throat; pore 0 holds the rate 5. *)
Definition two_pores : network := mknet 2 [(0, 1)]%nat.

Definition rate_bound : GenericTransport.alg :=
  GenericTransport.set_bc_rate (Some [Some 5; None])
    (GenericTransport.init two_pores (Some (per_throat [1]))
                           GenericTransport.def_set).

(** The system of the chain after [_apply_BCs]. *)
Definition chain5_A_bc : coo :=
  mkcoo 5 [triple 1 2 (-1); triple 2 3 (-1); triple 2 1 (-1); triple 3 2 (-1);
           triple 0 0 (8 # 5); triple 1 1 2; triple 2 2 2; triple 3 3 2;
           triple 4 4 (8 # 5)].

Definition chain5_b_bc : vec := [8 # 5; 1; 0; 0; 0 # 5].

(** The scenario of section 8: the two values are set, then [run]. *)
Definition chain5_run (E : env) : GenericTransport.M unit :=
  GenericTransport.bind
    (GenericTransport.set_value_BC [0%nat] (GenericTransport.scalar 1)
                                   GenericTransport.merge)
    (fun _ =>
       GenericTransport.bind
         (GenericTransport.set_value_BC [4%nat] (GenericTransport.scalar 0)
                                        GenericTransport.merge)
         (fun _ => GenericTransport.run E None)).

(** Three pores in a row, unit conductances, caching on. *)
Definition chain3 : network := mknet 3 [(0, 1); (1, 2)]%nat.

Definition chain3_alg : GenericTransport.alg :=
  GenericTransport.init chain3 (Some (per_throat [1; 1]))
                        GenericTransport.def_set.

(** A first run between the values 1 at pore 0 and 0 at pore 2. *)
Definition first_run : GenericTransport.M unit :=
  GenericTransport.bind
    (GenericTransport.set_value_BC [0%nat] (GenericTransport.scalar 1)
                                   GenericTransport.merge)
    (fun _ =>
       GenericTransport.bind
         (GenericTransport.set_value_BC [2%nat] (GenericTransport.scalar 0)
                                        GenericTransport.merge)
         (fun _ => GenericTransport.run exact_env None)).

(** A run with the value 1 at pore 0 as the only condition. *)
Definition second_run : GenericTransport.M unit :=
  GenericTransport.bind
    (GenericTransport.set_value_BC [0%nat] (GenericTransport.scalar 1)
                                   GenericTransport.overwrite)
    (fun _ => GenericTransport.run exact_env None).

(** Two pores with a stored solution. *)
Definition two_pores_solved : GenericTransport.alg :=
  GenericTransport.set_quantity (Some [1; 0])
    (GenericTransport.init two_pores (Some (per_throat [1]))
                           GenericTransport.def_set).

(** The conjugate-gradient variant on a working matrix that is not
    symmetric. *)
Definition cg_settings : GenericTransport.settings :=
  GenericTransport.mksettings "scipy" "cg" "jacobi" (1 # 1000000) None None
                              5000 true true.

Definition asymmetric_A : coo :=
  mkcoo 2 [triple 0 0 1; triple 0 1 2; triple 1 1 1].

Definition asymmetric_alg : GenericTransport.alg :=
  GenericTransport.mkalg two_pores (Some (per_throat [1])) cg_settings
    (Some asymmetric_A) None (Some [0; 0]) None
    (Some [None; None]) (Some [None; None]) None.

(** An environment in which every scipy solver is present and the
    iterative ones stop at once: they hand back the initial guess with the
    given exit code. *)
Definition stalling_env (code : Z) : env :=
  mkenv adjacency_directed norm is_symmetric
        (fun _ => true)
        (fun _ _ _ _ _ _ x0 => Ok (x0, code))
        (fun _ A b => spsolve A b)
        None None.

(** The chain with its boundary conditions and other solver settings. *)
Definition chain5_with (family type : string) : GenericTransport.alg :=
  GenericTransport.set_settings
    (GenericTransport.mksettings family type "jacobi" (1 # 1000000) None None
                                 5000 true true)
    chain5_bcs.

(** The adjacency matrix of the chain and the field between the values 1
    and 0 on it. *)
Definition chain5_am : coo :=
  mkcoo 5 [triple 0 1 1; triple 1 2 1; triple 2 3 1; triple 3 4 1;
           triple 1 0 1; triple 2 1 1; triple 3 2 1; triple 4 3 1].

Definition chain5_x : vec := [1; 3 # 4; 1 # 2; 1 # 4; 0].

(** Two pores with their system built, the value 1 held at pore 0 and the
    rate 5 at pore 1. *)
Definition two_pores_L : coo :=
  mkcoo 2 [triple 0 1 (-1); triple 1 0 (-1); triple 0 0 1; triple 1 1 1].

Definition two_pores_mixed : GenericTransport.alg :=
  GenericTransport.mkalg two_pores (Some (per_throat [1]))
    GenericTransport.def_set
    (Some two_pores_L) (Some two_pores_L) (Some [0; 0]) (Some [0; 0])
    (Some [None; Some 5]) (Some [Some 1; None]) None.

End Exact.

(* ================================================================== *)
(** ** The elimination as a function of the working system *)

Module Elimination.

(** The right-hand side after the rate conditions have been written. *)
Definition rate_step (b : vec) (r : option farray) : vec :=
  match r with
  | Some bc_rate => put_masked b (isfinite bc_rate) (map fval bc_rate)
  | None => b
  end.

(** The vector [x_BC] of [_apply_BCs]. *)
Definition x_BC_of (n : nat) (bc_value : farray) : vec :=
  put_masked (zeros n) (isfinite bc_value) (map fval bc_value).

(** The right-hand side after the value conditions. *)
Definition value_step_b (A : coo) (b : vec) (bc_value : farray) : vec :=
  let f := mean (diagonal A) in
  let ind := isfinite bc_value in
  let b := put_masked b ind (map (fun v => fval v * f) bc_value) in
  sub_masked b (invert ind) (matvec A (x_BC_of (length b) bc_value)).

(** The matrix after the value conditions. *)
Definition value_step_A (A : coo) (bc_value : farray) : coo :=
  let f := mean (diagonal A) in
  let P_bc := toindices (isfinite bc_value) in
  let A1 := zero_cols P_bc (zero_rows P_bc A) in
  eliminate_zeros
    (setdiag A1 (put_at (diagonal A1) P_bc (repeat f (length P_bc)))).

(** The lengths that a system on [n] pores has. *)
Definition opt_all {A : Type} (P : A -> Prop) (o : option A) : Prop :=
  match o with Some a => P a | None => True end.

(** The rate array after a merge of the scalar [v] at [pores]: the sum is
    written at the places that held a rate, then [v] at the others. *)
Definition merged_rate (br : farray) (pores : list nat) (v : Q) : farray :=
  let I := intersect1d (toindices (isfinite br)) pores in
  put_at (put_at br I (map (fun i => GenericTransport.fadd (nth i br None) v) I))
         (setdiff1d pores I) (map (fun _ => Some v) (setdiff1d pores I)).

(** The pores of a network of [n] pores that are not in [X]. *)
Definition complement (n : nat) (X : list nat) : list nat :=
  filter (fun k => negb (isin k X)) (seq 0 n).

(** The number of rows of the conductance array. *)
Definition conductance_rows (g : conductance) : nat :=
  match g with per_throat w => length w | per_direction w => length w end.

(** The conductance as [rate] uses it after tiling. *)
Definition two_columns (g : conductance) : list (Q * Q) :=
  match g with
  | per_throat w => map (fun x => (x, x)) w
  | per_direction w => w
  end.

(** The array [Qp] of [rate]: the net rate of every pore. *)
Definition pore_rates (net : network) (g2 : list (Q * Q)) (x : vec) : vec :=
  let X12 := map (fun c => (nth (fst c) x 0, nth (snd c) x 0)) (conns net) in
  let g := map (fun p => (snd p, fst p)) g2 in
  let Qt := GenericTransport.zip_with
              (fun gk xk => snd gk * snd xk - fst gk * fst xk) g X12 in
  GenericTransport.add_at_each
    (GenericTransport.add_at_each (zeros (Np net)) (map fst (conns net))
                                  (map Qopp Qt))
    (map snd (conns net)) Qt.

End Elimination.

(* ================================================================== *)
(** ** Where float64 and the rationals agree *)

Module Float64.

(** [q * 2^k] is an integer of magnitude [bound] at most.  float64 holds
    such a number exactly when [bound <= 2^53] and [k <= 1074]. *)
Definition dyadic (k : nat) (bound : Z) (q : Q) : bool :=
  let n := (Qnum q * 2 ^ Z.of_nat k)%Z in
  ((n mod Zpos (Qden q) =? 0) && (Z.abs (n / Zpos (Qden q)) <=? bound))%Z.

(** Data on which [rate] rounds nowhere.  The conductances lie on the grid
    of step [2^-kg] and the field on the grid of step [2^-kx], with
    numerators up to [2^20], and the network has [2^10] throats at most.
    A product [g * x] is then a multiple of [2^-(kg+kx)] with a numerator
    up to [2^40], a throat rate one with a numerator up to [2^41], and every
    sum that [rate] forms of throat rates, in whatever order, one with a
    numerator up to [2^52]: each of them is a float64, so no operation of
    [rate] rounds and the floating-point result is the rational one. *)
Definition exact_rate (kg kx : nat) (net : network) (g : conductance)
    (x : vec) : bool :=
  (kg + kx <=? 1000)%nat && (Nt net <=? 1024)%nat
  && forallb (fun p => dyadic kg (2 ^ 20) (fst p) && dyadic kg (2 ^ 20) (snd p))
             (Elimination.two_columns g)
  && forallb (dyadic kx (2 ^ 20)) x.

(** Boundary data on which the eliminated right-hand side rounds nowhere:
    the values lie on the grid of the field, the rates and the right-hand
    side on entry on the grid of the throat rates. *)
Definition exact_system (kg kx : nat) (b : vec) (bc_rate : option farray)
    (bc_value : farray) : bool :=
  forallb (dyadic (kg + kx) (2 ^ 51)) b
  && match bc_rate with
     | Some br => forallb (fun o => dyadic (kg + kx) (2 ^ 51) (fval o)) br
     | None => true
     end
  && forallb (fun o => dyadic kx (2 ^ 20) (fval o)) bc_value.

(** The array [Qp] of [rate] computed as the engine computes it, in float64
    with rounding to nearest: the same operations in the same order as
    [Elimination.pore_rates]. *)
Section Binary64.
Import PrimFloat.

Fixpoint add_at_each (a : list float) (idx : list nat) (vals : list float)
  : list float :=
  match idx, vals with
  | i :: idx', v :: vals' => add_at_each (upd a i (nth i a zero + v)%float) idx' vals'
  | _, _ => a
  end.

Definition pore_rates (net : network) (g2 : list (float * float))
    (x : list float) : list float :=
  let X12 := map (fun c => (nth (fst c) x zero, nth (snd c) x zero)) (conns net) in
  let g := map (fun p => (snd p, fst p)) g2 in
  let Qt := GenericTransport.zip_with
              (fun gk xk => (snd gk * snd xk - fst gk * fst xk)%float) g X12 in
  add_at_each
    (add_at_each (repeat zero (Np net)) (map fst (conns net)) (map opp Qt))
    (map snd (conns net)) Qt.

End Binary64.

End Float64.

(* ================================================================== *)
(** ** What a method leaves alone *)

Module Frame.

(** Every call of [m] relates the state before to the state after, whether
    it returns or raises. *)
Definition preserves {A : Type} (P : GenericTransport.alg -> GenericTransport.alg -> Prop)
    (m : GenericTransport.M A) : Prop :=
  forall s r s', m s = (r, s') -> P s s'.

(** The settings stay, and a pure matrix or vector that is cached stays. *)
Definition keeps_pure (s s' : GenericTransport.alg) : Prop :=
  GenericTransport.the_settings s' = GenericTransport.the_settings s /\
  (GenericTransport.cache_A (GenericTransport.the_settings s) = true ->
   GenericTransport._pure_A s <> None ->
   GenericTransport._pure_A s' = GenericTransport._pure_A s) /\
  (GenericTransport.cache_b (GenericTransport.the_settings s) = true ->
   GenericTransport._pure_b s <> None ->
   GenericTransport._pure_b s' = GenericTransport._pure_b s).

(** The stored solution stays. *)
Definition same_quantity (s s' : GenericTransport.alg) : Prop :=
  GenericTransport.quantity s' = GenericTransport.quantity s.

(** What the caller gave stays: the network, the conductance of the phase,
    the settings and the two boundary-condition arrays. *)
Definition same_inputs (s s' : GenericTransport.alg) : Prop :=
  GenericTransport.the_network s' = GenericTransport.the_network s /\
  GenericTransport.phase_conductance s' = GenericTransport.phase_conductance s /\
  GenericTransport.the_settings s' = GenericTransport.the_settings s /\
  GenericTransport.bc_rate s' = GenericTransport.bc_rate s /\
  GenericTransport.bc_value s' = GenericTransport.bc_value s.

(** An object whose working matrix and vector exist stays as it is. *)
Definition untouched_when_built (s s' : GenericTransport.alg) : Prop :=
  GenericTransport._A s <> None -> GenericTransport._b s <> None -> s' = s.

End Frame.

(** Helpers of the proofs about the Laplacian. *)

Definition transpose_entries (l : list entry) : list entry :=
  map (fun e => (ecol e, erow e, edata e)) l.

(** The sum of the data stored in row [i]. *)
Fixpoint row_sum (l : list entry) (i : nat) : Q :=
  match l with
  | [] => 0
  | e :: l' => (if (erow e =? i)%nat then edata e else 0) + row_sum l' i
  end.

(* ------------------------------------------------------------------ *)
(** *** Facts about arrays *)

Lemma nth_tabulate {A : Type} (n : nat) (f : nat -> A) (k : nat) (d : A) :
  (k < n)%nat -> nth k (tabulate n f) d = f k.
Proof.
  intros Hk. unfold tabulate.
  rewrite (nth_indep _ d (f 0%nat)) by (rewrite length_map, length_seq; exact Hk).
  rewrite map_nth, seq_nth by exact Hk. reflexivity.
Qed.

Lemma length_tabulate {A : Type} (n : nat) (f : nat -> A) :
  length (tabulate n f) = n.
Proof. unfold tabulate. now rewrite length_map, length_seq. Qed.

Lemma length_put_masked a m x : length (put_masked a m x) = length a.
Proof. apply length_tabulate. Qed.

Lemma length_sub_masked a m x : length (sub_masked a m x) = length a.
Proof. apply length_tabulate. Qed.

Lemma nth_isfinite (a : farray) (k : nat) :
  nth k (isfinite a) false =
  match nth k a None with Some _ => true | None => false end.
Proof.
  revert k; induction a as [|o a IH]; intros [|k]; simpl; auto.
Qed.

Lemma length_isfinite (a : farray) : length (isfinite a) = length a.
Proof. apply length_map. Qed.

Lemma isin_true (k : nat) (l : list nat) : isin k l = true <-> In k l.
Proof.
  unfold isin. rewrite existsb_exists. split.
  - intros [x [Hx He]]. apply Nat.eqb_eq in He. now subst.
  - intros H. exists k. split; [exact H | apply Nat.eqb_refl].
Qed.

Lemma isin_false (k : nat) (l : list nat) : isin k l = false <-> ~ In k l.
Proof.
  rewrite <- isin_true. destruct (isin k l); split; intros; congruence.
Qed.

Lemma in_toindices (m : list bool) (k : nat) :
  In k (toindices m) <-> nth k m false = true.
Proof.
  unfold toindices. rewrite filter_In, in_seq. split.
  - tauto.
  - intros H. split; [|exact H].
    destruct (Nat.lt_ge_cases k (length m)) as [Hl|Hl]; [lia|].
    rewrite nth_overflow in H by exact Hl. discriminate.
Qed.

Lemma list_max_ge (l : list nat) (k : nat) : In k l -> (k <= list_max l)%nat.
Proof.
  induction l as [|x l IH]; simpl; [tauto|].
  intros [->|H]; [lia|]. specialize (IH H). lia.
Qed.

Lemma in_unique (l : list nat) (k : nat) : In k (unique l) <-> In k l.
Proof.
  unfold unique. rewrite filter_In, in_seq, isin_true. split; [tauto|].
  intros H. pose proof (list_max_ge l k H). repeat split; try lia; exact H.
Qed.

Lemma in_intersect1d (a b : list nat) (k : nat) :
  In k (intersect1d a b) <-> In k a /\ In k b.
Proof. unfold intersect1d. now rewrite filter_In, in_unique, isin_true. Qed.

Lemma in_setdiff1d (a b : list nat) (k : nat) :
  In k (setdiff1d a b) <-> In k a /\ ~ In k b.
Proof.
  unfold setdiff1d. rewrite filter_In, in_unique, negb_true_iff, isin_false.
  tauto.
Qed.

Lemma length_upd {A : Type} (a : list A) (i : nat) (v : A) :
  length (upd a i v) = length a.
Proof.
  revert i; induction a as [|x a IH]; intros [|i]; simpl; auto.
Qed.

Lemma nth_upd_same {A : Type} (a : list A) (i : nat) (v d : A) :
  (i < length a)%nat -> nth i (upd a i v) d = v.
Proof.
  revert i; induction a as [|x a IH]; intros [|i]; simpl; intros H;
    try lia; auto. apply IH. lia.
Qed.

Lemma nth_upd_other {A : Type} (a : list A) (i k : nat) (v d : A) :
  k <> i -> nth k (upd a i v) d = nth k a d.
Proof.
  revert i k; induction a as [|x a IH]; intros [|i] [|k]; simpl; intros H;
    try congruence; auto.
Qed.

Lemma length_put_at {A : Type} (idx : list nat) :
  forall (a vals : list A), length (put_at a idx vals) = length a.
Proof.
  induction idx as [|i idx IH]; intros a [|v vals]; simpl; auto.
  now rewrite IH, length_upd.
Qed.

Lemma nth_put_at_other {A : Type} (idx : list nat) (k : nat) (d : A) :
  forall (a vals : list A),
    ~ In k idx -> nth k (put_at a idx vals) d = nth k a d.
Proof.
  induction idx as [|i idx IH]; intros a [|v vals] H; simpl; auto.
  rewrite IH by (intro; apply H; now right).
  apply nth_upd_other. intro; apply H; now left.
Qed.

(** A broadcast write of one value to distinct or repeated indices. *)
Lemma nth_put_at_repeat {A : Type} (idx : list nat) (k : nat) (v d : A) :
  forall (a : list A),
    In k idx -> (k < length a)%nat ->
    nth k (put_at a idx (repeat v (length idx))) d = v.
Proof.
  induction idx as [|i idx IH]; intros a Hin Hk; simpl in *; [tauto|].
  destruct (in_dec Nat.eq_dec k idx) as [Hi|Hn].
  - apply IH; [exact Hi | now rewrite length_upd].
  - rewrite nth_put_at_other by exact Hn.
    destruct Hin as [->|Hi]; [|contradiction].
    now apply nth_upd_same.
Qed.

(* ------------------------------------------------------------------ *)
(** *** Finite sums of rationals *)

Lemma Qsum_app (l1 l2 : vec) : Qsum (l1 ++ l2) == Qsum l1 + Qsum l2.
Proof.
  induction l1 as [|x l1 IH]; simpl; [ring|]. rewrite IH. ring.
Qed.

Lemma Qsum_map_ext {A : Type} (f g : A -> Q) (l : list A) :
  (forall a, In a l -> f a == g a) -> Qsum (map f l) == Qsum (map g l).
Proof.
  induction l as [|a l IH]; simpl; intros H; [reflexivity|].
  rewrite (H a) by now left. rewrite IH; [reflexivity|].
  intros b Hb. apply H. now right.
Qed.

Lemma Qsum_map_plus {A : Type} (f g : A -> Q) (l : list A) :
  Qsum (map (fun a => f a + g a) l) == Qsum (map f l) + Qsum (map g l).
Proof.
  induction l as [|a l IH]; simpl; [ring|]. rewrite IH. ring.
Qed.

Lemma Qsum_map_zero {A : Type} (l : list A) :
  Qsum (map (fun _ => 0) l) == 0.
Proof. induction l as [|a l IH]; simpl; [reflexivity|]. rewrite IH. ring. Qed.

Lemma Qsum_map_opp {A : Type} (f : A -> Q) (l : list A) :
  Qsum (map (fun a => - f a) l) == - Qsum (map f l).
Proof. induction l as [|a l IH]; simpl; [ring|]. rewrite IH. ring. Qed.

(** A sum with one non-zero term. *)
Lemma Qsum_map_delta (c : nat) (d : nat -> Q) (l : list nat) :
  NoDup l ->
  Qsum (map (fun j => if (c =? j)%nat then d j else 0) l) ==
  if isin c l then d c else 0.
Proof.
  induction 1 as [|a l Hn Hd IH]; simpl; [reflexivity|].
  rewrite IH. destruct (Nat.eqb_spec c a) as [->|Hne]; simpl.
  - apply isin_false in Hn. rewrite Hn. ring.
  - ring.
Qed.

Lemma isin_seq (c n : nat) : isin c (seq 0 n) = (c <? n)%nat.
Proof.
  destruct (Nat.ltb_spec c n) as [H|H].
  - apply isin_true, in_seq. lia.
  - apply isin_false. rewrite in_seq. lia.
Qed.

(* ------------------------------------------------------------------ *)
(** *** Facts about COO matrices *)

Lemma entries_get_app (l1 l2 : list entry) (i j : nat) :
  entries_get (l1 ++ l2) i j == entries_get l1 i j + entries_get l2 i j.
Proof.
  induction l1 as [|e l1 IH]; simpl; [ring|]. rewrite IH. ring.
Qed.

Lemma entries_get_diag_tab (n : nat) (f : nat -> Q) (i j : nat) :
  entries_get (tabulate n (fun k => (k, k, f k))) i j ==
  if (i =? j)%nat && (i <? n)%nat then f i else 0.
Proof.
  unfold tabulate.
  assert (G : forall l, entries_get (map (fun k => (k, k, f k)) l) i j ==
     Qsum (map (fun k => if (i =? k)%nat then (if (i =? j)%nat then f k else 0) else 0) l)).
  { induction l as [|a l IH]; simpl; [reflexivity|]. rewrite IH.
    unfold erow, ecol, edata; simpl.
    destruct (Nat.eqb_spec a i) as [->|Hai].
    - rewrite Nat.eqb_refl. simpl. reflexivity.
    - destruct (Nat.eqb_spec i a); [congruence|]. simpl. reflexivity. }
  rewrite G, Qsum_map_delta by apply seq_NoDup.
  rewrite isin_seq. destruct (i =? j)%nat, (i <? n)%nat; reflexivity.
Qed.

Lemma entries_get_eliminate_zeros (l : list entry) (i j : nat) :
  entries_get (filter (fun e => negb (Qeq_bool (edata e) 0)) l) i j ==
  entries_get l i j.
Proof.
  induction l as [|e l IH]; simpl; [reflexivity|].
  destruct (Qeq_bool (edata e) 0) eqn:E; simpl.
  - apply Qeq_bool_iff in E. rewrite IH.
    destruct ((erow e =? i)%nat && (ecol e =? j)%nat); [rewrite E|]; ring.
  - rewrite IH. reflexivity.
Qed.

Lemma get_eliminate_zeros (A : coo) (i j : nat) :
  get (eliminate_zeros A) i j == get A i j.
Proof. apply entries_get_eliminate_zeros. Qed.

(** Reading a matrix after [setdiag]. *)
Lemma get_setdiag (A : coo) (v : vec) (i j : nat) :
  length v = shape A -> coo_wf A ->
  get (setdiag A v) i j ==
  if (i =? j)%nat then (if (i <? shape A)%nat then nth i v 0 else 0)
  else get A i j.
Proof.
  intros Hl Hwf. unfold get, setdiag; simpl.
  rewrite Hl, Nat.min_id, entries_get_app, entries_get_diag_tab.
  assert (G : entries_get
      (filter (fun e => negb (erow e =? ecol e)%nat || (shape A <=? erow e)%nat)
              (entries A)) i j ==
      if (i =? j)%nat then 0 else entries_get (entries A) i j).
  { unfold coo_wf in Hwf. induction Hwf as [|e l [Hr Hc] Hf IH]; simpl.
    - destruct (i =? j)%nat; reflexivity.
    - destruct (Nat.leb_spec (shape A) (erow e)); [lia|].
      rewrite orb_false_r.
      destruct (Nat.eqb_spec (erow e) (ecol e)) as [Hd|Hd]; simpl; rewrite IH.
      + destruct (Nat.eqb_spec i j) as [->|Hij]; [reflexivity|].
        destruct (Nat.eqb_spec (erow e) i), (Nat.eqb_spec (ecol e) j);
          simpl; try ring. congruence.
      + destruct (Nat.eqb_spec i j) as [->|Hij]; [|reflexivity].
        destruct (Nat.eqb_spec (erow e) j), (Nat.eqb_spec (ecol e) j);
          simpl; try ring. congruence. }
  rewrite G. destruct (i =? j)%nat; simpl; [|ring].
  destruct (i <? shape A)%nat; ring.
Qed.

Lemma coo_wf_setdiag (A : coo) (v : vec) : coo_wf A -> coo_wf (setdiag A v).
Proof.
  unfold coo_wf, setdiag; simpl. intros H. apply Forall_app. split.
  - apply Forall_forall. intros e He. apply filter_In in He.
    rewrite Forall_forall in H. now apply H.
  - apply Forall_forall. intros e He. unfold tabulate in He.
    apply in_map_iff in He. destruct He as [k [<- Hk]]. apply in_seq in Hk.
    unfold erow, ecol; simpl. lia.
Qed.

Lemma coo_wf_eliminate_zeros (A : coo) :
  coo_wf A -> coo_wf (eliminate_zeros A).
Proof.
  unfold coo_wf, eliminate_zeros; simpl. intros H.
  apply Forall_forall. intros e He. apply filter_In in He.
  rewrite Forall_forall in H. now apply H.
Qed.

Lemma coo_wf_map_data (A : coo) (f : entry -> Q) :
  coo_wf A ->
  coo_wf (mkcoo (shape A) (map (fun e => (erow e, ecol e, f e)) (entries A))).
Proof.
  unfold coo_wf; simpl. intros H. apply Forall_map.
  eapply Forall_impl; [|exact H]. intros e He. exact He.
Qed.

(** The product row computed over the triples is the textbook sum. *)
Lemma row_dot_sum (l : list entry) (n k : nat) (x : vec) :
  Forall (fun e => (ecol e < n)%nat) l ->
  row_dot l k x == Qsum (tabulate n (fun j => entries_get l k j * nth j x 0)).
Proof.
  unfold tabulate. induction 1 as [|e l Hc Hf IH]; simpl.
  - rewrite (Qsum_map_ext _ (fun _ => 0)); [now rewrite Qsum_map_zero|].
    intros; ring.
  - rewrite IH.
    rewrite (Qsum_map_ext
      (fun j => ((if (erow e =? k)%nat && (ecol e =? j)%nat then edata e else 0)
                 + entries_get l k j) * nth j x 0)
      (fun j => (if (ecol e =? j)%nat
                 then (if (erow e =? k)%nat then edata e * nth j x 0 else 0)
                 else 0)
                + entries_get l k j * nth j x 0)).
    + rewrite Qsum_map_plus, Qsum_map_delta by apply seq_NoDup.
      rewrite isin_seq. destruct (Nat.ltb_spec (ecol e) n); [|lia].
      reflexivity.
    + intros j _. destruct (erow e =? k)%nat, (ecol e =? j)%nat; simpl; ring.
Qed.

(* ------------------------------------------------------------------ *)
(** *** The Laplacian of a symmetric adjacency matrix *)


Lemma entries_get_scale (q : Q) (l : list entry) (i j : nat) :
  entries_get (map (fun e => (erow e, ecol e, edata e * q)) l) i j ==
  entries_get l i j * q.
Proof.
  induction l as [|e l IH]; simpl; [ring|]. rewrite IH.
  unfold erow, ecol, edata; simpl.
  destruct ((fst (fst e) =? i)%nat && (snd (fst e) =? j)%nat); ring.
Qed.


Lemma row_sum_app (l1 l2 : list entry) (i : nat) :
  row_sum (l1 ++ l2) i == row_sum l1 i + row_sum l2 i.
Proof. induction l1 as [|e l1 IH]; simpl; [ring|]. rewrite IH. ring. Qed.

Lemma col_sum_app (l1 l2 : list entry) (i : nat) :
  col_sum (l1 ++ l2) i == col_sum l1 i + col_sum l2 i.
Proof. induction l1 as [|e l1 IH]; simpl; [ring|]. rewrite IH. ring. Qed.

Lemma col_sum_transpose (l : list entry) (i : nat) :
  col_sum (transpose_entries l) i == row_sum l i.
Proof. induction l as [|e l IH]; simpl; [reflexivity|]. now rewrite IH. Qed.

Lemma row_sum_transpose (l : list entry) (i : nat) :
  row_sum (transpose_entries l) i == col_sum l i.
Proof. induction l as [|e l IH]; simpl; [reflexivity|]. now rewrite IH. Qed.


Lemma net_wfb_true (net : network) : net_wf net -> net_wfb net = true.
Proof.
  unfold net_wf, net_wfb. intros H. apply forallb_forall. intros c Hc.
  rewrite Forall_forall in H. destruct (H c Hc) as [H1 H2].
  apply andb_true_iff. split; now apply Nat.ltb_lt.
Qed.

(** The triples of the symmetric adjacency matrix. *)
Lemma adjacency_entries (net : network) (g : vec) :
  net_wf net -> length g = Nt net ->
  create_adjacency_matrix net g =
  Ok (mkcoo (Np net)
        (map (fun e => (fst (fst e), snd (fst e), snd e)) (combine (conns net) g)
         ++ transpose_entries
              (map (fun e => (fst (fst e), snd (fst e), snd e))
                   (combine (conns net) g)))).
Proof.
  intros Hwf Hl. unfold create_adjacency_matrix.
  rewrite Hl, Nat.eqb_refl, (net_wfb_true _ Hwf). simpl.
  unfold transpose_entries. now rewrite map_map.
Qed.

Lemma adjacency_wf (n : nat) (cs : list (nat * nat)) (g : vec) :
  Forall (fun c => (fst c < n)%nat /\ (snd c < n)%nat) cs ->
  let l := map (fun e : nat * nat * Q => (fst (fst e), snd (fst e), snd e))
               (combine cs g) in
  coo_wf (mkcoo n (l ++ transpose_entries l)).
Proof.
  intros H l. unfold coo_wf; simpl.
  assert (Hl : Forall (fun e => (erow e < n)%nat /\ (ecol e < n)%nat) l).
  { subst l. apply Forall_map. apply Forall_forall. intros [c w] Hc.
    apply in_combine_l in Hc. rewrite Forall_forall in H.
    unfold erow, ecol; simpl. now apply H. }
  apply Forall_app. split; [exact Hl|].
  unfold transpose_entries. apply Forall_map.
  eapply Forall_impl; [|exact Hl]. intros e [H1 H2].
  unfold erow, ecol; simpl. split; assumption.
Qed.


Lemma sym_col_row_sum (l : list entry) (i : nat) :
  col_sum (l ++ transpose_entries l) i == row_sum (l ++ transpose_entries l) i.
Proof.
  rewrite col_sum_app, row_sum_app, col_sum_transpose, row_sum_transpose. ring.
Qed.


(** Reading the Laplacian of a well-formed matrix. *)
Lemma get_laplacian (am : coo) (i j : nat) :
  coo_wf am ->
  get (laplacian am) i j ==
  if (i =? j)%nat
  then (if (i <? shape am)%nat
        then col_sum (entries am) i - get am i i else 0)
  else - get am i j.
Proof.
  intros Hwf. unfold laplacian.
  rewrite get_setdiag.
  - simpl. destruct (i =? j)%nat.
    + destruct (Nat.ltb_spec i (shape am)) as [Hi|Hi]; [|reflexivity].
      rewrite nth_tabulate by exact Hi. unfold sum_axis0, diagonal.
      rewrite !nth_tabulate by exact Hi. reflexivity.
    + unfold get, scale_data; simpl. rewrite entries_get_scale. ring.
  - simpl. apply length_tabulate.
  - apply (coo_wf_map_data am (fun e => edata e * -1)). exact Hwf.
Qed.

Lemma shape_laplacian (am : coo) : shape (laplacian am) = shape am.
Proof. reflexivity. Qed.

Lemma coo_wf_laplacian (am : coo) : coo_wf am -> coo_wf (laplacian am).
Proof.
  intros H. unfold laplacian. apply coo_wf_setdiag.
  apply (coo_wf_map_data am (fun e => edata e * -1)). exact H.
Qed.

Lemma coo_wf_cols (A : coo) :
  coo_wf A -> Forall (fun e => (ecol e < shape A)%nat) (entries A).
Proof.
  unfold coo_wf. intros H. eapply Forall_impl; [|exact H]. now intros e [_ H2].
Qed.


(* ================================================================== *)
(** ** The matrix builder *)

Import GenericTransport.





(* ================================================================== *)
(** ** Boundary-condition elimination *)

Import Elimination.

Ltac mstep :=
  cbv beta iota zeta delta
    [bind gets modify lookup lift ret raise guard deref _get_b _get_A
     set_A set_pure_A set_b set_pure_b set_bc_rate set_bc_value set_quantity
     set_bc get_bc
     the_network phase_conductance the_settings _A _pure_A _b _pure_b
     bc_rate bc_value quantity].

Ltac mrun :=
  repeat (progress (mstep; cbn [negb orb andb Nat.ltb Nat.leb Nat.eqb])).

Ltac mrun_settings :=
  repeat (progress (mstep;
    cbv beta iota zeta delta
      [solver_family solver_type solver_preconditioner solver_tol solver_atol
       solver_rtol solver_maxiter cache_A cache_b];
    cbn [negb orb andb Nat.ltb Nat.leb Nat.eqb])).

(** [_apply_BCs] on a working system of consistent sizes never raises and
    is the composition of the three steps. *)
Lemma apply_BCs_eval (E : env) (s : alg) (A0 : coo) (b0 : vec) (bv : farray) :
  _A s = Some A0 -> _b s = Some b0 -> bc_value s = Some bv ->
  length b0 = shape A0 -> length bv = shape A0 ->
  opt_all (fun br => length br = shape A0) (bc_rate s) ->
  _apply_BCs E s =
  (Ok tt, set_A (Some (value_step_A A0 bv))
            (set_b (Some (value_step_b A0 (rate_step b0 (bc_rate s)) bv)) s)).
Proof.
  intros HA Hb Hv Hlb Hlv Hr.
  destruct s as [net g st A pA b pb br bv' q]. simpl in *. subst.
  unfold _apply_BCs.
  destruct br as [br|]; simpl in Hr.
  - mstep.
    rewrite length_isfinite, Hr, Hlb, Nat.eqb_refl.
    mstep.
    rewrite length_isfinite, length_put_masked, Hlv, Hlb, Nat.eqb_refl.
    mstep.
    rewrite !length_put_masked. unfold zeros at 1.
    rewrite repeat_length, Hlb, Nat.eqb_refl.
    mstep. unfold value_step_A, value_step_b, rate_step, x_BC_of.
    rewrite ?length_put_masked, Hlb. reflexivity.
  - mstep.
    rewrite length_isfinite, Hlv, Hlb, Nat.eqb_refl.
    mstep.
    rewrite !length_put_masked. unfold zeros at 1.
    rewrite repeat_length, Hlb, Nat.eqb_refl.
    mstep. unfold value_step_A, value_step_b, rate_step, x_BC_of.
    rewrite ?length_put_masked, Hlb. reflexivity.
Qed.

Lemma entries_get_zero_rows (P : list nat) (l : list entry) (i j : nat) :
  entries_get
    (map (fun e => if isin (erow e) P then (erow e, ecol e, 0) else e) l) i j
  == if isin i P then 0 else entries_get l i j.
Proof.
  induction l as [|e l IH]; simpl.
  - destruct (isin i P); reflexivity.
  - rewrite IH. destruct (isin (erow e) P) eqn:He;
      unfold erow, ecol, edata in *; simpl.
    + destruct (Nat.eqb_spec (fst (fst e)) i) as [Hi|Hi]; simpl.
      * rewrite <- Hi, He. destruct (snd (fst e) =? j)%nat; ring.
      * destruct (isin i P); ring.
    + destruct (Nat.eqb_spec (fst (fst e)) i) as [Hi|Hi]; simpl.
      * rewrite <- Hi, He. ring.
      * destruct (isin i P); ring.
Qed.

Lemma entries_get_zero_cols (P : list nat) (l : list entry) (i j : nat) :
  entries_get
    (map (fun e => if isin (ecol e) P then (erow e, ecol e, 0) else e) l) i j
  == if isin j P then 0 else entries_get l i j.
Proof.
  induction l as [|e l IH]; simpl.
  - destruct (isin j P); reflexivity.
  - rewrite IH. destruct (isin (ecol e) P) eqn:He;
      unfold erow, ecol, edata in *; simpl.
    + destruct (Nat.eqb_spec (snd (fst e)) j) as [Hj|Hj]; simpl.
      * rewrite <- Hj, He. destruct (fst (fst e) =? i)%nat; simpl; ring.
      * rewrite andb_false_r. destruct (isin j P); ring.
    + destruct (Nat.eqb_spec (snd (fst e)) j) as [Hj|Hj]; simpl.
      * rewrite <- Hj, He. ring.
      * rewrite andb_false_r. destruct (isin j P); ring.
Qed.

Lemma get_zero_rows_cols (P : list nat) (A : coo) (i j : nat) :
  get (zero_cols P (zero_rows P A)) i j ==
  if isin i P || isin j P then 0 else get A i j.
Proof.
  unfold get, zero_cols, zero_rows; simpl.
  rewrite entries_get_zero_cols.
  destruct (isin j P); [now rewrite orb_true_r|].
  rewrite entries_get_zero_rows. destruct (isin i P); reflexivity.
Qed.

Lemma coo_wf_zero (P : list nat) (A : coo) :
  coo_wf A -> coo_wf (zero_cols P (zero_rows P A)).
Proof.
  unfold coo_wf, zero_cols, zero_rows; simpl. intros H.
  rewrite map_map. apply Forall_map. eapply Forall_impl; [|exact H].
  intros e He. destruct (isin (erow e) P); simpl;
    destruct (isin _ P); exact He.
Qed.

Lemma nth_map_in {A B : Type} (f : A -> B) (l : list A) (k : nat) (d : A) (d' : B) :
  (k < length l)%nat -> nth k (map f l) d' = f (nth k l d).
Proof.
  intros H. rewrite (nth_indep _ d' (f d)) by now rewrite length_map.
  apply map_nth.
Qed.

Lemma nth_some_lt {A : Type} (l : list (option A)) (k : nat) (v : A) :
  nth k l None = Some v -> (k < length l)%nat.
Proof.
  intros H. destruct (Nat.lt_ge_cases k (length l)) as [Hl|Hl]; [exact Hl|].
  rewrite nth_overflow in H by exact Hl. discriminate.
Qed.

(** The matrix that the value step leaves. *)
Lemma get_value_step_A (A : coo) (bv : farray) (i j : nat) :
  coo_wf A -> length bv = shape A ->
  get (value_step_A A bv) i j ==
  if (i =? j)%nat
  then (if (i <? shape A)%nat
        then match nth i bv None with
             | Some _ => mean (diagonal A)
             | None => get A i i
             end
        else 0)
  else match nth i bv None, nth j bv None with
       | None, None => get A i j
       | _, _ => 0
       end.
Proof.
  intros Hwf Hl. unfold value_step_A.
  set (P := toindices (isfinite bv)).
  set (A1 := zero_cols P (zero_rows P A)).
  assert (HP : forall k, isin k P =
             match nth k bv None with Some _ => true | None => false end).
  { intros k. rewrite <- nth_isfinite. unfold P.
    destruct (nth k (isfinite bv) false) eqn:Hk.
    - apply isin_true, in_toindices. exact Hk.
    - apply isin_false. rewrite in_toindices. congruence. }
  rewrite get_eliminate_zeros, get_setdiag.
  - change (shape A1) with (shape A).
    destruct (Nat.eqb_spec i j) as [<-|Hij].
    + destruct (Nat.ltb_spec i (shape A)) as [Hi|Hi]; [|reflexivity].
      destruct (nth i bv None) as [v|] eqn:Hv.
      * rewrite nth_put_at_repeat; [reflexivity| |].
        -- apply isin_true. rewrite HP, Hv. reflexivity.
        -- unfold diagonal. now rewrite length_tabulate.
      * rewrite nth_put_at_other.
        -- unfold diagonal. rewrite nth_tabulate by exact Hi.
           unfold A1. rewrite get_zero_rows_cols, HP, Hv. reflexivity.
        -- apply isin_false. rewrite HP, Hv. reflexivity.
    + unfold A1. rewrite get_zero_rows_cols, !HP.
      destruct (nth i bv None), (nth j bv None); reflexivity.
  - rewrite length_put_at. unfold diagonal. now rewrite length_tabulate.
  - apply coo_wf_zero. exact Hwf.
Qed.

Lemma nth_invert (m : list bool) (k : nat) :
  (k < length m)%nat -> nth k (invert m) false = negb (nth k m false).
Proof. intros H. unfold invert. now apply nth_map_in. Qed.

(** The right-hand side that the value step leaves, at a node that holds
    a value and at a node that holds none. *)
Lemma nth_value_step_b_bc (A : coo) (b : vec) (bv : farray) (i : nat) (v : Q) :
  length b = shape A -> length bv = shape A ->
  nth i bv None = Some v ->
  nth i (value_step_b A b bv) 0 = v * mean (diagonal A).
Proof.
  intros Hlb Hlv Hv. pose proof (nth_some_lt _ _ _ Hv) as Hi.
  unfold value_step_b, sub_masked.
  rewrite length_put_masked, nth_tabulate by lia.
  rewrite nth_invert by (rewrite length_isfinite; lia).
  rewrite nth_isfinite, Hv. simpl.
  unfold put_masked. rewrite nth_tabulate by lia.
  rewrite nth_isfinite, Hv.
  rewrite (nth_map_in _ _ _ None) by exact Hi. now rewrite Hv.
Qed.

Lemma nth_x_BC (n : nat) (bv : farray) (j : nat) :
  length bv = n -> nth j (x_BC_of n bv) 0 = fval (nth j bv None).
Proof.
  intros Hl. unfold x_BC_of, put_masked, zeros. rewrite repeat_length.
  destruct (Nat.lt_ge_cases j n) as [Hj|Hj].
  - rewrite nth_tabulate by exact Hj. rewrite nth_isfinite.
    destruct (nth j bv None) as [q|] eqn:Hq.
    + rewrite (nth_map_in _ _ _ None) by lia. now rewrite Hq.
    + simpl. apply nth_repeat.
  - rewrite nth_overflow by (rewrite length_tabulate; exact Hj).
    rewrite nth_overflow by lia. reflexivity.
Qed.

Lemma nth_value_step_b_free (A : coo) (b : vec) (bv : farray) (k : nat) :
  coo_wf A -> length b = shape A -> length bv = shape A ->
  (k < shape A)%nat -> nth k bv None = None ->
  nth k (value_step_b A b bv) 0 ==
  nth k b 0
  - Qsum (tabulate (shape A) (fun j => get A k j * fval (nth j bv None))).
Proof.
  intros Hwf Hlb Hlv Hk Hv.
  unfold value_step_b, sub_masked.
  rewrite length_put_masked, nth_tabulate by lia.
  rewrite nth_invert by (rewrite length_isfinite; lia).
  rewrite nth_isfinite, Hv. simpl.
  unfold put_masked at 1. rewrite nth_tabulate by lia.
  rewrite nth_isfinite, Hv.
  unfold matvec. rewrite nth_tabulate by exact Hk.
  rewrite (row_dot_sum _ (shape A)) by now apply coo_wf_cols.
  apply Qplus_comp; [reflexivity|]. apply Qopp_comp.
  unfold tabulate. apply Qsum_map_ext. intros j _.
  rewrite nth_x_BC by lia. reflexivity.
Qed.

Lemma nth_rate_step (b : vec) (r : option farray) (k : nat) :
  opt_all (fun br => length br = length b) r -> (k < length b)%nat ->
  nth k (rate_step b r) 0 =
  match match r with Some br => nth k br None | None => None end with
  | Some q => q
  | None => nth k b 0
  end.
Proof.
  intros Hr Hk. destruct r as [br|]; simpl in *; [|reflexivity].
  unfold put_masked. rewrite nth_tabulate by exact Hk.
  rewrite nth_isfinite. destruct (nth k br None) as [q|] eqn:Hq.
  - rewrite (nth_map_in _ _ _ None) by lia. now rewrite Hq.
  - reflexivity.
Qed.

(** C1.  [_apply_BCs] on a working system [(A0, b0)] with value conditions
    [bv]: the scale factor [f] is the mean of the diagonal of [A0] as it is
    on entry; afterwards, at every node [i] that holds a value [v], the
    diagonal entry of the matrix is [f], every other entry of row [i] and of
    column [i] is zero and [b[i]] is [v * f]; at every node [k] that holds
    no value, [b[k]] is what the rate step left there (the rate when one is
    set, the entry of [b0] otherwise) minus the sum over [j] of
    [A0[k,j] * x_BC[j]], where [x_BC[j]] is the value held at [j] and zero
    where none is held. *)
Theorem apply_BCs_value_elimination
    (E : env) (s : alg) (A0 : coo) (b0 : vec) (bv : farray) :
  _A s = Some A0 -> _b s = Some b0 -> bc_value s = Some bv ->
  coo_wf A0 -> length b0 = shape A0 -> length bv = shape A0 ->
  opt_all (fun br => length br = shape A0) (bc_rate s) ->
  let f := mean (diagonal A0) in
  let x_BC := fun j => fval (nth j bv None) in
  let rate_at := fun k => match bc_rate s with
                          | Some br => nth k br None
                          | None => None
                          end in
  exists (A' : coo) (b' : vec),
    _apply_BCs E s = (Ok tt, set_A (Some A') (set_b (Some b') s)) /\
    (forall i v, nth i bv None = Some v ->
       get A' i i == f /\
       (forall j, j <> i -> get A' i j == 0 /\ get A' j i == 0) /\
       nth i b' 0 = v * f) /\
    (forall k, (k < shape A0)%nat -> nth k bv None = None ->
       nth k b' 0 ==
       match rate_at k with Some r => r | None => nth k b0 0 end
       - Qsum (tabulate (shape A0) (fun j => get A0 k j * x_BC j))).
Proof.
  intros HA Hb Hv Hwf Hlb Hlv Hr f x_BC rate_at.
  exists (value_step_A A0 bv), (value_step_b A0 (rate_step b0 (bc_rate s)) bv).
  assert (Hlr : length (rate_step b0 (bc_rate s)) = shape A0).
  { unfold rate_step. destruct (bc_rate s); [|exact Hlb].
    now rewrite length_put_masked. }
  split; [|split].
  - now apply apply_BCs_eval.
  - intros i v Hi. pose proof (nth_some_lt _ _ _ Hi) as Hlt.
    split; [|split].
    + rewrite get_value_step_A, Nat.eqb_refl by assumption.
      destruct (Nat.ltb_spec i (shape A0)); [|lia]. rewrite Hi. reflexivity.
    + intros j Hj. rewrite !get_value_step_A by assumption.
      rewrite (Nat.eqb_sym j i).
      destruct (Nat.eqb_spec i j); [congruence|]. rewrite Hi.
      split; [reflexivity|]. destruct (nth j bv None); reflexivity.
    + now apply nth_value_step_b_bc.
  - intros k Hk Hn.
    rewrite nth_value_step_b_free by assumption.
    rewrite nth_rate_step.
    + reflexivity.
    + destruct (bc_rate s); simpl in *; [lia|exact I].
    + lia.
Qed.

Lemma apply_BCs_value_elimination_witness :
  exists (A' : coo) (b' : vec),
    _apply_BCs Exact.exact_env Exact.chain5_bcs =
      (Ok tt, set_A (Some A') (set_b (Some b') Exact.chain5_bcs)) /\
    (forall i v, nth i [Some 1; None; None; None; Some 0] None = Some v ->
       get A' i i == mean (diagonal Exact.chain5_L) /\
       (forall j, j <> i -> get A' i j == 0 /\ get A' j i == 0) /\
       nth i b' 0 = v * mean (diagonal Exact.chain5_L)) /\
    (forall k, (k < 5)%nat ->
       nth k [Some 1; None; None; None; Some 0] None = None ->
       nth k b' 0 ==
       match nth k (repeat None 5) None with
       | Some r => r
       | None => nth k (zeros 5) 0
       end
       - Qsum (tabulate 5
                 (fun j => get Exact.chain5_L k j
                           * fval (nth j [Some 1; None; None; None; Some 0] None)))).
Proof.
  apply (apply_BCs_value_elimination Exact.exact_env Exact.chain5_bcs
           Exact.chain5_L (zeros 5) [Some 1; None; None; None; Some 0]).
  - reflexivity.
  - reflexivity.
  - reflexivity.
  - unfold coo_wf; simpl. repeat constructor.
  - reflexivity.
  - reflexivity.
  - simpl. reflexivity.
Defined.

(* ================================================================== *)
(** ** The boundary-condition store *)

Lemma nth_put_at_map {A : Type} (g : nat -> A) (idx : list nat) (k : nat) (d : A) :
  forall a : list A, (k < length a)%nat ->
  nth k (put_at a idx (map g idx)) d = if isin k idx then g k else nth k a d.
Proof.
  induction idx as [|i idx IH]; intros a Hk; simpl; [reflexivity|].
  rewrite IH by now rewrite length_upd.
  destruct (isin k idx) eqn:Hin.
  - now rewrite orb_true_r.
  - rewrite orb_false_r. destruct (Nat.eqb_spec k i) as [->|Hne].
    + now apply nth_upd_same.
    + now apply nth_upd_other.
Qed.

Lemma zip_with_map_repeat {A B C : Type} (f : A -> B -> C) (h : nat -> A)
    (idx : list nat) (v : B) :
  zip_with f (map h idx) (repeat v (length idx)) = map (fun i => f (h i) v) idx.
Proof. induction idx as [|a l IH]; simpl; [reflexivity|]. now rewrite IH. Qed.

Lemma map_repeat_idx {A : Type} (v : A) (idx : list nat) :
  repeat v (length idx) = map (fun _ => v) idx.
Proof. induction idx as [|a l IH]; simpl; [reflexivity|]. now rewrite IH. Qed.

Lemma in_bounds_true (idx : list nat) (n : nat) :
  in_bounds idx n = true <-> forall i, In i idx -> (i < n)%nat.
Proof.
  unfold in_bounds. rewrite forallb_forall. split; intros H i Hi.
  - apply Nat.ltb_lt. now apply H.
  - apply Nat.ltb_lt. now apply H.
Qed.

Lemma set_rate_BC_merge_eval (s : alg) (br bv : farray) (pores : list nat) (v : Q) :
  bc_rate s = Some br -> bc_value s = Some bv ->
  length br = Np (the_network s) -> length bv = Np (the_network s) ->
  in_bounds pores (Np (the_network s)) = true ->
  set_rate_BC pores (scalar v) merge s =
  (Ok tt, set_bc_rate (Some (merged_rate br pores v)) s).
Proof.
  intros Hr Hv Hlr Hlv Hb.
  destruct s as [net g st A pA b pb br' bv' q]. simpl in *. subst.
  assert (HI : in_bounds (intersect1d (toindices (isfinite br)) pores) (length br) = true).
  { apply in_bounds_true. intros i Hi. apply in_intersect1d in Hi.
    destruct Hi as [Hi _]. apply in_toindices in Hi.
    rewrite nth_isfinite in Hi. destruct (nth i br None) eqn:E; [|discriminate].
    now apply nth_some_lt in E. }
  assert (HD : forall a : farray, length a = length br ->
     in_bounds (setdiff1d pores (intersect1d (toindices (isfinite br)) pores)) (length a) = true).
  { intros a Ha. apply in_bounds_true. intros i Hi. apply in_setdiff1d in Hi.
    destruct Hi as [Hi _]. rewrite Ha, Hlr.
    rewrite in_bounds_true in Hb. now apply Hb. }
  unfold set_rate_BC, _set_BC, size. mrun.
  rewrite !length_isfinite, Hlv, Hlr, !Nat.eqb_refl. mrun.
  unfold add_at, assign_at, broadcast_to.
  rewrite HI. mrun. rewrite HD by now rewrite length_put_at. mrun.
  unfold merged_rate. rewrite zip_with_map_repeat, map_repeat_idx, map_map.
  reflexivity.
Qed.

Lemma isin_intersect_rate (br : farray) (pores : list nat) (k : nat) :
  isin k (intersect1d (toindices (isfinite br)) pores) =
  match nth k br None with Some _ => isin k pores | None => false end.
Proof.
  destruct (nth k br None) as [c|] eqn:Hk.
  - destruct (isin k pores) eqn:Hp.
    + apply isin_true, in_intersect1d. split.
      * apply in_toindices. now rewrite nth_isfinite, Hk.
      * now apply isin_true.
    + apply isin_false. rewrite in_intersect1d. intros [_ H].
      apply isin_true in H. congruence.
  - apply isin_false. rewrite in_intersect1d, in_toindices, nth_isfinite, Hk.
    intros [H _]. discriminate.
Qed.

Lemma isin_setdiff (a b : list nat) (k : nat) :
  isin k (setdiff1d a b) = isin k a && negb (isin k b).
Proof.
  destruct (isin k a) eqn:Ha, (isin k b) eqn:Hb; simpl.
  - apply isin_false. rewrite in_setdiff1d. intros [_ H]. apply H.
    now apply isin_true.
  - apply isin_true, in_setdiff1d. split; [now apply isin_true|].
    now apply isin_false.
  - apply isin_false. rewrite in_setdiff1d. intros [H _].
    apply isin_true in H. congruence.
  - apply isin_false. rewrite in_setdiff1d. intros [H _].
    apply isin_true in H. congruence.
Qed.

Lemma nth_merged_rate (br : farray) (pores : list nat) (v : Q) (k : nat) :
  (k < length br)%nat ->
  nth k (merged_rate br pores v) None =
  if isin k pores
  then match nth k br None with Some c => Some (c + v) | None => Some v end
  else nth k br None.
Proof.
  intros Hk. unfold merged_rate.
  rewrite nth_put_at_map by now rewrite length_put_at.
  rewrite nth_put_at_map by exact Hk.
  rewrite isin_setdiff, isin_intersect_rate.
  destruct (isin k pores), (nth k br None); reflexivity.
Qed.

Lemma length_merged_rate (br : farray) (pores : list nat) (v : Q) :
  length (merged_rate br pores v) = length br.
Proof. unfold merged_rate. now rewrite !length_put_at. Qed.

Lemma set_rate_BC_merge_frame (s s' : alg) (r : res unit) (br : farray)
    (pores : list nat) (values : bcvalues) (q : nat) :
  set_rate_BC pores values merge s = (r, s') ->
  bc_rate s = Some br -> ~ In q pores ->
  exists br', bc_rate s' = Some br' /\ nth q br' None = nth q br None.
Proof.
  intros H Hr Hq.
  destruct s as [net g st A pA b pb br0 bv q0]. simpl in Hr. subst br0.
  unfold set_rate_BC, _set_BC in H. revert H.
  mstep. 
  destruct (negb ((1 <? size values)%nat && negb (size values =? length pores)%nat));
    mrun; [|intros H; inversion H; subst; simpl; eauto].
  destruct bv as [bv|]; mrun; [|intros H; inversion H; subst; simpl; eauto].
  destruct (length (isfinite br) =? length (isfinite bv))%nat;
    mrun; [|intros H; inversion H; subst; simpl; eauto].
  destruct (length (isfinite br) =? Np net)%nat;
    mrun; [|intros H; inversion H; subst; simpl; eauto].
  unfold add_at.
  destruct (in_bounds (intersect1d (toindices (isfinite br)) pores) (length br));
    mrun; [|intros H; inversion H; subst; simpl; eauto].
  destruct (broadcast_to values (length (intersect1d (toindices (isfinite br)) pores))) as [vals|e];
    mrun; [|intros H; inversion H; subst; simpl; eauto].
  unfold assign_at.
  destruct (broadcast_to values _) as [vals2|e]; mrun.
  - destruct (in_bounds _ _); mrun; intros H; inversion H; subst; simpl;
      eexists; (split; [reflexivity|]).
    + rewrite !nth_put_at_other; [reflexivity| |].
      * rewrite in_intersect1d. tauto.
      * rewrite in_setdiff1d. tauto.
    + rewrite !nth_put_at_other; [reflexivity|].
      rewrite in_intersect1d. tauto.
  - intros H; inversion H; subst; simpl. eexists; (split; [reflexivity|]).
    rewrite !nth_put_at_other; [reflexivity|].
    rewrite in_intersect1d. tauto.
Qed.

Lemma in_bounds_single (p n : nat) : (p < n)%nat -> in_bounds [p] n = true.
Proof.
  intros H. unfold in_bounds; simpl. rewrite andb_true_r. now apply Nat.ltb_lt.
Qed.

(** What overwrite mode leaves in the rate array: the mask of the pores
    that hold a rate is taken before the array is cleared, so the requested
    pores that held a rate receive [nan + v], which is [nan]. *)
Lemma set_rate_BC_overwrite_eval (s : alg) (br bv : farray) (pores : list nat) (v : Q) :
  bc_rate s = Some br -> bc_value s = Some bv ->
  length br = Np (the_network s) -> length bv = Np (the_network s) ->
  in_bounds pores (Np (the_network s)) = true ->
  exists br',
    set_rate_BC pores (scalar v) overwrite s = (Ok tt, set_bc_rate (Some br') s) /\
    length br' = Np (the_network s) /\
    forall k, (k < Np (the_network s))%nat ->
      nth k br' None =
      if isin k pores
      then match nth k br None with Some _ => None | None => Some v end
      else None.
Proof.
  intros Hr Hv Hlr Hlv Hb.
  destruct s as [net g st A pA b pb br' bv' q]. simpl in *. subst.
  set (I := intersect1d (toindices (isfinite br)) pores).
  assert (HI : in_bounds I (length (repeat (@None Q) (Np net))) = true).
  { apply in_bounds_true. intros i Hi. apply in_intersect1d in Hi.
    destruct Hi as [Hi _]. apply in_toindices in Hi.
    rewrite nth_isfinite in Hi. destruct (nth i br None) eqn:E; [|discriminate].
    apply nth_some_lt in E. rewrite repeat_length. lia. }
  assert (HD : forall a : farray, length a = Np net ->
     in_bounds (setdiff1d pores I) (length a) = true).
  { intros a Ha. apply in_bounds_true. intros i Hi. apply in_setdiff1d in Hi.
    destruct Hi as [Hi _]. rewrite Ha.
    rewrite in_bounds_true in Hb. now apply Hb. }
  eexists. split; [|split].
  - unfold set_rate_BC, _set_BC, size, all_nan. mrun.
    rewrite !length_isfinite, Hlv, Hlr, !Nat.eqb_refl. mrun.
    unfold add_at, assign_at, broadcast_to. fold I.
    rewrite HI. mrun.
    rewrite HD by now rewrite length_put_at, repeat_length. mrun.
    rewrite zip_with_map_repeat, map_repeat_idx, map_map. reflexivity.
  - now rewrite !length_put_at, repeat_length.
  - intros k Hk.
    rewrite nth_put_at_map by now rewrite length_put_at, repeat_length.
    rewrite nth_put_at_map by now rewrite repeat_length.
    rewrite isin_setdiff. unfold I. rewrite isin_intersect_rate.
    rewrite !nth_repeat.
    destruct (isin k pores), (nth k br None); reflexivity.
Qed.

(** C4.  On a store whose two arrays have one entry per pore:
    - at a pore [p] that holds no rate, [set_rate_BC] with [r1] (in either
      mode) followed by [set_rate_BC] with [r2] in merge mode leaves
      [r1 + r2] at [p];
    - a merge-mode call leaves the rate of every pore outside the request as
      it was (whatever the values, and also when the call raises);
    - a merge-mode call with one value [v] writes [v] at the requested pores
      that hold no rate and adds [v] to the rate of those that hold one. *)
Theorem set_rate_BC_merge_accumulates (s : alg) (br bv : farray) :
  bc_rate s = Some br -> bc_value s = Some bv ->
  length br = Np (the_network s) -> length bv = Np (the_network s) ->
  (forall mode1 p r1 r2,
     (p < Np (the_network s))%nat -> nth p br None = None ->
     exists s2 br2,
       (set_rate_BC [p] (scalar r1) mode1 ;;
        set_rate_BC [p] (scalar r2) merge) s = (Ok tt, s2) /\
       bc_rate s2 = Some br2 /\ nth p br2 None = Some (r1 + r2)) /\
  (forall pores values q r s',
     set_rate_BC pores values merge s = (r, s') -> ~ In q pores ->
     exists br', bc_rate s' = Some br' /\ nth q br' None = nth q br None) /\
  (forall pores v,
     in_bounds pores (Np (the_network s)) = true ->
     exists br',
       set_rate_BC pores (scalar v) merge s = (Ok tt, set_bc_rate (Some br') s) /\
       forall p, In p pores ->
         nth p br' None =
         match nth p br None with Some c => Some (c + v) | None => Some v end).
Proof.
  intros Hr Hv Hlr Hlv. split; [|split].
  - intros mode1 p r1 r2 Hp Hfree.
    assert (H1 : exists br1,
      set_rate_BC [p] (scalar r1) mode1 s = (Ok tt, set_bc_rate (Some br1) s) /\
      length br1 = Np (the_network s) /\ nth p br1 None = Some r1).
    { destruct mode1.
      - exists (merged_rate br [p] r1). split; [|split].
        + apply (set_rate_BC_merge_eval s br bv); try assumption.
          now apply in_bounds_single.
        + now rewrite length_merged_rate.
        + rewrite nth_merged_rate by (rewrite Hlr; exact Hp).
          unfold isin; simpl. rewrite Nat.eqb_refl. simpl. now rewrite Hfree.
      - destruct (set_rate_BC_overwrite_eval s br bv [p] r1 Hr Hv Hlr Hlv
                    (in_bounds_single _ _ Hp)) as [br1 [He [Hl1 Hn]]].
        exists br1. split; [exact He|]. split; [exact Hl1|].
        rewrite (Hn p Hp). unfold isin; simpl. rewrite Nat.eqb_refl. simpl.
        now rewrite Hfree. }
    destruct H1 as [br1 [H1 [Hl1 Hn1]]].
    set (s1 := set_bc_rate (Some br1) s) in *.
    pose proof (set_rate_BC_merge_eval s1 br1 bv [p] r2 eq_refl Hv Hl1 Hlv
                  (in_bounds_single _ _ Hp)) as H2.
    exists (set_bc_rate (Some (merged_rate br1 [p] r2)) s1),
           (merged_rate br1 [p] r2).
    split; [|split].
    + unfold bind at 1. rewrite H1. exact H2.
    + reflexivity.
    + rewrite nth_merged_rate by (rewrite Hl1; exact Hp).
      unfold isin; simpl. rewrite Nat.eqb_refl. simpl. now rewrite Hn1.
  - intros pores values q r s' H Hq.
    now apply (set_rate_BC_merge_frame s s' r br pores values q).
  - intros pores v Hb. exists (merged_rate br pores v). split.
    + now apply (set_rate_BC_merge_eval s br bv).
    + intros p Hp. rewrite in_bounds_true in Hb.
      rewrite nth_merged_rate by (rewrite Hlr; now apply Hb).
      apply isin_true in Hp. now rewrite Hp.
Qed.

Lemma set_rate_BC_merge_accumulates_witness :
  (forall mode1 p r1 r2,
     (p < 5)%nat -> nth p (repeat (@None Q) 5) None = None ->
     exists s2 br2,
       (set_rate_BC [p] (scalar r1) mode1 ;;
        set_rate_BC [p] (scalar r2) merge) Exact.chain5_alg = (Ok tt, s2) /\
       bc_rate s2 = Some br2 /\ nth p br2 None = Some (r1 + r2)) /\
  (forall pores values q r s',
     set_rate_BC pores values merge Exact.chain5_alg = (r, s') ->
     ~ In q pores ->
     exists br',
       bc_rate s' = Some br' /\ nth q br' None = nth q (repeat (@None Q) 5) None) /\
  (forall pores v,
     in_bounds pores 5 = true ->
     exists br',
       set_rate_BC pores (scalar v) merge Exact.chain5_alg =
         (Ok tt, set_bc_rate (Some br') Exact.chain5_alg) /\
       forall p, In p pores ->
         nth p br' None =
         match nth p (repeat (@None Q) 5) None with
         | Some c => Some (c + v)
         | None => Some v
         end).
Proof.
  apply (set_rate_BC_merge_accumulates Exact.chain5_alg
           (repeat (@None Q) 5) (repeat (@None Q) 5)); reflexivity.
Defined.

(** Overwrite mode on the value array does what its documentation says:
    the requested pores hold the value, every other pore is unset. *)
Lemma set_value_BC_overwrite_eval (s : alg) (br bv : farray) (pores : list nat) (v : Q) :
  bc_rate s = Some br -> bc_value s = Some bv ->
  length br = Np (the_network s) -> length bv = Np (the_network s) ->
  in_bounds pores (Np (the_network s)) = true ->
  exists bv',
    set_value_BC pores (scalar v) overwrite s = (Ok tt, set_bc_value (Some bv') s) /\
    forall k, (k < Np (the_network s))%nat ->
      nth k bv' None = if isin k pores then Some v else None.
Proof.
  intros Hr Hv Hlr Hlv Hb.
  destruct s as [net g st A pA b pb br' bv' q]. simpl in *. subst.
  eexists. split.
  - unfold set_value_BC, _set_BC, size, all_nan. mrun.
    rewrite !length_isfinite, Hlv, Hlr, !Nat.eqb_refl. mrun.
    unfold assign_at, broadcast_to. rewrite repeat_length, Hb. mrun.
    rewrite map_repeat_idx, map_map. reflexivity.
  - intros k Hk.
    rewrite nth_put_at_map by now rewrite repeat_length.
    now rewrite nth_repeat.
Qed.

(** C5, the failing input.  Pore 0 holds the rate 5; [set_rate_BC] at pore
    0 with the rate 7 in overwrite mode succeeds and leaves pore 0 without
    a rate, where the claim (and the documentation of the mode) has 7. *)
Theorem set_rate_BC_overwrite_drops_rebound_pore :
  set_rate_BC [0%nat] (scalar 7) overwrite Exact.rate_bound =
  (Ok tt, set_bc_rate (Some [None; None]) Exact.rate_bound).
Proof. vm_compute. reflexivity. Qed.

(* ================================================================== *)
(** ** What the methods leave alone *)

Import Frame.

Section Frames.

Variable P : alg -> alg -> Prop.
Hypothesis P_refl : forall s, P s s.
Hypothesis P_trans : forall s1 s2 s3, P s1 s2 -> P s2 s3 -> P s1 s3.

Lemma preserves_ret {A : Type} (a : A) : preserves P (ret a).
Proof. intros s r s' H. inversion H. apply P_refl. Qed.

Lemma preserves_raise {A : Type} (e : exn) : preserves P (@raise A e).
Proof. intros s r s' H. inversion H. apply P_refl. Qed.

Lemma preserves_lift {A : Type} (x : res A) : preserves P (lift x).
Proof. intros s r s' H. inversion H. apply P_refl. Qed.

Lemma preserves_gets {A : Type} (f : alg -> A) : preserves P (gets f).
Proof. intros s r s' H. inversion H. apply P_refl. Qed.

Lemma preserves_lookup {A : Type} (f : alg -> option A) : preserves P (lookup f).
Proof.
  intros s r s' H. unfold lookup in H. destruct (f s); inversion H; apply P_refl.
Qed.

Lemma preserves_guard (c : bool) (e : exn) : preserves P (guard c e).
Proof. destruct c; [apply preserves_ret | apply preserves_raise]. Qed.

Lemma preserves_modify (f : alg -> alg) :
  (forall s, P s (f s)) -> preserves P (modify f).
Proof. intros Hf s r s' H. inversion H. apply Hf. Qed.

Lemma preserves_bind {A B : Type} (m : M A) (k : A -> M B) :
  preserves P m -> (forall a, preserves P (k a)) -> preserves P (bind m k).
Proof.
  intros Hm Hk s r s' H. unfold bind in H.
  destruct (m s) as [[a|e] s1] eqn:E.
  - eapply P_trans; [eapply Hm; exact E | eapply Hk; exact H].
  - inversion H; subst. eapply Hm; exact E.
Qed.

Lemma preserves_deref {A : Type} (m : M (option A)) :
  preserves P m -> preserves P (deref m).
Proof.
  intros Hm. unfold deref. apply preserves_bind; [exact Hm|].
  intros [a|]; [apply preserves_ret | apply preserves_raise].
Qed.

End Frames.

Lemma keeps_pure_refl s : keeps_pure s s.
Proof. repeat split. Qed.

Lemma keeps_pure_trans s1 s2 s3 :
  keeps_pure s1 s2 -> keeps_pure s2 s3 -> keeps_pure s1 s3.
Proof.
  intros [H1 [H2 H3]] [G1 [G2 G3]]. split; [congruence|]. split; intros Hc Hn.
  - rewrite <- (H2 Hc Hn). apply G2; rewrite ?H1, ?(H2 Hc Hn); assumption.
  - rewrite <- (H3 Hc Hn). apply G3; rewrite ?H1, ?(H3 Hc Hn); assumption.
Qed.

Lemma build_A_keeps_pure (E : env) : preserves keeps_pure (_build_A E).
Proof.
  intros s r s' H. destruct s as [net g st A pA b pb br bv q].
  unfold _build_A in H. revert H. mrun.
  destruct (cache_A st) eqn:Hc; mrun.
  - destruct pA as [PA|]; mrun.
    + intros H; inversion H; subst. repeat split.
    + destruct g as [[w|w]|]; mrun.
      * destruct (create_adjacency_matrix net w); mrun;
          intros H; inversion H; subst; repeat split; simpl; congruence.
      * destruct (adjacency_directed E net w); mrun;
          intros H; inversion H; subst; repeat split; simpl; congruence.
      * intros H; inversion H; subst; repeat split.
  - destruct g as [[w|w]|]; mrun.
    + destruct (create_adjacency_matrix net w); mrun;
        intros H; inversion H; subst; repeat split; simpl; congruence.
    + destruct (adjacency_directed E net w); mrun;
        intros H; inversion H; subst; repeat split; simpl; congruence.
    + intros H; inversion H; subst; repeat split; simpl; congruence.
Qed.

Lemma build_b_keeps_pure : preserves keeps_pure _build_b.
Proof.
  intros s r s' H. destruct s as [net g st A pA b pb br bv q].
  unfold _build_b in H. revert H. mrun.
  destruct (cache_b st) eqn:Hc; mrun.
  - destruct pb as [PB|]; mrun; intros H; inversion H; subst; repeat split;
      simpl; congruence.
  - intros H; inversion H; subst; repeat split; simpl; congruence.
Qed.


(** Framing a method whose building blocks are framed. *)
Ltac frame Hrefl Htrans HA Hb :=
  repeat match goal with
  | |- preserves _ (ret _) => apply preserves_ret; exact Hrefl
  | |- preserves _ (raise _) => apply preserves_raise; exact Hrefl
  | |- preserves _ (lift _) => apply preserves_lift; exact Hrefl
  | |- preserves _ (gets _) => apply preserves_gets; exact Hrefl
  | |- preserves _ (lookup _) => apply preserves_lookup; exact Hrefl
  | |- preserves _ (guard _ _) => apply preserves_guard; exact Hrefl
  | |- preserves _ (modify _) =>
      apply preserves_modify; intros [? ? ? ? ? ? ? ? ? ?];
      solve [repeat split]
  | |- preserves _ (deref _) =>
      apply preserves_deref; [exact Hrefl | exact Htrans |]
  | |- preserves _ (bind _ _) =>
      apply preserves_bind; [exact Htrans | | intro]
  | |- preserves _ (match ?x with _ => _ end) => destruct x
  | |- _ => first [apply HA | apply Hb]
  end.

Lemma get_A_keeps_pure (E : env) : preserves keeps_pure (_get_A E).
Proof.
  unfold _get_A.
  frame keeps_pure_refl keeps_pure_trans build_A_keeps_pure build_b_keeps_pure.
Qed.

Lemma get_b_keeps_pure : preserves keeps_pure _get_b.
Proof.
  unfold _get_b.
  frame keeps_pure_refl keeps_pure_trans build_A_keeps_pure build_b_keeps_pure.
Qed.

Lemma apply_BCs_keeps_pure (E : env) : preserves keeps_pure (_apply_BCs E).
Proof.
  unfold _apply_BCs.
  frame keeps_pure_refl keeps_pure_trans get_A_keeps_pure get_b_keeps_pure.
Qed.

Lemma solve_keeps_pure (E : env) A b x0 : preserves keeps_pure (_solve E A b x0).
Proof.
  unfold _solve, _get_rtol, _get_residual, _get_atol.
  frame keeps_pure_refl keeps_pure_trans get_A_keeps_pure get_b_keeps_pure.
Qed.

Lemma run_keeps_pure (E : env) (x0 : option vec) : preserves keeps_pure (run E x0).
Proof.
  unfold run, _run_generic.
  pose proof (solve_keeps_pure E) as Hs.
  pose proof (apply_BCs_keeps_pure E) as Ha.
  frame keeps_pure_refl keeps_pure_trans Ha get_b_keeps_pure.
  apply Hs.
Qed.

Lemma same_quantity_refl s : same_quantity s s.
Proof. reflexivity. Qed.

Lemma same_quantity_trans s1 s2 s3 :
  same_quantity s1 s2 -> same_quantity s2 s3 -> same_quantity s1 s3.
Proof. unfold same_quantity. congruence. Qed.

Lemma build_A_same_quantity (E : env) : preserves same_quantity (_build_A E).
Proof.
  unfold _build_A.
  frame same_quantity_refl same_quantity_trans same_quantity_refl same_quantity_refl.
Qed.

Lemma build_b_same_quantity : preserves same_quantity _build_b.
Proof.
  unfold _build_b.
  frame same_quantity_refl same_quantity_trans same_quantity_refl same_quantity_refl.
Qed.

Lemma apply_BCs_same_quantity (E : env) : preserves same_quantity (_apply_BCs E).
Proof.
  pose proof (build_A_same_quantity E) as HA.
  unfold _apply_BCs, _get_A, _get_b.
  frame same_quantity_refl same_quantity_trans HA build_b_same_quantity.
Qed.

Lemma solve_same_quantity (E : env) A b x0 : preserves same_quantity (_solve E A b x0).
Proof.
  pose proof (build_A_same_quantity E) as HA.
  unfold _solve, _get_rtol, _get_residual, _get_atol, _get_A, _get_b.
  frame same_quantity_refl same_quantity_trans HA build_b_same_quantity.
Qed.

Lemma rate_same_state (pores throats : list nat) (mode : string) :
  preserves eq (rate pores throats mode).
Proof.
  unfold rate.
  frame (@eq_refl alg) (@eq_trans alg) (@eq_refl alg) (@eq_refl alg).
Qed.

(* ================================================================== *)
(** ** The solver dispatcher *)

Lemma length_matvec (A : coo) (x : vec) : length (matvec A x) = shape A.
Proof. apply length_tabulate. Qed.

Lemma solve_cg_eval (E : env) (s : alg) (A : coo) (b : vec) (x0 : option vec) :
  _A s = Some A -> _b s = Some b -> length b = shape A ->
  opt_all (fun x => length x = shape A) x0 ->
  solver_type (the_settings s) = "cg"%string ->
  is_symmetric E A = false ->
  _solve E None None x0 s =
  (Err (Exception "CG solver only works on symmetric matrices."), s).
Proof.
  intros HA Hb Hl Hx Ht Hs.
  destruct s as [net g st A' pA b' pb br bv q].
  destruct st as [fam typ pre tol atol rtol mit cA cB]. simpl in *. subst.
  unfold _solve, _get_rtol, _get_residual, _get_atol, mul, vsub.
  assert (Hz : length (zeros (length b)) = shape A).
  { unfold zeros. now rewrite repeat_length. }
  destruct x0 as [x|]; simpl in Hx;
    destruct atol as [atol|]; destruct rtol as [rtol|]; mrun_settings;
    rewrite ?Hx, ?Hz, ?Nat.eqb_refl; mrun_settings;
    rewrite ?length_matvec, ?Hl, ?Nat.eqb_refl; mrun_settings;
    rewrite Hs; reflexivity.
Qed.

(* ================================================================== *)
(** ** Rates *)

Lemma in_bounds_conns (net : network) :
  net_wf net ->
  in_bounds (map fst (conns net)) (Np net) = true /\
  in_bounds (map snd (conns net)) (Np net) = true.
Proof.
  intros H. unfold net_wf in H. rewrite Forall_forall in H.
  split; apply in_bounds_true; intros i Hi; apply in_map_iff in Hi;
    destruct Hi as [c [<- Hc]]; now apply H.
Qed.

Lemma as_two_columns_ok (g : conductance) (nt : nat) :
  conductance_rows g = nt -> as_two_columns g nt = Ok (two_columns g).
Proof.
  intros H. destruct g as [w|w]; simpl in *; now rewrite H, Nat.eqb_refl.
Qed.

Lemma rate_pores_eval (s : alg) (g : conductance) (x : vec) (X : list nat) :
  net_wf (the_network s) ->
  phase_conductance s = Some g ->
  conductance_rows g = Nt (the_network s) ->
  quantity s = Some x -> length x = Np (the_network s) ->
  X <> [] -> in_bounds X (Np (the_network s)) = true ->
  rate X [] "group" s =
  (Ok [Qsum (map (fun p => nth p (pore_rates (the_network s) (two_columns g) x) 0) X)], s).
Proof.
  intros Hwf Hg Hrows Hq Hl HX Hb.
  destruct s as [net g' st A pA b pb br bv q]. simpl in *. subst.
  destruct (in_bounds_conns net Hwf) as [H1 H2].
  unfold rate. mrun. rewrite Hl, H1, H2. mrun.
  rewrite (as_two_columns_ok _ _ Hrows). mrun.
  destruct X as [|p X]; [congruence|].
  cbn [length Nat.ltb Nat.leb Nat.eqb andb]. mrun.
  rewrite ?H1, ?H2, ?Hb. mrun. rewrite ?H1, ?H2, ?Hb. mrun. rewrite ?Hb. mrun.
  reflexivity.
Qed.

(** C9.  On a state that holds a solution (with the conductance of the
    phase, one row per throat), [rate] with both [pores] and [throats]
    non-empty raises the exception of input validation, [rate] with both
    empty raises an exception of the same class, and in both cases the state
    after the call is the state before it. *)
Theorem rate_rejects_both_or_neither (s : alg) (g : conductance) (x : vec)
    (pores throats : list nat) (mode : string) :
  net_wf (the_network s) ->
  phase_conductance s = Some g ->
  conductance_rows g = Nt (the_network s) ->
  quantity s = Some x -> length x = Np (the_network s) ->
  (pores <> [] -> throats <> [] ->
   rate pores throats mode s =
   (Err (Exception "Must specify either pores or throats, not both"), s)) /\
  rate [] [] mode s = (Err (Exception "Must specify either pores or throats"), s).
Proof.
  intros Hwf Hg Hrows Hq Hl.
  destruct s as [net g' st A pA b pb br bv q]. simpl in *. subst.
  destruct (in_bounds_conns net Hwf) as [H1 H2].
  split.
  - intros Hp Ht. unfold rate. mrun. rewrite Hl, H1, H2. mrun.
    rewrite (as_two_columns_ok _ _ Hrows). mrun.
    destruct pores; [congruence|]. destruct throats; [congruence|].
    reflexivity.
  - unfold rate. mrun. rewrite Hl, H1, H2. mrun.
    rewrite (as_two_columns_ok _ _ Hrows). mrun. reflexivity.
Qed.

Lemma Qsum_upd (a : vec) (i : nat) (v : Q) :
  (i < length a)%nat -> Qsum (upd a i v) == Qsum a - nth i a 0 + v.
Proof.
  revert i; induction a as [|y a IH]; intros [|i] H; simpl in *; try lia.
  - ring.
  - rewrite IH by lia. ring.
Qed.

Lemma length_add_at_each (idx : list nat) :
  forall (vals a : vec), length (add_at_each a idx vals) = length a.
Proof.
  induction idx as [|i idx IH]; intros [|v vals] a; simpl; auto.
  now rewrite IH, length_upd.
Qed.

Lemma Qsum_add_at_each (idx : list nat) :
  forall (vals a : vec),
    in_bounds idx (length a) = true -> length vals = length idx ->
    Qsum (add_at_each a idx vals) == Qsum a + Qsum vals.
Proof.
  induction idx as [|i idx IH]; intros [|v vals] a Hb Hl; simpl in *;
    try discriminate; [ring|].
  apply andb_true_iff in Hb. destruct Hb as [Hi Hb]. apply Nat.ltb_lt in Hi.
  rewrite IH; [|now rewrite length_upd|lia].
  rewrite Qsum_upd by exact Hi. ring.
Qed.

Lemma Qsum_zeros (n : nat) : Qsum (zeros n) == 0.
Proof. induction n as [|n IH]; simpl; [reflexivity|]. unfold zeros in IH. rewrite IH. ring. Qed.

Lemma Qsum_opp (l : vec) : Qsum (map Qopp l) == - Qsum l.
Proof. induction l as [|x l IH]; simpl; [ring|]. rewrite IH. ring. Qed.

Lemma length_zip_with {A B C : Type} (f : A -> B -> C) (l1 : list A) :
  forall l2 : list B, length l1 = length l2 ->
  length (zip_with f l1 l2) = length l1.
Proof.
  induction l1 as [|a l1 IH]; intros [|b l2] H; simpl in *; try discriminate;
    auto.
Qed.

Lemma length_two_columns (g : conductance) :
  length (two_columns g) = conductance_rows g.
Proof. destruct g; simpl; [apply length_map | reflexivity]. Qed.

(** Every throat takes from one pore what it gives to the other. *)
Lemma Qsum_pore_rates (net : network) (g : conductance) (x : vec) :
  net_wf net -> conductance_rows g = Nt net ->
  Qsum (pore_rates net (two_columns g) x) == 0.
Proof.
  intros Hwf Hrows. destruct (in_bounds_conns net Hwf) as [H1 H2].
  unfold pore_rates.
  set (Qt := zip_with _ _ _).
  assert (HQt : length Qt = length (conns net)).
  { unfold Qt. rewrite length_zip_with; rewrite !length_map, length_two_columns;
      exact Hrows. }
  rewrite Qsum_add_at_each.
  - rewrite Qsum_add_at_each.
    + rewrite Qsum_zeros, Qsum_opp. ring.
    + unfold zeros. now rewrite repeat_length.
    + now rewrite !length_map.
  - rewrite length_add_at_each. unfold zeros. now rewrite repeat_length.
  - now rewrite length_map.
Qed.

Lemma length_pore_rates (net : network) (g2 : list (Q * Q)) (x : vec) :
  length (pore_rates net g2 x) = Np net.
Proof.
  unfold pore_rates. rewrite !length_add_at_each. apply repeat_length.
Qed.

Lemma Qsum_perm (l l' : vec) : Permutation l l' -> Qsum l == Qsum l'.
Proof.
  induction 1; simpl; try ring.
  - now rewrite IHPermutation.
  - now rewrite IHPermutation1.
Qed.

Lemma Qsum_filter_split {A : Type} (f : A -> Q) (p : A -> bool) (l : list A) :
  Qsum (map f l) ==
  Qsum (map f (filter p l)) + Qsum (map f (filter (fun a => negb (p a)) l)).
Proof.
  induction l as [|a l IH]; simpl; [ring|].
  rewrite IH. destruct (p a); simpl; ring.
Qed.

Lemma map_nth_all (l : vec) :
  map (fun k => nth k l 0) (seq 0 (length l)) = l.
Proof.
  apply (nth_ext _ _ 0 0).
  - now rewrite length_map, length_seq.
  - intros k Hk. rewrite length_map, length_seq in Hk.
    change (nth k (tabulate (length l) (fun k => nth k l 0)) 0 = nth k l 0).
    now rewrite nth_tabulate.
Qed.

(** The rates of a set of pores and of its complement add up to the sum
    over all pores. *)
Lemma Qsum_set_and_complement (f : nat -> Q) (n : nat) (X : list nat) :
  NoDup X -> in_bounds X n = true ->
  Qsum (map f X) + Qsum (map f (complement n X)) == Qsum (map f (seq 0 n)).
Proof.
  intros Hnd Hb. rewrite (Qsum_filter_split f (fun k => isin k X) (seq 0 n)).
  unfold complement. apply Qplus_comp; [|reflexivity].
  apply Qsum_perm, Permutation_map, NoDup_Permutation.
  - exact Hnd.
  - apply NoDup_filter, seq_NoDup.
  - intros k. rewrite filter_In, in_seq, isin_true.
    rewrite in_bounds_true in Hb. split; [|tauto].
    intros H. specialize (Hb k H). split; [lia|exact H].
Qed.

Lemma in_bounds_complement (n : nat) (X : list nat) :
  in_bounds (complement n X) n = true.
Proof.
  apply in_bounds_true. intros i Hi. unfold complement in Hi.
  apply filter_In in Hi. destruct Hi as [Hi _]. apply in_seq in Hi. lia.
Qed.

(** C7 as amended.  For every stored quantity field and every conductance
    array on which [rate] does not round (dyadic data, see
    [Float64.exact_rate]) and every set [X] of pores such that neither [X]
    nor its complement is empty, [rate(pores=X, mode='group')] is the
    negative of [rate(pores=complement(X), mode='group')].  On other data
    the two numbers are the roundings of opposite sums and may differ in
    the last bits. *)
Theorem rate_group_conservation (s : alg) (g : conductance) (x : vec)
    (X : list nat) (kg kx : nat) :
  net_wf (the_network s) ->
  phase_conductance s = Some g ->
  conductance_rows g = Nt (the_network s) ->
  quantity s = Some x -> length x = Np (the_network s) ->
  Float64.exact_rate kg kx (the_network s) g x = true ->
  NoDup X -> in_bounds X (Np (the_network s)) = true ->
  X <> [] -> complement (Np (the_network s)) X <> [] ->
  exists r1 r2,
    rate X [] "group" s = (Ok [r1], s) /\
    rate (complement (Np (the_network s)) X) [] "group" s = (Ok [r2], s) /\
    r1 == - r2.
Proof.
  intros Hwf Hg Hrows Hq Hl _ Hnd Hb HX HC.
  eexists. eexists. split; [|split].
  - now apply (rate_pores_eval s g x X).
  - apply (rate_pores_eval s g x); try assumption. apply in_bounds_complement.
  - set (Qp := pore_rates (the_network s) (two_columns g) x).
    assert (HN : Np (the_network s) = length Qp).
    { unfold Qp. now rewrite length_pore_rates. }
    pose proof (Qsum_set_and_complement (fun p => nth p Qp 0)
                  (Np (the_network s)) X Hnd Hb) as H.
    rewrite HN in H at 2. rewrite map_nth_all in H.
    unfold Qp in H at 3. rewrite Qsum_pore_rates in H by assumption.
    lra.
Qed.

Lemma rate_group_conservation_witness :
  exists r1 r2,
    rate [0%nat] [] "group" Exact.two_pores_solved
      = (Ok [r1], Exact.two_pores_solved) /\
    rate (complement 2 [0%nat]) [] "group" Exact.two_pores_solved
      = (Ok [r2], Exact.two_pores_solved) /\
    r1 == - r2.
Proof.
  apply (rate_group_conservation Exact.two_pores_solved (per_throat [1])
           [1; 0] [0%nat] 0 0).
  - unfold net_wf; simpl. repeat constructor.
  - reflexivity.
  - reflexivity.
  - reflexivity.
  - reflexivity.
  - reflexivity.
  - repeat constructor. simpl. tauto.
  - reflexivity.
  - discriminate.
  - vm_compute. discriminate.
Defined.

(** C7 as stated fails when [X] is the set of all pores: the rate of [X]
    is computed, the rate of its empty complement is refused. *)
Lemma rate_of_empty_complement_raises :
  (exists r, fst (rate [0; 1]%nat [] "group" Exact.two_pores_solved) = Ok [r]) /\
  fst (rate (complement 2 [0; 1]%nat) [] "group" Exact.two_pores_solved)
  = Err (Exception "Must specify either pores or throats").
Proof. split; [eexists|]; reflexivity. Qed.

Section Binary64.
Import PrimFloat.

(** In float64 the two sides need not be opposite.  On the chain of three
    pores with unit conductances and the field [0, 0.1, 0.5] the throat
    rates are [0.1] and [0.4] and the array [Qp] of [rate] is
    [-0.1, -0.30000000000000004, 0.4]: the rate of pore 0 is [-0.1] and the
    rate of its complement is [0.09999999999999998]. *)
Lemma rate_conservation_rounds_in_float64 :
  let Qp := Float64.pore_rates Exact.chain3
              [(1, 1); (1, 1)]%float
              [0; 0x1.999999999999ap-4; 0.5]%float in
  Qp = [-0x1.999999999999ap-4; -0x1.3333333333334p-2; 0x1.999999999999ap-2]%float /\
  add (nth 1%nat Qp zero) (nth 2%nat Qp zero)
    = 0x1.9999999999998p-4%float /\
  eqb (nth 0%nat Qp zero)
    (opp (add (nth 1%nat Qp zero)
                                  (nth 2%nat Qp zero))) = false.
Proof. vm_compute. repeat split. Qed.

End Binary64.

Lemma rate_rejects_both_or_neither_witness :
  (([0%nat] : list nat) <> [] -> ([0%nat] : list nat) <> [] ->
   rate [0%nat] [0%nat] "group" Exact.two_pores_solved =
   (Err (Exception "Must specify either pores or throats, not both"),
    Exact.two_pores_solved)) /\
  rate [] [] "group" Exact.two_pores_solved =
  (Err (Exception "Must specify either pores or throats"),
   Exact.two_pores_solved).
Proof.
  apply (rate_rejects_both_or_neither Exact.two_pores_solved (per_throat [1])
           [1; 0] [0%nat] [0%nat] "group").
  - unfold net_wf; simpl. repeat constructor.
  - reflexivity.
  - reflexivity.
  - reflexivity.
  - reflexivity.
Defined.

(* ================================================================== *)
(** ** Running *)

(** C8.  With the conjugate-gradient variant configured and a working
    matrix that [is_symmetric] rejects, [_solve] raises the configuration
    error whatever the backends are, so none of them is called; and a [run]
    whose assembled system is this one raises the same error after
    [_apply_BCs], storing nothing: the quantity is what it was before. *)
Theorem solve_cg_rejects_asymmetric
    (E : env) (s : alg) (A : coo) (b : vec) (x0 : option vec) :
  _A s = Some A -> _b s = Some b -> length b = shape A ->
  opt_all (fun x => length x = shape A) x0 ->
  solver_type (the_settings s) = "cg"%string ->
  is_symmetric E A = false ->
  _solve E None None x0 s =
    (Err (Exception "CG solver only works on symmetric matrices."), s) /\
  (forall s0 x,
     _apply_BCs E s0 = (Ok tt, s) ->
     run E x s0 =
       (Err (Exception "CG solver only works on symmetric matrices."), s) /\
     quantity s = quantity s0).
Proof.
  intros HA Hb Hl Hx Ht Hs. split.
  - now apply (solve_cg_eval E s A b x0).
  - intros s0 x H. split.
    + assert (Hgb : deref _get_b s = (Ok b, s)).
      { unfold deref, _get_b, bind, gets, ret. rewrite Hb. cbv beta iota.
        now rewrite Hb. }
      assert (Hz : opt_all (fun x => length x = shape A)
                           (Some (zeros (length b)))).
      { simpl. unfold zeros. now rewrite repeat_length. }
      unfold run, _run_generic. unfold bind at 1. rewrite H. cbv beta iota.
      unfold bind at 1. rewrite Hgb. cbv beta iota.
      unfold bind at 1.
      now rewrite (solve_cg_eval E s A b _ HA Hb Hl Hz Ht Hs).
    + exact (apply_BCs_same_quantity E s0 (Ok tt) s H).
Qed.

Lemma solve_cg_rejects_asymmetric_witness :
  _solve Exact.exact_env None None None Exact.asymmetric_alg =
    (Err (Exception "CG solver only works on symmetric matrices."),
     Exact.asymmetric_alg) /\
  (forall s0 x,
     _apply_BCs Exact.exact_env s0 = (Ok tt, Exact.asymmetric_alg) ->
     run Exact.exact_env x s0 =
       (Err (Exception "CG solver only works on symmetric matrices."),
        Exact.asymmetric_alg) /\
     quantity Exact.asymmetric_alg = quantity s0).
Proof.
  apply (solve_cg_rejects_asymmetric Exact.exact_env Exact.asymmetric_alg
           Exact.asymmetric_A [0; 0] None).
  - reflexivity.
  - reflexivity.
  - reflexivity.
  - simpl. exact I.
  - reflexivity.
  - reflexivity.
Defined.

(** C10.  [run] does not look at its argument: two initial guesses give the
    same result and the same final state, and the guess that reaches
    [_solve] is the zero vector of the length of [b]. *)
Theorem run_ignores_initial_guess (E : env) (s : alg) (x0a x0b : option vec) :
  run E x0a s = run E x0b s /\
  quantity (snd (run E x0a s)) = quantity (snd (run E x0b s)) /\
  run E x0a s =
  (_apply_BCs E ;;
   b <- deref _get_b ;;
   x_new <- _solve E None None (Some (zeros (length b))) ;;
   modify (set_quantity (Some x_new))) s.
Proof. repeat split. Qed.

(** The pure matrix and the pure vector, once cached, are the same after
    any [run], whether it returns or raises. *)
Lemma run_leaves_cached_pure_system (E : env) (x0 : option vec) (s s' : alg)
    (r : res unit) :
  run E x0 s = (r, s') ->
  the_settings s' = the_settings s /\
  (cache_A (the_settings s) = true -> _pure_A s <> None ->
   _pure_A s' = _pure_A s) /\
  (cache_b (the_settings s) = true -> _pure_b s <> None ->
   _pure_b s' = _pure_b s).
Proof. intros H. exact (run_keeps_pure E x0 s r s' H). Qed.

(** C3, the failing input.  On the chain of three pores with caching on,
    a first run between the values 1 and 0 leaves the pure matrix and
    vector as they were built, but also leaves its eliminated matrix as the
    working copy: the property [A] hands it to the next run as it is.  A
    second run with the value 1 at pore 0 as its only condition then stores
    [1, 1/2, 0], where the same run on a copy of the pure system stores
    [1, 1, 1]. *)
Theorem second_run_starts_from_eliminated_system :
  let s1 := snd (Exact.first_run Exact.chain3_alg) in
  let s2 := snd (Exact.second_run s1) in
  fst (Exact.first_run Exact.chain3_alg) = Ok tt /\
  fst (Exact.second_run s1) = Ok tt /\
  _pure_A s2 = _pure_A s1 /\ _pure_b s2 = _pure_b s1 /\
  _A s1 <> _pure_A s1 /\
  _get_A Exact.exact_env s1 = (Ok (_A s1), s1) /\
  quantity s2 = Some [1; 1 # 2; 0] /\
  quantity (snd (Exact.second_run Exact.chain3_alg)) = Some [1; 1; 1].
Proof.
  vm_compute. repeat split; discriminate.
Qed.

(* ================================================================== *)
(** ** The chain of five pores *)

(** C6 as amended.  On the chain of five pores with unit conductances, the
    value 1 at pore 0 and the value 0 at pore 4, and with the default direct
    solver of scipy: whenever the backend returns an exact solution [x] of
    the assembled system, [run] stores [x], [x] is
    [1, 3/4, 1/2, 1/4, 0], and [rate(pores=[0])] then returns [1/4]. *)
Theorem chain5_field_and_rate (E : env) (x : vec) :
  scipy_has E "spsolve" = true ->
  scipy_direct E "spsolve" Exact.chain5_A_bc Exact.chain5_b_bc = Ok x ->
  length x = 5%nat ->
  Forall2 Qeq (matvec Exact.chain5_A_bc x) Exact.chain5_b_bc ->
  exists s,
    Exact.chain5_run E Exact.chain5_alg = (Ok tt, s) /\
    _A s = Some Exact.chain5_A_bc /\ _b s = Some Exact.chain5_b_bc /\
    quantity s = Some x /\
    Forall2 Qeq x [1; 3 # 4; 1 # 2; 1 # 4; 0] /\
    exists r, rate [0%nat] [] "group" s = (Ok [r], s) /\ r == 1 # 4.
Proof.
  intros H1 H2 Hl H3.
  assert (Hx : Forall2 Qeq x [1; 3 # 4; 1 # 2; 1 # 4; 0]).
  { destruct x as [|x0 [|x1 [|x2 [|x3 [|x4 [|]]]]]]; try discriminate.
    cbv -[Qplus Qmult Qminus Qopp Qeq] in H3.
    repeat match goal with
           | H : Forall2 _ _ _ |- _ => inversion H; clear H; subst
           end.
    repeat constructor; lra. }
  eexists. split; [|split; [|split; [|split; [|split; [exact Hx|]]]]].
  - vm_compute. vm_compute in H1. rewrite H1.
    vm_compute in H2. rewrite H2. reflexivity.
  - reflexivity.
  - reflexivity.
  - reflexivity.
  - destruct x as [|x0 [|x1 [|x2 [|x3 [|x4 [|]]]]]]; try discriminate.
    eexists. split.
    + cbv -[Qplus Qmult Qminus Qopp Qeq]. reflexivity.
    + repeat match goal with
             | H : Forall2 _ _ _ |- _ => inversion H; clear H; subst
             end.
      lra.
Qed.

Lemma chain5_field_and_rate_witness :
  exists s,
    Exact.chain5_run Exact.exact_env Exact.chain5_alg = (Ok tt, s) /\
    _A s = Some Exact.chain5_A_bc /\ _b s = Some Exact.chain5_b_bc /\
    quantity s = Some [1; 3 # 4; 1 # 2; 1 # 4; 0] /\
    Forall2 Qeq [1; 3 # 4; 1 # 2; 1 # 4; 0] [1; 3 # 4; 1 # 2; 1 # 4; 0] /\
    exists r, rate [0%nat] [] "group" s = (Ok [r], s) /\ r == 1 # 4.
Proof.
  apply (chain5_field_and_rate Exact.exact_env [1; 3 # 4; 1 # 2; 1 # 4; 0]).
  - reflexivity.
  - vm_compute. reflexivity.
  - reflexivity.
  - vm_compute. repeat constructor.
Defined.

(** C6 as stated fails on its rate: with the exact direct solver the
    scenario stores the field of the claim, and [rate(pores=[0])] returns a
    number that is not 1. *)
Lemma chain5_rate_is_not_one :
  exists s r,
    Exact.chain5_run Exact.exact_env Exact.chain5_alg = (Ok tt, s) /\
    quantity s = Some [1; 3 # 4; 1 # 2; 1 # 4; 0] /\
    rate [0%nat] [] "group" s = (Ok [r], s) /\
    ~ r == 1.
Proof.
  eexists. eexists. split; [|split; [|split]].
  - vm_compute. reflexivity.
  - reflexivity.
  - vm_compute. reflexivity.
  - vm_compute. discriminate.
Qed.

(* ================================================================== *)
(** * Further properties of the engine *)

(* ------------------------------------------------------------------ *)
(** ** The boundary-condition store *)

Lemma set_value_BC_scalar_eval (s : alg) (br bv : farray) (pores : list nat)
    (v : Q) (mode : bcmode) :
  bc_rate s = Some br -> bc_value s = Some bv ->
  length br = Np (the_network s) -> length bv = Np (the_network s) ->
  in_bounds pores (Np (the_network s)) = true ->
  exists bv',
    set_value_BC pores (scalar v) mode s = (Ok tt, set_bc_value (Some bv') s) /\
    length bv' = Np (the_network s) /\
    forall k, (k < Np (the_network s))%nat ->
      nth k bv' None =
      if isin k pores then Some v
      else match mode with merge => nth k bv None | overwrite => None end.
Proof.
  intros Hr Hv Hlr Hlv Hb.
  destruct s as [net g st A pA b pb br' bv' q]. simpl in *. subst.
  destruct mode.
  - eexists. split; [|split].
    + unfold set_value_BC, _set_BC, size, all_nan. mrun.
      rewrite !length_isfinite, Hlv, Hlr, !Nat.eqb_refl. mrun.
      unfold assign_at, broadcast_to. rewrite Hlv, Hb. mrun.
      rewrite map_repeat_idx, map_map. reflexivity.
    + now rewrite length_put_at.
    + intros k Hk. rewrite nth_put_at_map by lia. reflexivity.
  - eexists. split; [|split].
    + unfold set_value_BC, _set_BC, size, all_nan. mrun.
      rewrite !length_isfinite, Hlv, Hlr, !Nat.eqb_refl. mrun.
      unfold assign_at, broadcast_to. rewrite repeat_length, Hb. mrun.
      rewrite map_repeat_idx, map_map. reflexivity.
    + now rewrite length_put_at, repeat_length.
    + intros k Hk. rewrite nth_put_at_map by now rewrite repeat_length.
      now rewrite nth_repeat.
Qed.

(** X3.  An array of more than one boundary value whose size is not the
    number of pores is refused by [_set_BC], for either kind and either
    mode, before anything is read or written: the object is unchanged. *)
Theorem set_BC_size_mismatch_raises (s : alg) (pores : list nat) (t : bctype)
    (vs : list Q) (mode : bcmode) :
  (1 < length vs)%nat -> length vs <> length pores ->
  _set_BC pores t (array vs) mode s =
  (Err (Exception "The number of boundary values must match the number of locations"), s).
Proof.
  intros H1 H2. unfold _set_BC, size.
  apply Nat.ltb_lt in H1. apply Nat.eqb_neq in H2.
  unfold bind at 1. rewrite H1, H2. reflexivity.
Qed.

Lemma nth_put_at_nodup {A : Type} (d : A) (idx : list nat) :
  forall (vals a : list A) (i : nat),
    NoDup idx -> length vals = length idx ->
    in_bounds idx (length a) = true -> (i < length idx)%nat ->
    nth (nth i idx 0%nat) (put_at a idx vals) d = nth i vals d.
Proof.
  induction idx as [|j idx IH]; intros [|v vals] a i Hnd Hl Hb Hi;
    simpl in *; try lia; try discriminate.
  inversion Hnd as [|? ? Hnot Hnd']; subst.
  apply andb_true_iff in Hb. destruct Hb as [Hj Hb]. apply Nat.ltb_lt in Hj.
  destruct i as [|i].
  - rewrite nth_put_at_other by exact Hnot. now apply nth_upd_same.
  - apply IH; try assumption; try lia. now rewrite length_upd.
Qed.

Lemma broadcast_array_same (vs : list Q) :
  broadcast_to (array vs) (length vs) = Ok vs.
Proof.
  destruct vs as [|q [|q' vs]]; simpl; try reflexivity.
  now rewrite Nat.eqb_refl.
Qed.

(** X2.  [set_value_BC] with an array of values, one per requested pore,
    on distinct pores inside the network: the pore at position [i] of the
    request holds the value at position [i], and a pore outside the request
    keeps its entry in merge mode and is unset in overwrite mode. *)
Theorem set_value_BC_array_writes (s : alg) (br bv : farray) (pores : list nat)
    (vs : list Q) (mode : bcmode) :
  bc_rate s = Some br -> bc_value s = Some bv ->
  length br = Np (the_network s) -> length bv = Np (the_network s) ->
  in_bounds pores (Np (the_network s)) = true ->
  NoDup pores -> length vs = length pores ->
  exists bv',
    set_value_BC pores (array vs) mode s = (Ok tt, set_bc_value (Some bv') s) /\
    (forall i, (i < length pores)%nat ->
       nth (nth i pores 0%nat) bv' None = Some (nth i vs 0)) /\
    (forall k, ~ In k pores ->
       nth k bv' None =
       match mode with merge => nth k bv None | overwrite => None end).
Proof.
  intros Hr Hv Hlr Hlv Hb Hnd Hl.
  destruct s as [net g st A pA b pb br' bv' q]. simpl in *. subst.
  assert (Hsz : negb ((1 <? length vs)%nat && negb (length vs =? length pores)%nat) = true).
  { rewrite Hl, Nat.eqb_refl. simpl. now rewrite andb_false_r. }
  assert (Hmap : forall i, (i < length pores)%nat ->
            nth i (map Some vs) None = Some (nth i vs 0)).
  { intros i Hi. apply (nth_map_in Some vs i 0 None). lia. }
  destruct mode.
  - eexists. split; [|split].
    + unfold set_value_BC, _set_BC, size, all_nan. rewrite Hsz. mrun.
      rewrite !length_isfinite, Hlv, Hlr, !Nat.eqb_refl. mrun.
      unfold assign_at. rewrite <- Hl, broadcast_array_same, Hlv, Hb. mrun.
      reflexivity.
    + intros i Hi. rewrite nth_put_at_nodup; try assumption.
      * now apply Hmap.
      * now rewrite length_map.
      * now rewrite Hlv.
    + intros k Hk. now rewrite nth_put_at_other.
  - eexists. split; [|split].
    + unfold set_value_BC, _set_BC, size, all_nan. rewrite Hsz. mrun.
      rewrite !length_isfinite, Hlv, Hlr, !Nat.eqb_refl. mrun.
      unfold assign_at. rewrite <- Hl, broadcast_array_same, repeat_length, Hb.
      mrun. reflexivity.
    + intros i Hi. rewrite nth_put_at_nodup; try assumption.
      * now apply Hmap.
      * now rewrite length_map.
      * now rewrite repeat_length.
    + intros k Hk. rewrite nth_put_at_other by exact Hk. apply nth_repeat.
Qed.

Lemma NoDup_unique (l : list nat) : NoDup (unique l).
Proof. unfold unique. apply NoDup_filter, seq_NoDup. Qed.

Lemma length_unique_le (l : list nat) : (length (unique l) <= length l)%nat.
Proof.
  apply NoDup_incl_length; [apply NoDup_unique|].
  intros k Hk. now apply in_unique.
Qed.

Lemma length_filter_split {A : Type} (p : A -> bool) (l : list A) :
  (length (filter p l) + length (filter (fun a => negb (p a)) l) = length l)%nat.
Proof.
  induction l as [|a l IH]; simpl; [reflexivity|].
  destruct (p a); simpl; lia.
Qed.

(** The two index arrays of a rate write share the requested pores. *)
Lemma length_intersect_setdiff (cur pores : list nat) :
  (length (intersect1d cur pores)
   + length (setdiff1d pores (intersect1d cur pores)) <= length pores)%nat.
Proof.
  set (I := intersect1d cur pores).
  pose proof (length_filter_split (fun k => isin k I) (unique pores)) as Hs.
  assert (HI : length I = length (filter (fun k => isin k I) (unique pores))).
  { apply Permutation_length, NoDup_Permutation.
    - unfold I, intersect1d. apply NoDup_filter, NoDup_unique.
    - apply NoDup_filter, NoDup_unique.
    - intros k. rewrite filter_In, in_unique, isin_true. split; [|tauto].
      intros H. split; [|exact H]. unfold I in H.
      apply in_intersect1d in H. tauto. }
  unfold setdiff1d. fold I. pose proof (length_unique_le pores). lia.
Qed.

Lemma broadcast_array_mismatch (vs : list Q) (k : nat) :
  (2 <= length vs)%nat -> length vs <> k ->
  broadcast_to (array vs) k = Err ValueError.
Proof.
  intros H2 Hk. destruct vs as [|q [|q' vs]]; simpl in *; try lia.
  apply Nat.eqb_neq in Hk. simpl in Hk. now rewrite Hk.
Qed.

Lemma in_bounds_intersect_rate (br : farray) (pores : list nat) (n : nat) :
  length br = n ->
  in_bounds (intersect1d (toindices (isfinite br)) pores) n = true.
Proof.
  intros Hl. apply in_bounds_true. intros i Hi. apply in_intersect1d in Hi.
  destruct Hi as [Hi _]. apply in_toindices in Hi.
  rewrite nth_isfinite in Hi. destruct (nth i br None) eqn:E; [|discriminate].
  apply nth_some_lt in E. lia.
Qed.

(** X4.  [set_rate_BC] with an array of two or more rates, one per
    requested pore, never succeeds: the array is added at the requested
    pores that hold a rate and assigned at those that hold none, and it
    cannot have the shape of both index sets, so one of the two numpy
    operations raises [ValueError], in merge mode and in overwrite mode. *)
Theorem set_rate_BC_array_raises (s : alg) (br bv : farray) (pores : list nat)
    (vs : list Q) (mode : bcmode) :
  bc_rate s = Some br -> bc_value s = Some bv ->
  length br = Np (the_network s) -> length bv = Np (the_network s) ->
  (2 <= length vs)%nat -> length vs = length pores ->
  fst (set_rate_BC pores (array vs) mode s) = Err ValueError.
Proof.
  intros Hr Hv Hlr Hlv H2 Hl.
  destruct s as [net g st A pA b pb br' bv' q]. simpl in *. subst.
  assert (Hsz : negb ((1 <? length vs)%nat && negb (length vs =? length pores)%nat) = true).
  { rewrite Hl, Nat.eqb_refl. simpl. now rewrite andb_false_r. }
  pose proof (length_intersect_setdiff (toindices (isfinite br)) pores) as Hc.
  set (I := intersect1d (toindices (isfinite br)) pores) in *.
  assert (HD : length I = length vs ->
               length vs <> length (setdiff1d pores I)) by lia.
  assert (HIb : in_bounds I (Np net) = true).
  { apply in_bounds_intersect_rate. exact Hlr. }
  destruct mode;
    unfold set_rate_BC, _set_BC, size, all_nan; rewrite Hsz; mrun;
    rewrite !length_isfinite, Hlv, Hlr, !Nat.eqb_refl; mrun;
    unfold add_at; fold I;
    rewrite ?repeat_length, ?Hlr, HIb; mrun;
    (destruct (Nat.eq_dec (length vs) (length I)) as [He|He];
     [ rewrite <- He, broadcast_array_same; mrun;
       unfold assign_at;
       rewrite (broadcast_array_mismatch vs _ H2 (HD (eq_sym He))); reflexivity
     | rewrite (broadcast_array_mismatch vs _ H2 He); reflexivity ]).
Qed.

Lemma in_bounds_seq (n : nat) : in_bounds (seq 0 n) n = true.
Proof. apply in_bounds_true. intros i Hi. apply in_seq in Hi. lia. Qed.

Lemma nth_nan_at (a : farray) (P : list nat) (k : nat) :
  (k < length a)%nat ->
  nth k (put_at a P (repeat None (length P))) None =
  if isin k P then None else nth k a None.
Proof.
  intros Hk. rewrite map_repeat_idx. now rewrite nth_put_at_map.
Qed.

(** [remove_BC] on a store with one entry per pore. *)
Lemma remove_BC_eval (s : alg) (br bv : farray) (pores : option (list nat))
    (bctype : list string) :
  bc_rate s = Some br -> bc_value s = Some bv ->
  length br = Np (the_network s) -> length bv = Np (the_network s) ->
  let P := match pores with None => seq 0 (Np (the_network s)) | Some p => p end in
  let rm t := existsb (String.eqb "all") bctype || existsb (String.eqb t) bctype in
  in_bounds P (Np (the_network s)) = true ->
  exists bv' br',
    remove_BC pores bctype s =
      (Ok tt, set_bc_rate (Some br') (set_bc_value (Some bv') s)) /\
    length bv' = Np (the_network s) /\ length br' = Np (the_network s) /\
    (forall k, (k < Np (the_network s))%nat ->
       nth k bv' None =
       if rm "value"%string && isin k P then None else nth k bv None) /\
    (forall k, (k < Np (the_network s))%nat ->
       nth k br' None =
       if rm "rate"%string && isin k P then None else nth k br None).
Proof.
  intros Hr Hv Hlr Hlv.
  destruct s as [net g st A pA b pb br0 bv0 q].
  simpl in Hr, Hv, Hlr, Hlv. subst br0 bv0.
  change (Np (the_network (mkalg net g st A pA b pb (Some br) (Some bv) q)))
    with (Np net).
  intros P rm Hb.
  assert (Hall_v : existsb (String.eqb "value") ["value"; "rate"]%string = true)
    by reflexivity.
  assert (Hall_r : existsb (String.eqb "rate") ["value"; "rate"]%string = true)
    by reflexivity.
  exists (if rm "value"%string then put_at bv P (repeat None (length P)) else bv),
         (if rm "rate"%string then put_at br P (repeat None (length P)) else br).
  split; [|split; [|split; [|split]]].
  - unfold remove_BC, nan_at. mrun. fold P. subst rm. cbv beta.
    destruct (existsb (String.eqb "all") bctype); cbn [orb].
    + rewrite Hall_v, Hall_r. rewrite Hlv, Hb. mrun. rewrite Hlr, Hb. mrun.
      reflexivity.
    + destruct (existsb (String.eqb "value") bctype);
        destruct (existsb (String.eqb "rate") bctype); mrun;
        rewrite ?Hlv, ?Hlr, ?Hb; mrun; rewrite ?Hlv, ?Hlr, ?Hb; mrun;
        reflexivity.
  - destruct (rm "value"%string); [now rewrite length_put_at | exact Hlv].
  - destruct (rm "rate"%string); [now rewrite length_put_at | exact Hlr].
  - intros k Hk. destruct (rm "value"%string); cbn [andb]; [|reflexivity].
    apply nth_nan_at. lia.
  - intros k Hk. destruct (rm "rate"%string); cbn [andb]; [|reflexivity].
    apply nth_nan_at. lia.
Qed.

Lemma list_eq_nth {A : Type} (d : A) (l l' : list A) :
  length l = length l' ->
  (forall k, (k < length l)%nat -> nth k l d = nth k l' d) -> l = l'.
Proof. intros Hl H. apply (nth_ext l l' d d Hl H). Qed.

(** X1.  [set_value_BC] with one value [v], on a store with one entry per
    pore and pores inside the network: afterwards every requested pore holds
    [v] (the last write wins over a value held before), a pore outside the
    request keeps its entry in merge mode and is unset in overwrite mode,
    and nothing but the value array has changed. *)
Theorem set_value_BC_scalar_writes (s : alg) (br bv : farray)
    (pores : list nat) (v : Q) (mode : bcmode) :
  bc_rate s = Some br -> bc_value s = Some bv ->
  length br = Np (the_network s) -> length bv = Np (the_network s) ->
  in_bounds pores (Np (the_network s)) = true ->
  exists bv',
    set_value_BC pores (scalar v) mode s = (Ok tt, set_bc_value (Some bv') s) /\
    (forall k, In k pores -> nth k bv' None = Some v) /\
    (forall k, (k < Np (the_network s))%nat -> ~ In k pores ->
       nth k bv' None =
       match mode with merge => nth k bv None | overwrite => None end).
Proof.
  intros Hr Hv Hlr Hlv Hb.
  destruct (set_value_BC_scalar_eval s br bv pores v mode Hr Hv Hlr Hlv Hb)
    as [bv' [He [Hl Hn]]].
  exists bv'. split; [exact He|]. split.
  - intros k Hk. rewrite in_bounds_true in Hb. rewrite (Hn k (Hb k Hk)).
    apply isin_true in Hk. now rewrite Hk.
  - intros k Hk Hnot. rewrite (Hn k Hk).
    apply isin_false in Hnot. now rewrite Hnot.
Qed.

Lemma set_value_BC_scalar_writes_witness :
  exists bv',
    set_value_BC [1; 2]%nat (scalar (7 # 2)) merge Exact.chain5_bcs =
      (Ok tt, set_bc_value (Some bv') Exact.chain5_bcs) /\
    (forall k, In k [1; 2]%nat -> nth k bv' None = Some (7 # 2)) /\
    (forall k, (k < 5)%nat -> ~ In k [1; 2]%nat ->
       nth k bv' None = nth k [Some 1; None; None; None; Some 0] None).
Proof.
  apply (set_value_BC_scalar_writes Exact.chain5_bcs (repeat None 5)
           [Some 1; None; None; None; Some 0] [1; 2]%nat (7 # 2) merge);
    reflexivity.
Defined.

Lemma set_value_BC_array_writes_witness :
  exists bv',
    set_value_BC [3; 1]%nat (array [5; 6]) overwrite Exact.chain5_bcs =
      (Ok tt, set_bc_value (Some bv') Exact.chain5_bcs) /\
    (forall i, (i < 2)%nat ->
       nth (nth i [3; 1]%nat 0%nat) bv' None = Some (nth i [5; 6] 0)) /\
    (forall k, ~ In k [3; 1]%nat -> nth k bv' None = None).
Proof.
  apply (set_value_BC_array_writes Exact.chain5_bcs (repeat None 5)
           [Some 1; None; None; None; Some 0] [3; 1]%nat [5; 6] overwrite);
    try reflexivity.
  repeat constructor; simpl; intuition lia.
Defined.

Lemma set_BC_size_mismatch_raises_witness :
  _set_BC [0; 1; 2]%nat Rate (array [5; 6]) merge Exact.chain5_bcs =
  (Err (Exception "The number of boundary values must match the number of locations"),
   Exact.chain5_bcs).
Proof.
  apply (set_BC_size_mismatch_raises Exact.chain5_bcs [0; 1; 2]%nat Rate
           [5; 6] merge).
  - simpl. lia.
  - simpl. lia.
Defined.

Lemma set_rate_BC_array_raises_witness :
  fst (set_rate_BC [0; 1]%nat (array [5; 6]) merge Exact.chain5_alg)
  = Err ValueError.
Proof.
  apply (set_rate_BC_array_raises Exact.chain5_alg (repeat None 5)
           (repeat None 5) [0; 1]%nat [5; 6] merge); reflexivity.
Defined.

(** X5.  [remove_BC] on a store with one entry per pore, for pores inside
    the network (all the pores when none are given): a kind is cleared when
    the type list names it or names ['all']; a cleared kind is unset at
    every requested pore and keeps its entry everywhere else; a kind that
    is not named keeps all its entries; nothing else changes. *)
Theorem remove_BC_clears_requested (s : alg) (br bv : farray)
    (pores : option (list nat)) (bctype : list string) :
  bc_rate s = Some br -> bc_value s = Some bv ->
  length br = Np (the_network s) -> length bv = Np (the_network s) ->
  let P := match pores with None => seq 0 (Np (the_network s)) | Some p => p end in
  let rm t := existsb (String.eqb "all") bctype || existsb (String.eqb t) bctype in
  in_bounds P (Np (the_network s)) = true ->
  exists bv' br',
    remove_BC pores bctype s =
      (Ok tt, set_bc_rate (Some br') (set_bc_value (Some bv') s)) /\
    (forall k, (k < Np (the_network s))%nat ->
       (rm "value"%string = true -> In k P -> nth k bv' None = None) /\
       (rm "value"%string = false \/ ~ In k P -> nth k bv' None = nth k bv None) /\
       (rm "rate"%string = true -> In k P -> nth k br' None = None) /\
       (rm "rate"%string = false \/ ~ In k P -> nth k br' None = nth k br None)).
Proof.
  intros Hr Hv Hlr Hlv P rm Hb.
  destruct (remove_BC_eval s br bv pores bctype Hr Hv Hlr Hlv Hb)
    as [bv' [br' [He [_ [_ [Hnv Hnr]]]]]].
  exists bv', br'. split; [exact He|].
  intros k Hk. cbv zeta in Hnv, Hnr.
  rewrite (Hnv k Hk), (Hnr k Hk). subst rm P. cbv beta.
  destruct (existsb (String.eqb "all") bctype
            || existsb (String.eqb "value") bctype);
    destruct (existsb (String.eqb "all") bctype
              || existsb (String.eqb "rate") bctype);
    destruct (isin k _) eqn:Hin; cbn [andb];
    repeat split; try reflexivity; try discriminate;
    try (intros _ H; apply isin_true in H; congruence);
    try (intros [H|H]; [discriminate | apply isin_true in Hin; contradiction]).
Qed.

Lemma remove_BC_clears_requested_witness :
  exists bv' br',
    remove_BC (Some [0%nat]) ["value"]%string Exact.chain5_bcs =
      (Ok tt, set_bc_rate (Some br') (set_bc_value (Some bv') Exact.chain5_bcs)) /\
    (forall k, (k < 5)%nat ->
       (existsb (String.eqb "all") ["value"]%string
        || existsb (String.eqb "value") ["value"]%string = true ->
        In k [0%nat] -> nth k bv' None = None) /\
       (existsb (String.eqb "all") ["value"]%string
        || existsb (String.eqb "value") ["value"]%string = false
        \/ ~ In k [0%nat] ->
        nth k bv' None = nth k [Some 1; None; None; None; Some 0] None) /\
       (existsb (String.eqb "all") ["value"]%string
        || existsb (String.eqb "rate") ["value"]%string = true ->
        In k [0%nat] -> nth k br' None = None) /\
       (existsb (String.eqb "all") ["value"]%string
        || existsb (String.eqb "rate") ["value"]%string = false
        \/ ~ In k [0%nat] ->
        nth k br' None = nth k (repeat None 5) None)).
Proof.
  apply (remove_BC_clears_requested Exact.chain5_bcs (repeat None 5)
           [Some 1; None; None; None; Some 0] (Some [0%nat]) ["value"]%string);
    reflexivity.
Defined.

Lemma state_with_same_store (s : alg) (br bv : farray) (bv1 : farray) :
  bc_rate s = Some br -> bc_value s = Some bv ->
  set_bc_rate (Some br) (set_bc_value (Some bv) (set_bc_value (Some bv1) s)) = s.
Proof.
  intros Hr Hv. destruct s; simpl in *. now subst.
Qed.

Lemma state_with_same_store_rate (s : alg) (br bv : farray) (br1 : farray) :
  bc_rate s = Some br -> bc_value s = Some bv ->
  set_bc_rate (Some br) (set_bc_value (Some bv) (set_bc_rate (Some br1) s)) = s.
Proof.
  intros Hr Hv. destruct s; simpl in *. now subst.
Qed.

(** X6.  Setting and removing is a round trip: on pores that hold no value,
    [set_value_BC] in merge mode followed by [remove_BC] of the kind
    ['value'] at the same pores returns the object to exactly the state
    before; and so does [set_rate_BC] in merge mode followed by [remove_BC]
    of the kind ['rate'] on pores that hold no rate. *)
Theorem set_then_remove_is_identity (s : alg) (br bv : farray)
    (P : list nat) (v : Q) :
  bc_rate s = Some br -> bc_value s = Some bv ->
  length br = Np (the_network s) -> length bv = Np (the_network s) ->
  in_bounds P (Np (the_network s)) = true ->
  ((forall k, In k P -> nth k bv None = None) ->
   (set_value_BC P (scalar v) merge ;;
    remove_BC (Some P) ["value"]%string) s = (Ok tt, s)) /\
  ((forall k, In k P -> nth k br None = None) ->
   (set_rate_BC P (scalar v) merge ;;
    remove_BC (Some P) ["rate"]%string) s = (Ok tt, s)).
Proof.
  intros Hr Hv Hlr Hlv Hb. split; intros Hfree.
  - destruct (set_value_BC_scalar_eval s br bv P v merge Hr Hv Hlr Hlv Hb)
      as [bv1 [He1 [Hl1 Hn1]]].
    set (s1 := set_bc_value (Some bv1) s) in *.
    destruct (remove_BC_eval s1 br bv1 (Some P) ["value"]%string
                Hr eq_refl Hlr Hl1 Hb) as [bv2 [br2 [He2 [Hl2 [Hl3 [Hn2 Hn3]]]]]].
    change (Np (the_network s1)) with (Np (the_network s)) in Hl2, Hl3, Hn2, Hn3.
    unfold bind. rewrite He1, He2. f_equal.
    assert (Hbv : bv2 = bv).
    { apply (list_eq_nth None); [congruence|]. intros k Hk.
      rewrite Hn2 by lia.
      change (existsb (String.eqb "all") ["value"]%string
              || existsb (String.eqb "value") ["value"]%string) with true.
      cbn [andb]. destruct (isin k P) eqn:Hin.
      - apply isin_true in Hin. now rewrite Hfree.
      - rewrite Hn1 by lia. now rewrite Hin. }
    assert (Hbr : br2 = br).
    { apply (list_eq_nth None); [congruence|]. intros k Hk.
      rewrite Hn3 by lia. reflexivity. }
    subst bv2 br2. unfold s1. now apply state_with_same_store.
  - pose proof (set_rate_BC_merge_eval s br bv P v Hr Hv Hlr Hlv Hb) as He1.
    set (br1 := merged_rate br P v) in *.
    set (s1 := set_bc_rate (Some br1) s) in *.
    assert (Hl1 : length br1 = Np (the_network s1)).
    { unfold br1. now rewrite length_merged_rate. }
    destruct (remove_BC_eval s1 br1 bv (Some P) ["rate"]%string
                eq_refl Hv Hl1 Hlv Hb) as [bv2 [br2 [He2 [Hl2 [Hl3 [Hn2 Hn3]]]]]].
    change (Np (the_network s1)) with (Np (the_network s)) in Hl1, Hl2, Hl3, Hn2, Hn3.
    unfold bind. rewrite He1, He2. f_equal.
    assert (Hbv : bv2 = bv).
    { apply (list_eq_nth None); [congruence|]. intros k Hk.
      rewrite Hn2 by lia. reflexivity. }
    assert (Hbr : br2 = br).
    { apply (list_eq_nth None).
      - congruence.
      - intros k Hk.
        rewrite Hn3 by lia.
        change (existsb (String.eqb "all") ["rate"]%string
                || existsb (String.eqb "rate") ["rate"]%string) with true.
        cbn [andb]. destruct (isin k P) eqn:Hin.
        + apply isin_true in Hin. now rewrite Hfree.
        + unfold br1. rewrite nth_merged_rate by lia. now rewrite Hin. }
    subst bv2 br2. unfold s1.
    destruct s; simpl in *. now subst.
Qed.

Lemma set_then_remove_is_identity_witness :
  ((forall k, In k [1; 2]%nat ->
      nth k [Some 1; None; None; None; Some 0] None = None) ->
   (set_value_BC [1; 2]%nat (scalar 3) merge ;;
    remove_BC (Some [1; 2]%nat) ["value"]%string) Exact.chain5_bcs
   = (Ok tt, Exact.chain5_bcs)) /\
  ((forall k, In k [1; 2]%nat -> nth k (repeat (@None Q) 5) None = None) ->
   (set_rate_BC [1; 2]%nat (scalar 3) merge ;;
    remove_BC (Some [1; 2]%nat) ["rate"]%string) Exact.chain5_bcs
   = (Ok tt, Exact.chain5_bcs)).
Proof.
  apply (set_then_remove_is_identity Exact.chain5_bcs (repeat None 5)
           [Some 1; None; None; None; Some 0] [1; 2]%nat 3); reflexivity.
Defined.

(** X7.  On a store with one entry per pore, [remove_BC()] with its
    defaults (all the pores, both kinds) does what [reset(results=False)]
    does: both leave the two arrays entirely unset and change nothing
    else. *)
Theorem remove_BC_default_is_reset (s : alg) (br bv : farray) :
  bc_rate s = Some br -> bc_value s = Some bv ->
  length br = Np (the_network s) -> length bv = Np (the_network s) ->
  remove_BC None ["all"]%string s = reset true false false s /\
  reset true false false s =
  (Ok tt, set_bc_rate (Some (all_nan (Np (the_network s))))
            (set_bc_value (Some (all_nan (Np (the_network s)))) s)).
Proof.
  intros Hr Hv Hlr Hlv.
  assert (Hreset : reset true false false s =
    (Ok tt, set_bc_rate (Some (all_nan (Np (the_network s))))
              (set_bc_value (Some (all_nan (Np (the_network s)))) s))).
  { destruct s. reflexivity. }
  split; [|exact Hreset]. rewrite Hreset.
  destruct (remove_BC_eval s br bv None ["all"]%string Hr Hv Hlr Hlv
              (in_bounds_seq _)) as [bv' [br' [He [Hl1 [Hl2 [Hn1 Hn2]]]]]].
  rewrite He.
  assert (Hall : forall (a a' : farray),
            length a' = Np (the_network s) ->
            (forall k, (k < Np (the_network s))%nat ->
               nth k a' None =
               if true && isin k (seq 0 (Np (the_network s)))
               then None else nth k a None) ->
            a' = all_nan (Np (the_network s))).
  { intros a a' Hl Hn. apply (list_eq_nth None).
    - unfold all_nan. now rewrite repeat_length.
    - intros k Hk. rewrite Hn by lia. rewrite isin_seq.
      destruct (Nat.ltb_spec k (Np (the_network s))); [|lia].
      unfold all_nan. now rewrite nth_repeat. }
  rewrite (Hall bv bv' Hl1 Hn1), (Hall br br' Hl2 Hn2). reflexivity.
Qed.

Lemma remove_BC_default_is_reset_witness :
  remove_BC None ["all"]%string Exact.chain5_bcs
  = reset true false false Exact.chain5_bcs /\
  reset true false false Exact.chain5_bcs =
  (Ok tt, set_bc_rate (Some (all_nan 5))
            (set_bc_value (Some (all_nan 5)) Exact.chain5_bcs)).
Proof.
  apply (remove_BC_default_is_reset Exact.chain5_bcs (repeat None 5)
           [Some 1; None; None; None; Some 0]); reflexivity.
Defined.

(** X8.  On an object that holds no solution (before any run, or after
    [reset]), every reader fails and leaves the object alone: [results]
    raises [KeyError], [rate] raises [KeyError] whatever its arguments are
    (the lookup comes before the check of the arguments), and
    [_calc_eff_prop] raises its exception that the algorithm has not been
    run. *)
Theorem readers_raise_without_solution (s : alg) :
  quantity s = None ->
  results s = (Err KeyError, s) /\
  (forall pores throats mode, rate pores throats mode s = (Err KeyError, s)) /\
  (forall G inlets outlets area len,
     _calc_eff_prop G inlets outlets area len s =
     (Err (Exception "The algorithm has not been run yet. Cannot calculate effective property."), s)) /\
  (forall s0 bcs phase, quantity (snd (reset bcs true phase s0)) = None).
Proof.
  intros Hq. split; [|split; [|split]].
  - unfold results, lookup. now rewrite Hq.
  - intros pores throats mode. unfold rate, bind, gets, lookup.
    destruct (phase_conductance s); now rewrite ?Hq.
  - intros G inlets outlets area len.
    unfold _calc_eff_prop, bind, gets, guard. now rewrite Hq.
  - intros s0 bcs phase. destruct s0, bcs, phase; reflexivity.
Qed.

Lemma readers_raise_without_solution_witness :
  results Exact.chain5_bcs = (Err KeyError, Exact.chain5_bcs) /\
  (forall pores throats mode,
     rate pores throats mode Exact.chain5_bcs = (Err KeyError, Exact.chain5_bcs)) /\
  (forall G inlets outlets area len,
     _calc_eff_prop G inlets outlets area len Exact.chain5_bcs =
     (Err (Exception "The algorithm has not been run yet. Cannot calculate effective property."),
      Exact.chain5_bcs)) /\
  (forall s0 bcs phase, quantity (snd (reset bcs true phase s0)) = None).
Proof.
  apply (readers_raise_without_solution Exact.chain5_bcs). reflexivity.
Defined.

(* ------------------------------------------------------------------ *)
(** ** The builders and the properties [A] and [b] *)

(** X9.  The cache of the matrix builder.  With [cache_A] on and a pure
    matrix present, [_build_A] hands out that matrix as the working copy
    without reading the phase, so it succeeds whatever the conductance has
    become since, even when its key is gone.  Without a usable cache a
    missing conductance raises [KeyError]: the working copy is untouched
    and no pure matrix is left. *)
Theorem build_A_cache_discipline (E : env) (s : alg) :
  (forall P, cache_A (the_settings s) = true -> _pure_A s = Some P ->
     forall g', _build_A E (set_phase_conductance g' s) =
                (Ok tt, set_A (Some P) (set_phase_conductance g' s))) /\
  (phase_conductance s = None ->
   cache_A (the_settings s) = false \/ _pure_A s = None ->
   _build_A E s = (Err KeyError, set_pure_A None s)).
Proof.
  split.
  - intros P Hc Hp g'. destruct s as [net g st A pA b pb br bv q].
    simpl in Hc, Hp. subst pA. unfold _build_A, set_phase_conductance. mrun.
    rewrite Hc. mrun. reflexivity.
  - intros Hg Hc. destruct s as [net g st A pA b pb br bv q].
    simpl in Hg, Hc. subst g. unfold _build_A. mrun.
    destruct Hc as [Hc|Hc].
    + rewrite Hc. mrun. reflexivity.
    + subst pA. destruct (cache_A st); mrun; reflexivity.
Qed.

(** X10.  [_build_b] never raises.  It leaves the same vector as pure and
    as working copy: the cached pure vector when [cache_b] is on and one is
    present, otherwise a new vector of [Np] zeros. *)
Theorem build_b_total (s : alg) :
  exists z,
    _build_b s = (Ok tt, set_b (Some z) (set_pure_b (Some z) s)) /\
    (cache_b (the_settings s) = false \/ _pure_b s = None ->
     z = zeros (Np (the_network s))) /\
    (forall p, cache_b (the_settings s) = true -> _pure_b s = Some p -> z = p).
Proof.
  destruct s as [net g st A pA b pb br bv q]. unfold _build_b.
  destruct (cache_b st) eqn:Hc; [destruct pb as [p|]|].
  - exists p. mrun. rewrite Hc. mrun. repeat split.
    + intros [H|H]; discriminate.
    + intros p' _ H. simpl in H. congruence.
  - exists (zeros (Np net)). mrun. rewrite Hc. mrun. repeat split.
    intros p _ H. discriminate.
  - exists (zeros (Np net)). mrun. rewrite Hc. mrun. repeat split.
    intros p H. simpl in H. congruence.
Qed.

Lemma build_A_ok_sets_A (E : env) (s s1 : alg) :
  _build_A E s = (Ok tt, s1) -> exists A, _A s1 = Some A.
Proof.
  destruct s as [net g st A pA b pb br bv q]. unfold _build_A. mrun.
  destruct (cache_A st); mrun.
  - destruct pA as [P|]; mrun.
    + intros H; inversion H; subst. simpl. eauto.
    + destruct g as [[w|w]|]; mrun.
      * destruct (create_adjacency_matrix net w); mrun;
          intros H; inversion H; subst; simpl; eauto.
      * destruct (adjacency_directed E net w); mrun;
          intros H; inversion H; subst; simpl; eauto.
      * intros H; inversion H.
  - destruct g as [[w|w]|]; mrun.
    + destruct (create_adjacency_matrix net w); mrun;
        intros H; inversion H; subst; simpl; eauto.
    + destruct (adjacency_directed E net w); mrun;
        intros H; inversion H; subst; simpl; eauto.
    + intros H; inversion H.
Qed.

(** X11.  The property [A] is built once.  After a successful read of
    [self.A], every later read returns the same matrix and changes nothing,
    whatever has been done to the conductance of the phase in between: the
    working copy does not follow the phase. *)
Theorem get_A_is_built_once (E : env) (s s1 : alg) (a : option coo) :
  _get_A E s = (Ok a, s1) ->
  (exists A, a = Some A) /\
  forall g', _get_A E (set_phase_conductance g' s1) =
             (Ok a, set_phase_conductance g' s1).
Proof.
  intros H.
  assert (Ha : exists A, a = Some A /\ _A s1 = Some A).
  { unfold _get_A, bind, gets, ret in H.
    destruct (_A s) as [A|] eqn:HA.
    - inversion H; subst. exists A. now rewrite HA.
    - destruct (_build_A E s) as [[[]|e] s2] eqn:Hb; [|discriminate].
      inversion H; subst.
      destruct (build_A_ok_sets_A E s s1 Hb) as [A HA1].
      exists A. now rewrite HA1. }
  destruct Ha as [A [-> HA]]. split; [now exists A|].
  intros g'. unfold _get_A, bind, gets, ret.
  destruct s1; simpl in *. now rewrite HA.
Qed.

Lemma get_A_is_built_once_witness :
  (exists A, Some Exact.chain5_L = Some A) /\
  forall g', _get_A Exact.exact_env
               (set_phase_conductance g'
                  (set_A (Some Exact.chain5_L)
                     (set_pure_A (Some Exact.chain5_L) Exact.chain5_alg))) =
             (Ok (Some Exact.chain5_L),
              set_phase_conductance g'
                (set_A (Some Exact.chain5_L)
                   (set_pure_A (Some Exact.chain5_L) Exact.chain5_alg))).
Proof.
  apply (get_A_is_built_once Exact.exact_env Exact.chain5_alg).
  vm_compute. reflexivity.
Defined.

(* ------------------------------------------------------------------ *)
(** ** More on the elimination *)

Lemma coo_wf_value_step_A (A : coo) (bv : farray) :
  coo_wf A -> coo_wf (value_step_A A bv).
Proof.
  intros H. unfold value_step_A.
  apply coo_wf_eliminate_zeros, coo_wf_setdiag, coo_wf_zero. exact H.
Qed.

(** X12.  [_apply_BCs] keeps the matrix symmetric: on a working system of
    consistent sizes whose matrix is symmetric, the matrix it leaves is
    symmetric, of the same shape, with all its coordinates inside the
    shape. *)
Theorem apply_BCs_keeps_symmetry
    (E : env) (s : alg) (A0 : coo) (b0 : vec) (bv : farray) :
  _A s = Some A0 -> _b s = Some b0 -> bc_value s = Some bv ->
  coo_wf A0 -> length b0 = shape A0 -> length bv = shape A0 ->
  opt_all (fun br => length br = shape A0) (bc_rate s) ->
  symmetric A0 ->
  exists A',
    fst (_apply_BCs E s) = Ok tt /\
    _A (snd (_apply_BCs E s)) = Some A' /\
    symmetric A' /\ shape A' = shape A0 /\ coo_wf A'.
Proof.
  intros HA Hb Hv Hwf Hlb Hlv Hr Hsym.
  exists (value_step_A A0 bv).
  rewrite (apply_BCs_eval E s A0 b0 bv HA Hb Hv Hlb Hlv Hr).
  split; [reflexivity|]. split; [reflexivity|]. split; [|split].
  - intros i j. rewrite !get_value_step_A by assumption.
    rewrite (Nat.eqb_sym j i).
    destruct (Nat.eqb_spec i j) as [->|Hij]; [reflexivity|].
    destruct (nth i bv None), (nth j bv None); try reflexivity. apply Hsym.
  - reflexivity.
  - now apply coo_wf_value_step_A.
Qed.

Lemma chain5_L_symmetric : symmetric Exact.chain5_L.
Proof.
  intros i j.
  destruct i as [|[|[|[|[|i]]]]], j as [|[|[|[|[|j]]]]];
    vm_compute; reflexivity.
Qed.

Lemma apply_BCs_keeps_symmetry_witness :
  exists A',
    fst (_apply_BCs Exact.exact_env Exact.chain5_bcs) = Ok tt /\
    _A (snd (_apply_BCs Exact.exact_env Exact.chain5_bcs)) = Some A' /\
    symmetric A' /\ shape A' = 5%nat /\ coo_wf A'.
Proof.
  apply (apply_BCs_keeps_symmetry Exact.exact_env Exact.chain5_bcs
           Exact.chain5_L (zeros 5) [Some 1; None; None; None; Some 0]).
  - reflexivity.
  - reflexivity.
  - reflexivity.
  - unfold coo_wf; simpl. repeat constructor.
  - reflexivity.
  - reflexivity.
  - simpl. reflexivity.
  - exact chain5_L_symmetric.
Defined.

(** X13.  [_apply_BCs] leaves alone what it does not eliminate: between two
    pores that hold no value, and on the diagonal of such a pore, the matrix
    has the entries it had; and it stores no explicit zero. *)
Theorem apply_BCs_keeps_free_block
    (E : env) (s : alg) (A0 : coo) (b0 : vec) (bv : farray) :
  _A s = Some A0 -> _b s = Some b0 -> bc_value s = Some bv ->
  coo_wf A0 -> length b0 = shape A0 -> length bv = shape A0 ->
  opt_all (fun br => length br = shape A0) (bc_rate s) ->
  exists A',
    _A (snd (_apply_BCs E s)) = Some A' /\
    (forall i j, (i < shape A0)%nat -> (j < shape A0)%nat ->
       nth i bv None = None -> nth j bv None = None ->
       get A' i j == get A0 i j) /\
    Forall (fun e => ~ edata e == 0) (entries A').
Proof.
  intros HA Hb Hv Hwf Hlb Hlv Hr.
  exists (value_step_A A0 bv).
  rewrite (apply_BCs_eval E s A0 b0 bv HA Hb Hv Hlb Hlv Hr).
  split; [reflexivity|]. split.
  - intros i j Hi Hj Hni Hnj. rewrite get_value_step_A by assumption.
    rewrite Hni, Hnj.
    destruct (Nat.eqb_spec i j) as [->|Hij]; [|reflexivity].
    destruct (Nat.ltb_spec j (shape A0)); [reflexivity|lia].
  - unfold value_step_A, eliminate_zeros. cbn [entries].
    apply Forall_forall. intros e He. apply filter_In in He.
    destruct He as [_ He]. apply negb_true_iff in He.
    intros H. apply Qeq_bool_iff in H. congruence.
Qed.

Lemma apply_BCs_keeps_free_block_witness :
  exists A',
    _A (snd (_apply_BCs Exact.exact_env Exact.chain5_bcs)) = Some A' /\
    (forall i j, (i < 5)%nat -> (j < 5)%nat ->
       nth i [Some 1; None; None; None; Some 0] None = None ->
       nth j [Some 1; None; None; None; Some 0] None = None ->
       get A' i j == get Exact.chain5_L i j) /\
    Forall (fun e => ~ edata e == 0) (entries A').
Proof.
  apply (apply_BCs_keeps_free_block Exact.exact_env Exact.chain5_bcs
           Exact.chain5_L (zeros 5) [Some 1; None; None; None; Some 0]).
  - reflexivity.
  - reflexivity.
  - reflexivity.
  - unfold coo_wf; simpl. repeat constructor.
  - reflexivity.
  - reflexivity.
  - simpl. reflexivity.
Defined.

(* ------------------------------------------------------------------ *)
(** ** What a run leaves alone *)

Lemma same_inputs_refl s : same_inputs s s.
Proof. repeat split. Qed.

Lemma same_inputs_trans s1 s2 s3 :
  same_inputs s1 s2 -> same_inputs s2 s3 -> same_inputs s1 s3.
Proof.
  unfold same_inputs. intros [H1 [H2 [H3 [H4 H5]]]] [G1 [G2 [G3 [G4 G5]]]].
  repeat split; congruence.
Qed.

Lemma build_A_same_inputs (E : env) : preserves same_inputs (_build_A E).
Proof.
  unfold _build_A.
  frame same_inputs_refl same_inputs_trans same_inputs_refl same_inputs_refl.
Qed.

Lemma build_b_same_inputs : preserves same_inputs _build_b.
Proof.
  unfold _build_b.
  frame same_inputs_refl same_inputs_trans same_inputs_refl same_inputs_refl.
Qed.

Lemma run_same_inputs (E : env) (x0 : option vec) :
  preserves same_inputs (run E x0).
Proof.
  pose proof (build_A_same_inputs E) as HA.
  unfold run, _run_generic, _apply_BCs, _solve, _get_rtol, _get_residual,
    _get_atol, _get_A, _get_b.
  frame same_inputs_refl same_inputs_trans HA build_b_same_inputs.
Qed.

(** X14.  A run, whether it returns or raises, never changes what the caller
    gave: the network, the conductance of the phase, the settings and the
    two boundary-condition arrays are the same after it; and with caching
    on, a pure matrix or vector that was cached is the same after it. *)
Theorem run_changes_only_system_and_result (E : env) (x0 : option vec) (s : alg) :
  let s' := snd (run E x0 s) in
  the_network s' = the_network s /\
  phase_conductance s' = phase_conductance s /\
  the_settings s' = the_settings s /\
  bc_rate s' = bc_rate s /\
  bc_value s' = bc_value s /\
  (forall P, cache_A (the_settings s) = true -> _pure_A s = Some P ->
     _pure_A s' = Some P) /\
  (forall p, cache_b (the_settings s) = true -> _pure_b s = Some p ->
     _pure_b s' = Some p).
Proof.
  intros s'. subst s'.
  destruct (run E x0 s) as [r s'] eqn:H. cbn [snd].
  destruct (run_same_inputs E x0 s r s' H) as [H1 [H2 [H3 [H4 H5]]]].
  destruct (run_keeps_pure E x0 s r s' H) as [_ [G1 G2]].
  repeat split; try assumption.
  - intros P Hc HP. rewrite G1; [exact HP | exact Hc | congruence].
  - intros p Hc Hp. rewrite G2; [exact Hp | exact Hc | congruence].
Qed.

(** X15.  The stored solution changes only when a run succeeds.  A run that
    raises, in the elimination, in the solver or in between, leaves the
    solution of an earlier run (or its absence) as it was; a run that
    returns has stored a solution. *)
Theorem run_stores_only_on_success (E : env) (x0 : option vec) (s : alg) :
  match fst (run E x0 s) with
  | Ok _ => exists x, quantity (snd (run E x0 s)) = Some x
  | Err _ => quantity (snd (run E x0 s)) = quantity s
  end.
Proof.
  assert (get_b_same_quantity : preserves same_quantity (deref _get_b)).
  { unfold _get_b.
    frame same_quantity_refl same_quantity_trans build_b_same_quantity
          build_b_same_quantity. }
  destruct (run E x0 s) as [r s'] eqn:H. cbn [fst snd].
  unfold run, _run_generic in H. unfold bind at 1 in H.
  destruct (_apply_BCs E s) as [[[]|e] s1] eqn:H1;
    pose proof (apply_BCs_same_quantity E s _ s1 H1) as Q1;
    [|inversion H; subst; exact Q1].
  unfold bind at 1 in H.
  destruct (deref _get_b s1) as [[b|e] s2] eqn:H2;
    pose proof (get_b_same_quantity s1 _ s2 H2) as Q2;
    [|inversion H; subst; unfold same_quantity in *; congruence].
  unfold bind at 1 in H.
  destruct (_solve E None None (Some (zeros (length b))) s2) as [[x|e] s3] eqn:H3;
    pose proof (solve_same_quantity E _ _ _ s2 _ s3 H3) as Q3;
    [|inversion H; subst; unfold same_quantity in *; congruence].
  inversion H; subst. exists x. reflexivity.
Qed.

(* ------------------------------------------------------------------ *)
(** ** The choice of the solver *)

(** Runs [_solve] on a built system up to the test of symmetry. *)
Ltac solve_prelude s A b x0 Hl Hx :=
  destruct s as [net g st A' pA b' pb br bv q];
  destruct st as [fam typ pre tol atol rtol mit cA cB];
  cbn [the_settings _A _b solver_family solver_type solver_preconditioner
       solver_tol solver_atol solver_rtol solver_maxiter] in *;
  subst;
  unfold _solve, _get_rtol, _get_residual, _get_atol, mul, vsub;
  assert (Hz : length (zeros (length b)) = shape A)
    by (unfold zeros; now rewrite repeat_length);
  destruct x0 as [x0|]; cbn [opt_all] in Hx;
    destruct atol as [atol|]; destruct rtol as [rtol|]; mrun_settings;
    rewrite ?Hx, ?Hz, ?Nat.eqb_refl; mrun_settings;
    rewrite ?length_matvec, ?Hl, ?Nat.eqb_refl; mrun_settings.

Lemma cg_test_passes (E : env) (A : coo) (typ : string) :
  typ <> "cg"%string \/ is_symmetric E A = true ->
  (typ =? "cg")%string && negb (is_symmetric E A) = false.
Proof.
  intros [H|H].
  - apply String.eqb_neq in H. now rewrite H.
  - rewrite H. apply andb_false_r.
Qed.

(** X16.  A solver family that is none of ['scipy'], ['petsc'] and
    ['pyamg'] is not refused with a message: on a built system whose matrix
    stores at least one entry (the test of symmetry raises on a matrix
    that stores none) and that passes the test of symmetry, none of the
    three branches of [_solve] binds the solution and the final [return x]
    raises [UnboundLocalError]; the object is unchanged. *)
Theorem solve_unknown_family_is_unbound
    (E : env) (s : alg) (A : coo) (b : vec) (x0 : option vec) :
  _A s = Some A -> _b s = Some b -> length b = shape A ->
  entries A <> [] ->
  opt_all (fun x => length x = shape A) x0 ->
  solver_type (the_settings s) <> "cg"%string \/ is_symmetric E A = true ->
  ~ In (solver_family (the_settings s)) ["scipy"; "petsc"; "pyamg"]%string ->
  _solve E None None x0 s = (Err UnboundLocalError, s).
Proof.
  intros HA Hb Hl _ Hx Hcg Hf.
  apply cg_test_passes in Hcg.
  assert (H1 : (solver_family (the_settings s) =? "scipy")%string = false).
  { apply String.eqb_neq. intros H. apply Hf. rewrite H. simpl. tauto. }
  assert (H2 : (solver_family (the_settings s) =? "petsc")%string = false).
  { apply String.eqb_neq. intros H. apply Hf. rewrite H. simpl. tauto. }
  assert (H3 : (solver_family (the_settings s) =? "pyamg")%string = false).
  { apply String.eqb_neq. intros H. apply Hf. rewrite H. simpl. tauto. }
  clear Hf.
  solve_prelude s A b x0 Hl Hx.
  all: rewrite Hcg, H1; mrun_settings; rewrite H2; mrun_settings;
    rewrite H3; reflexivity.
Qed.

Lemma solve_unknown_family_is_unbound_witness :
  _solve Exact.exact_env None None None (Exact.chain5_with "umfpack" "spsolve") =
  (Err UnboundLocalError, Exact.chain5_with "umfpack" "spsolve").
Proof.
  apply (solve_unknown_family_is_unbound Exact.exact_env
           (Exact.chain5_with "umfpack" "spsolve") Exact.chain5_L (zeros 5) None).
  - reflexivity.
  - reflexivity.
  - reflexivity.
  - discriminate.
  - exact I.
  - left. discriminate.
  - intros [H|[H|[H|[]]]]; discriminate.
Defined.

(** X17.  A family whose package is missing is reported by name: on a built
    system whose matrix stores at least one entry and that passes the test
    of symmetry, the family ['petsc'] without PETSc raises the exception
    'PETSc is not installed.' and the family ['pyamg'] without PyAMG raises
    'PyAMG is not installed.'; the object is unchanged. *)
Theorem solve_backend_not_installed
    (E : env) (s : alg) (A : coo) (b : vec) (x0 : option vec) :
  _A s = Some A -> _b s = Some b -> length b = shape A ->
  entries A <> [] ->
  opt_all (fun x => length x = shape A) x0 ->
  solver_type (the_settings s) <> "cg"%string \/ is_symmetric E A = true ->
  (solver_family (the_settings s) = "petsc"%string -> petsc E = None ->
   _solve E None None x0 s = (Err (Exception "PETSc is not installed."), s)) /\
  (solver_family (the_settings s) = "pyamg"%string -> pyamg E = None ->
   _solve E None None x0 s = (Err (Exception "PyAMG is not installed."), s)).
Proof.
  intros HA Hb Hl _ Hx Hcg.
  apply cg_test_passes in Hcg.
  split; intros Hf Hn.
  - solve_prelude s A b x0 Hl Hx.
    all: rewrite Hcg; mrun_settings;
      change ("petsc" =? "scipy")%string with false;
      change ("petsc" =? "petsc")%string with true;
      mrun_settings; rewrite Hn; reflexivity.
  - solve_prelude s A b x0 Hl Hx.
    all: rewrite Hcg; mrun_settings;
      change ("pyamg" =? "scipy")%string with false;
      change ("pyamg" =? "petsc")%string with false;
      change ("pyamg" =? "pyamg")%string with true;
      mrun_settings; rewrite Hn; reflexivity.
Qed.

Lemma solve_backend_not_installed_witness :
  _solve Exact.exact_env None None None (Exact.chain5_with "petsc" "gmres") =
    (Err (Exception "PETSc is not installed."), Exact.chain5_with "petsc" "gmres") /\
  _solve Exact.exact_env None None None (Exact.chain5_with "pyamg" "gmres") =
    (Err (Exception "PyAMG is not installed."), Exact.chain5_with "pyamg" "gmres").
Proof.
  split.
  - apply (solve_backend_not_installed Exact.exact_env
             (Exact.chain5_with "petsc" "gmres") Exact.chain5_L (zeros 5) None);
      try reflexivity; try exact I; [discriminate | left; discriminate].
  - apply (solve_backend_not_installed Exact.exact_env
             (Exact.chain5_with "pyamg" "gmres") Exact.chain5_L (zeros 5) None);
      try reflexivity; try exact I; [discriminate | left; discriminate].
Defined.

(** X18.  The exit code of an iterative scipy solver.  On a built system
    whose matrix stores at least one entry and that passes the test of
    symmetry, with the family ['scipy'] and a type of the iterative list
    that scipy offers: when the backend returns
    [(x, code)], [_solve] raises 'Solver did not converge, exit code: code'
    if the code is positive and returns [x] otherwise, so a negative code
    (illegal input or breakdown) is taken as a solution; the absolute
    tolerance handed over is the setting, or [norm(b) * tol] when none is
    set; the object is unchanged. *)
Theorem solve_iterative_exit_code
    (E : env) (s : alg) (A : coo) (b : vec) (x0 : option vec)
    (x : vec) (code : Z) :
  let st := the_settings s in
  let atol := match solver_atol st with
              | Some a => a
              | None => norm E b * solver_tol st
              end in
  let guess := match x0 with Some x0 => x0 | None => zeros (length b) end in
  _A s = Some A -> _b s = Some b -> length b = shape A ->
  entries A <> [] ->
  opt_all (fun x => length x = shape A) x0 ->
  solver_type st <> "cg"%string \/ is_symmetric E A = true ->
  solver_family st = "scipy"%string ->
  In (solver_type st) iterative ->
  scipy_has E (solver_type st) = true ->
  scipy_iterative E (solver_type st) A b atol (solver_tol st)
                  (solver_maxiter st) guess = Ok (x, code) ->
  _solve E None None x0 s =
  (if (0 <? code)%Z
   then Err (Exception ("Solver did not converge, exit code: "
                        ++ string_of_Z code))
   else Ok x, s).
Proof.
  intros st atol guess HA Hb Hl _ Hx Hcg Hf Hin Hhas Hsol.
  subst st atol guess.
  apply cg_test_passes in Hcg.
  assert (Hit : existsb (String.eqb (solver_type (the_settings s))) iterative = true).
  { apply existsb_exists. exists (solver_type (the_settings s)).
    split; [exact Hin | apply String.eqb_refl]. }
  clear Hin.
  solve_prelude s A b x0 Hl Hx.
  all: rewrite ?Hl in Hsol; rewrite Hcg; mrun_settings;
    change ("scipy" =? "scipy")%string with true;
    change ("scipy" =? "petsc")%string with false;
    change ("scipy" =? "pyamg")%string with false;
    mrun_settings; rewrite Hhas; mrun_settings; rewrite Hit; mrun_settings;
    rewrite Hsol; mrun_settings; destruct (0 <? code)%Z; reflexivity.
Qed.

Lemma solve_iterative_exit_code_witness :
  _solve (Exact.stalling_env 1) None None None (Exact.chain5_with "scipy" "gmres") =
    (Err (Exception "Solver did not converge, exit code: 1"),
     Exact.chain5_with "scipy" "gmres") /\
  _solve (Exact.stalling_env (-1)) None None None (Exact.chain5_with "scipy" "gmres") =
    (Ok (zeros 5), Exact.chain5_with "scipy" "gmres").
Proof.
  split.
  - apply (solve_iterative_exit_code (Exact.stalling_env 1)
             (Exact.chain5_with "scipy" "gmres") Exact.chain5_L (zeros 5) None
             (zeros 5) 1%Z);
      try reflexivity; try exact I;
      [discriminate | left; discriminate | do 4 right; left; reflexivity].
  - apply (solve_iterative_exit_code (Exact.stalling_env (-1))
             (Exact.chain5_with "scipy" "gmres") Exact.chain5_L (zeros 5) None
             (zeros 5) (-1)%Z);
      try reflexivity; try exact I;
      [discriminate | left; discriminate | do 4 right; left; reflexivity].
Defined.

(* ------------------------------------------------------------------ *)
(** ** Reading a solution *)

Lemma reader_same_state {A : Type} (f : alg -> res A) :
  preserves eq (fun s => (f s, s)).
Proof. intros s r s' H. now inversion H. Qed.

(** X19.  The readers do not write: whatever their arguments are and
    whether they return or raise, [rate], [results], [_get_inlets],
    [_get_outlets] and [_calc_eff_prop] leave the object exactly as it
    was. *)
Theorem readers_leave_the_object (s : alg) :
  (forall pores throats mode, snd (rate pores throats mode s) = s) /\
  snd (results s) = s /\
  snd (_get_inlets s) = s /\
  snd (_get_outlets s) = s /\
  (forall G inlets outlets area len,
     snd (_calc_eff_prop G inlets outlets area len s) = s).
Proof.
  assert (Hrate : forall pores throats mode, preserves eq (rate pores throats mode))
    by exact rate_same_state.
  assert (Hin : preserves eq _get_inlets).
  { unfold _get_inlets.
    frame (@eq_refl alg) (@eq_trans alg) (@eq_refl alg) (@eq_refl alg). }
  assert (Hout : preserves eq _get_outlets).
  { unfold _get_outlets.
    frame (@eq_refl alg) (@eq_trans alg) (@eq_refl alg) (@eq_refl alg). }
  assert (Hres : preserves eq results).
  { unfold results.
    frame (@eq_refl alg) (@eq_trans alg) (@eq_refl alg) (@eq_refl alg). }
  assert (Heff : forall G inlets outlets area len,
            preserves eq (_calc_eff_prop G inlets outlets area len)).
  { intros G inlets outlets area len. unfold _calc_eff_prop, _get_inlets.
    frame (@eq_refl alg) (@eq_trans alg) Hrate (@reader_same_state Q). }
  assert (K : forall A (m : M A), preserves eq m -> snd (m s) = s).
  { intros A m H. destruct (m s) as [r s'] eqn:Hm. symmetry.
    exact (H s r s' Hm). }
  repeat split; intros; apply K; auto.
Qed.

(** X20.  Global conservation: on a well-formed network with a stored field
    and a conductance array of one row per throat, on data on which [rate]
    does not round ([Float64.exact_rate]), the rates of all the pores
    taken as one group add up to zero. *)
Theorem rate_of_all_pores_is_zero (s : alg) (g : conductance) (x : vec)
    (kg kx : nat) :
  net_wf (the_network s) ->
  phase_conductance s = Some g ->
  conductance_rows g = Nt (the_network s) ->
  quantity s = Some x -> length x = Np (the_network s) ->
  Float64.exact_rate kg kx (the_network s) g x = true ->
  (0 < Np (the_network s))%nat ->
  exists r,
    rate (seq 0 (Np (the_network s))) [] "group" s = (Ok [r], s) /\ r == 0.
Proof.
  intros Hwf Hg Hrows Hq Hl _ Hn.
  eexists. split.
  - apply (rate_pores_eval s g x); try assumption.
    + destruct (Np (the_network s)); [lia|discriminate].
    + apply in_bounds_seq.
  - set (Qp := pore_rates (the_network s) (two_columns g) x).
    assert (HN : Np (the_network s) = length Qp).
    { unfold Qp. now rewrite length_pore_rates. }
    rewrite HN, map_nth_all. unfold Qp. now apply Qsum_pore_rates.
Qed.

Lemma rate_of_all_pores_is_zero_witness :
  exists r,
    rate [0; 1]%nat [] "group" Exact.two_pores_solved =
      (Ok [r], Exact.two_pores_solved) /\ r == 0.
Proof.
  apply (rate_of_all_pores_is_zero Exact.two_pores_solved (per_throat [1]) [1; 0]
           0 0).
  - unfold net_wf; simpl. repeat constructor.
  - reflexivity.
  - reflexivity.
  - reflexivity.
  - reflexivity.
  - reflexivity.
  - simpl. lia.
Defined.

Lemma Qsum_nonneg (l : vec) : Forall (fun r => 0 <= r) l -> 0 <= Qsum l.
Proof.
  induction 1 as [|r l Hr _ IH]; [apply Qle_refl|].
  change (0 <= r + Qsum l). lra.
Qed.

Lemma length_Qt (net : network) (g : conductance) (x : vec) :
  conductance_rows g = Nt net ->
  length (zip_with (fun gk xk : Q * Q => snd gk * snd xk - fst gk * fst xk)
            (map (fun p => (snd p, fst p)) (two_columns g))
            (map (fun c => (nth (fst c) x 0, nth (snd c) x 0)) (conns net)))
  = Nt net.
Proof.
  intros H. rewrite length_zip_with; rewrite !length_map, length_two_columns;
    exact H.
Qed.

Lemma nth_zip_with {A B C : Type} (f : A -> B -> C) (dA : A) (dB : B) (dC : C) :
  forall (l1 : list A) (l2 : list B) (t : nat),
  (t < length l1)%nat -> (t < length l2)%nat ->
  nth t (zip_with f l1 l2) dC = f (nth t l1 dA) (nth t l2 dB).
Proof.
  induction l1 as [|a l1 IH]; intros [|b l2] [|t] H1 H2; simpl in *;
    try lia; [reflexivity|]. apply IH; lia.
Qed.

(** X21.  Rates of throats.  On a well-formed network with a stored field
    and one conductance row per throat, for a non-empty list of throats: on
    a network of exactly one throat the call raises [IndexError], because
    [squeeze] has taken the only axis of the throat rates away; otherwise,
    for throats inside the network, it returns for every throat [t] of the
    list, joining the pores [(i, j)] with the conductance row [(g0, g1)],
    the magnitude of [g0 * x[j] - g1 * x[i]], or the sum of these
    magnitudes alone in the mode ['group']. *)
Theorem rate_of_throats (s : alg) (g : conductance) (x : vec)
    (T : list nat) (mode : string) :
  let Qt := fun t =>
    let c := nth t (conns (the_network s)) (0%nat, 0%nat) in
    let gt := nth t (two_columns g) (0, 0) in
    fst gt * nth (snd c) x 0 - snd gt * nth (fst c) x 0 in
  net_wf (the_network s) ->
  phase_conductance s = Some g ->
  conductance_rows g = Nt (the_network s) ->
  quantity s = Some x -> length x = Np (the_network s) ->
  T <> [] ->
  (Nt (the_network s) = 1%nat -> rate [] T mode s = (Err IndexError, s)) /\
  (Nt (the_network s) <> 1%nat -> in_bounds T (Nt (the_network s)) = true ->
   rate [] T mode s =
   (Ok (if (mode =? "group")%string
        then [Qsum (map (fun t => Qabs (Qt t)) T)]
        else map (fun t => Qabs (Qt t)) T), s)).
Proof.
  intros Qt Hwf Hg Hrows Hq Hl HT.
  destruct s as [net g' st A pA b pb br bv q].
  cbn [the_network phase_conductance quantity] in *. subst.
  destruct (in_bounds_conns net Hwf) as [H1 H2].
  pose proof (length_Qt net g x Hrows) as HQt.
  destruct T as [|t0 T]; [congruence|].
  split.
  - intros Hone. unfold rate. mrun. rewrite Hl, H1, H2. mrun.
    rewrite (as_two_columns_ok _ _ Hrows). mrun.
    cbn [length Nat.ltb Nat.leb Nat.eqb andb]. mrun.
    rewrite Hone. reflexivity.
  - intros Hone Hb.
    set (Ql := zip_with (fun gk xk : Q * Q => snd gk * snd xk - fst gk * fst xk)
            (map (fun p => (snd p, fst p)) (two_columns g))
            (map (fun c => (nth (fst c) x 0, nth (snd c) x 0)) (conns net))) in *.
    assert (Hmap : map (fun t => Qabs (nth t Ql 0)) (t0 :: T) =
                   map (fun t => Qabs (Qt t)) (t0 :: T)).
    { apply map_ext_in. intros t Ht.
      rewrite in_bounds_true in Hb. specialize (Hb t Ht).
      unfold Ql.
      rewrite (nth_zip_with _ (0, 0) (0, 0))
        by (rewrite !length_map, ?length_two_columns; unfold Nt in *; lia).
      rewrite (nth_map_in (fun p : Q * Q => (snd p, fst p)) _ _ (0, 0))
        by (rewrite length_two_columns; unfold Nt in *; lia).
      rewrite (nth_map_in (fun c : nat * nat => (nth (fst c) x 0, nth (snd c) x 0))
                 _ _ (0%nat, 0%nat)) by (unfold Nt in *; lia).
      reflexivity. }
    unfold rate. mrun. rewrite Hl, H1, H2. mrun.
    rewrite (as_two_columns_ok _ _ Hrows). mrun.
    cbn [length Nat.ltb Nat.leb Nat.eqb andb]. mrun.
    apply Nat.eqb_neq in Hone. rewrite Hone. mrun.
    fold Ql. rewrite HQt, Hb. mrun. rewrite Hmap. reflexivity.
Qed.

Lemma rate_of_throats_witness :
  exists R,
    rate [] [0; 3]%nat "single" (set_quantity (Some Exact.chain5_x) Exact.chain5_bcs) =
      (Ok R, set_quantity (Some Exact.chain5_x) Exact.chain5_bcs) /\
    Forall2 Qeq R [1 # 4; 1 # 4].
Proof.
  assert (Hwf : net_wf (the_network
                  (set_quantity (Some Exact.chain5_x) Exact.chain5_bcs))).
  { unfold net_wf; simpl. repeat constructor. }
  destruct (rate_of_throats (set_quantity (Some Exact.chain5_x) Exact.chain5_bcs)
              (per_throat [1; 1; 1; 1]) Exact.chain5_x [0; 3]%nat "single"
              Hwf eq_refl eq_refl eq_refl eq_refl ltac:(discriminate)) as [_ H].
  eexists. split.
  - apply H; [discriminate | reflexivity].
  - vm_compute. repeat constructor.
Defined.

(* ------------------------------------------------------------------ *)
(** ** Rates and the pure matrix *)

(** What [np.add.at] has added at place [k]. *)
Lemma nth_add_at_each (idx : list nat) (k : nat) :
  forall (vals a : vec), in_bounds idx (length a) = true ->
  nth k (add_at_each a idx vals) 0 ==
  nth k a 0
  + Qsum (map (fun p => if (fst p =? k)%nat then snd p else 0) (combine idx vals)).
Proof.
  induction idx as [|i idx IH]; intros [|v vals] a Hb;
    try (simpl; ring).
  cbn [add_at_each combine map Qsum fold_right fst snd].
  unfold in_bounds in Hb. cbn [forallb] in Hb.
  apply andb_true_iff in Hb. destruct Hb as [Hi Hb]. apply Nat.ltb_lt in Hi.
  rewrite IH by (rewrite length_upd; exact Hb).
  fold (Qsum (map (fun p : nat * Q => if (fst p =? k)%nat then snd p else 0)
                  (combine idx vals))).
  destruct (Nat.eqb_spec i k) as [->|Hne].
  - rewrite nth_upd_same by exact Hi. ring.
  - rewrite nth_upd_other by congruence. ring.
Qed.

Lemma row_dot_app (l1 l2 : list entry) (k : nat) (x : vec) :
  row_dot (l1 ++ l2) k x == row_dot l1 k x + row_dot l2 k x.
Proof. induction l1 as [|e l1 IH]; simpl; [ring|]. rewrite IH. ring. Qed.

(** The two passes of [np.add.at] in [rate], throat by throat, against the
    rows of the symmetric adjacency matrix. *)
Lemma throat_sums (x : vec) (k : nat) (cs : list (nat * nat)) :
  forall w : vec,
  let Qt := zip_with (fun gk xk : Q * Q => snd gk * snd xk - fst gk * fst xk)
              (map (fun p : Q * Q => (snd p, fst p)) (map (fun q => (q, q)) w))
              (map (fun c => (nth (fst c) x 0, nth (snd c) x 0)) cs) in
  let l := map (fun e : nat * nat * Q => (fst (fst e), snd (fst e), snd e))
               (combine cs w) in
  Qsum (map (fun p => if (fst p =? k)%nat then snd p else 0)
            (combine (map fst cs) (map Qopp Qt)))
  + Qsum (map (fun p => if (fst p =? k)%nat then snd p else 0)
              (combine (map snd cs) Qt))
  == row_sum (l ++ transpose_entries l) k * nth k x 0
     - row_dot (l ++ transpose_entries l) k x.
Proof.
  induction cs as [|c cs IH]; intros [|g w]; try (simpl; ring).
  specialize (IH w). cbv zeta in IH |- *.
  rewrite row_sum_app, row_dot_app in IH |- *.
  cbn [map zip_with combine Qsum fold_right fst snd row_sum row_dot
       transpose_entries erow ecol edata].
  unfold transpose_entries in IH.
  unfold Qsum in IH.
  destruct (Nat.eqb_spec (fst c) k) as [H1|H1], (Nat.eqb_spec (snd c) k) as [H2|H2];
    try rewrite H1; try rewrite H2; lra.
Qed.

Lemma nth_zeros (n k : nat) : nth k (zeros n) 0 = 0.
Proof. unfold zeros. apply nth_repeat. Qed.

(** Reading a row of the product with a Laplacian. *)
Lemma row_of_laplacian (n : nat) (l : list entry) (x : vec) (k : nat) :
  let am := mkcoo n (l ++ transpose_entries l) in
  coo_wf am -> (k < n)%nat ->
  nth k (matvec (laplacian am) x) 0 ==
  row_sum (l ++ transpose_entries l) k * nth k x 0
  - row_dot (l ++ transpose_entries l) k x.
Proof.
  intros am Hwf Hk.
  unfold matvec. rewrite shape_laplacian. cbn [shape am].
  rewrite nth_tabulate by exact Hk.
  rewrite (row_dot_sum _ n)
    by (apply (coo_wf_cols (laplacian am)), coo_wf_laplacian, Hwf).
  rewrite (row_dot_sum (l ++ transpose_entries l) n)
    by (apply (coo_wf_cols am), Hwf).
  unfold tabulate.
  rewrite (Qsum_map_ext _
    (fun j => (if (k =? j)%nat
               then col_sum (l ++ transpose_entries l) k * nth j x 0 else 0)
              + - (entries_get (l ++ transpose_entries l) k j * nth j x 0))).
  - rewrite Qsum_map_plus, Qsum_map_delta by apply seq_NoDup.
    rewrite isin_seq. destruct (Nat.ltb_spec k n); [|lia].
    rewrite Qsum_map_opp, sym_col_row_sum. ring.
  - intros j _.
    change (entries_get (entries (laplacian am)) k j) with (get (laplacian am) k j).
    rewrite get_laplacian by exact Hwf. cbn [shape am entries].
    destruct (Nat.eqb_spec k j) as [->|Hne].
    + destruct (Nat.ltb_spec j n); [|lia]. unfold get. cbn [entries am]. ring.
    + unfold get. cbn [entries am]. ring.
Qed.

(** The net rate of a pore is the row of the pure matrix applied to the
    field. *)
Lemma pore_rates_laplacian (net : network) (w x : vec) (am : coo) (k : nat) :
  net_wf net -> length w = Nt net -> (k < Np net)%nat ->
  create_adjacency_matrix net w = Ok am ->
  nth k (pore_rates net (two_columns (per_throat w)) x) 0 ==
  nth k (matvec (laplacian am) x) 0.
Proof.
  intros Hwf Hl Hk Ham.
  rewrite (adjacency_entries _ _ Hwf Hl) in Ham. inversion Ham as [Ham']. clear Ham Ham'.
  pose proof (adjacency_wf _ _ w Hwf) as Hamwf. cbv zeta in Hamwf.
  destruct (in_bounds_conns net Hwf) as [H1 H2].
  rewrite (row_of_laplacian (Np net) _ x k Hamwf Hk).
  unfold pore_rates. cbn [two_columns].
  rewrite nth_add_at_each
    by (rewrite length_add_at_each; unfold zeros; rewrite repeat_length; exact H2).
  rewrite nth_add_at_each by (unfold zeros; rewrite repeat_length; exact H1).
  rewrite nth_zeros, Qplus_0_l.
  apply throat_sums.
Qed.


(** The row of a pore that holds a value, in the eliminated system. *)
Lemma bc_row_of_product (A : coo) (bv : farray) (x : vec) (i : nat) (v : Q) :
  coo_wf A -> length bv = shape A -> nth i bv None = Some v ->
  nth i (matvec (value_step_A A bv) x) 0 == mean (diagonal A) * nth i x 0.
Proof.
  intros Hwf Hlv Hv. pose proof (nth_some_lt _ _ _ Hv) as Hi.
  unfold matvec. change (shape (value_step_A A bv)) with (shape A).
  rewrite nth_tabulate by lia.
  rewrite (row_dot_sum _ (shape A))
    by (apply (coo_wf_cols (value_step_A A bv)), coo_wf_value_step_A, Hwf).
  unfold tabulate.
  rewrite (Qsum_map_ext _
    (fun j => if (i =? j)%nat then mean (diagonal A) * nth j x 0 else 0)).
  - rewrite Qsum_map_delta by apply seq_NoDup. rewrite isin_seq.
    destruct (Nat.ltb_spec i (shape A)); [reflexivity|lia].
  - intros j _.
    change (entries_get (entries (value_step_A A bv)) i j)
      with (get (value_step_A A bv) i j).
    rewrite get_value_step_A by assumption. rewrite Hv.
    destruct (Nat.eqb_spec i j) as [->|Hne]; [|ring].
    destruct (Nat.ltb_spec j (shape A)); [reflexivity|lia].
Qed.

(** The row of a pore that holds no value, in the eliminated system. *)
Lemma free_row_of_product (A : coo) (bv : farray) (x : vec) (k : nat) :
  coo_wf A -> length bv = shape A -> (k < shape A)%nat ->
  nth k bv None = None ->
  (forall j v, nth j bv None = Some v -> nth j x 0 == v) ->
  nth k (matvec A x) 0 ==
  nth k (matvec (value_step_A A bv) x) 0
  + Qsum (tabulate (shape A) (fun j => get A k j * fval (nth j bv None))).
Proof.
  intros Hwf Hlv Hk Hn Hx.
  unfold matvec. change (shape (value_step_A A bv)) with (shape A).
  rewrite !nth_tabulate by lia.
  rewrite (row_dot_sum (entries (value_step_A A bv)) (shape A))
    by (apply (coo_wf_cols (value_step_A A bv)), coo_wf_value_step_A, Hwf).
  rewrite (row_dot_sum (entries A) (shape A)) by (apply coo_wf_cols, Hwf).
  unfold tabulate. rewrite <- Qsum_map_plus.
  apply Qsum_map_ext. intros j Hj. apply in_seq in Hj.
  change (entries_get (entries (value_step_A A bv)) k j)
    with (get (value_step_A A bv) k j).
  change (entries_get (entries A) k j) with (get A k j).
  rewrite get_value_step_A by assumption. rewrite Hn.
  destruct (nth j bv None) as [v|] eqn:Hv.
  - rewrite (Hx j v Hv).
    destruct (Nat.eqb_spec k j) as [->|Hne]; [congruence|]. simpl. ring.
  - destruct (Nat.eqb_spec k j) as [->|Hne].
    + destruct (Nat.ltb_spec j (shape A)); [|lia]. simpl. ring.
    + simpl. ring.
Qed.

(** X23.  Balance at every pore.  Take the pure matrix of a well-formed
    network with one conductance per throat as working matrix, with a mean
    diagonal that is not zero, and let [_apply_BCs] assemble the system, on
    data on which neither [rate] nor the right-hand side at the pores
    without value rounds ([Float64.exact_rate], [Float64.exact_system]).
    If the stored field solves that system exactly, it takes the prescribed
    value at every pore that holds one, and at every pore that holds none
    the net rate that [rate] reports is the rate condition set there, or the
    entry of the right-hand side on entry (zero for a new vector) when no
    rate is set. *)
Theorem exact_solution_balances_rates
    (E : env) (s : alg) (w : vec) (am : coo) (b0 : vec) (bv : farray) (x : vec)
    (kg kx : nat) :
  let n := Np (the_network s) in
  let s1 := snd (_apply_BCs E s) in
  let s2 := set_quantity (Some x) s1 in
  let rate_at := fun k => match bc_rate s with
                          | Some br => nth k br None
                          | None => None
                          end in
  net_wf (the_network s) ->
  phase_conductance s = Some (per_throat w) ->
  create_adjacency_matrix (the_network s) w = Ok am ->
  _A s = Some (laplacian am) -> _b s = Some b0 -> bc_value s = Some bv ->
  length b0 = n -> length bv = n ->
  opt_all (fun br => length br = n) (bc_rate s) ->
  ~ mean (diagonal (laplacian am)) == 0 ->
  length x = n ->
  Float64.exact_rate kg kx (the_network s) (per_throat w) x = true ->
  Float64.exact_system kg kx b0 (bc_rate s) bv = true ->
  (forall A' b', _A s1 = Some A' -> _b s1 = Some b' ->
     forall i, (i < n)%nat -> nth i (matvec A' x) 0 == nth i b' 0) ->
  (forall i v, nth i bv None = Some v -> nth i x 0 == v) /\
  (forall k, (k < n)%nat -> nth k bv None = None ->
     exists r, rate [k] [] "group" s2 = (Ok [r], s2) /\
               r == match rate_at k with Some q => q | None => nth k b0 0 end).
Proof.
  intros n s1 s2 rate_at Hwf Hg Ham HA Hb Hv Hlb Hlv Hr Hf Hlx _ _ Hsol.
  assert (Hlw : length w = Nt (the_network s)).
  { unfold create_adjacency_matrix in Ham.
    destruct (Nat.eqb_spec (length w) (Nt (the_network s))) as [H|H];
      [exact H | discriminate]. }
  pose proof Ham as Ham'.
  rewrite (adjacency_entries _ _ Hwf Hlw) in Ham'.
  assert (Hamwf : coo_wf am).
  { inversion Ham'. apply (adjacency_wf _ _ w Hwf). }
  assert (Hsh : shape (laplacian am) = n).
  { rewrite shape_laplacian. inversion Ham'. reflexivity. }
  pose proof (coo_wf_laplacian am Hamwf) as HLwf.
  set (L := laplacian am) in *.
  assert (Hs1 : s1 = set_A (Some (value_step_A L bv))
                  (set_b (Some (value_step_b L (rate_step b0 (bc_rate s)) bv)) s)).
  { unfold s1. rewrite (apply_BCs_eval E s L b0 bv); try assumption;
      try congruence.
    - reflexivity.
    - rewrite Hsh. exact Hr. }
  assert (Hsol' : forall i, (i < n)%nat ->
            nth i (matvec (value_step_A L bv) x) 0 ==
            nth i (value_step_b L (rate_step b0 (bc_rate s)) bv) 0).
  { apply Hsol; rewrite Hs1; reflexivity. }
  assert (Hlr : length (rate_step b0 (bc_rate s)) = shape L).
  { unfold rate_step. destruct (bc_rate s); [|congruence].
    rewrite length_put_masked. congruence. }
  assert (Hval : forall i v, nth i bv None = Some v -> nth i x 0 == v).
  { intros i v Hi. pose proof (nth_some_lt _ _ _ Hi) as Hlt.
    specialize (Hsol' i ltac:(lia)).
    rewrite (bc_row_of_product L bv x i v) in Hsol' by (assumption || congruence).
    rewrite (nth_value_step_b_bc L _ bv i v) in Hsol' by (assumption || congruence).
    apply (Qmult_inj_l _ _ (mean (diagonal L)) Hf).
    rewrite Hsol'. ring. }
  split; [exact Hval|].
  intros k Hk Hn.
  assert (Hrow : nth k (matvec L x) 0 ==
                 match rate_at k with Some q => q | None => nth k b0 0 end).
  { rewrite (free_row_of_product L bv x k) by (assumption || congruence || lia).
    rewrite (Hsol' k Hk).
    rewrite nth_value_step_b_free by (assumption || congruence || lia).
    rewrite nth_rate_step.
    - unfold rate_at. ring.
    - destruct (bc_rate s); simpl in *; [lia|exact I].
    - lia. }
  exists (Qsum (map (fun p => nth p (pore_rates (the_network s)
                                      (two_columns (per_throat w)) x) 0) [k])).
  split.
  - unfold s2. rewrite Hs1.
    match goal with
    | |- rate _ _ _ ?st = _ => apply (rate_pores_eval st (per_throat w) x [k])
    end.
    + exact Hwf.
    + exact Hg.
    + exact Hlw.
    + reflexivity.
    + exact Hlx.
    + discriminate.
    + apply in_bounds_single. exact Hk.
  - cbn [map Qsum fold_right].
    rewrite (pore_rates_laplacian _ w x am k) by assumption.
    fold L. rewrite Hrow. ring.
Qed.


Lemma exact_solution_balances_rates_witness :
  let s2 := set_quantity (Some Exact.chain5_x)
              (snd (_apply_BCs Exact.exact_env Exact.chain5_bcs)) in
  (forall i v, nth i [Some 1; None; None; None; Some 0] None = Some v ->
     nth i Exact.chain5_x 0 == v) /\
  (forall k, (k < 5)%nat ->
     nth k [Some 1; None; None; None; Some 0] None = None ->
     exists r, rate [k] [] "group" s2 = (Ok [r], s2) /\
               r == match nth k (repeat None 5) None with
                    | Some q => q
                    | None => nth k (zeros 5) 0
                    end).
Proof.
  apply (exact_solution_balances_rates Exact.exact_env Exact.chain5_bcs
           [1; 1; 1; 1] Exact.chain5_am (zeros 5)
           [Some 1; None; None; None; Some 0] Exact.chain5_x 0 2).
  - unfold net_wf; simpl. repeat constructor.
  - reflexivity.
  - reflexivity.
  - reflexivity.
  - reflexivity.
  - reflexivity.
  - reflexivity.
  - reflexivity.
  - reflexivity.
  - vm_compute. discriminate.
  - reflexivity.
  - reflexivity.
  - reflexivity.
  - intros A' b' HA Hb i Hi.
    vm_compute in HA. vm_compute in Hb.
    injection HA as <-. injection Hb as <-.
    destruct i as [|[|[|[|[|i]]]]]; [vm_compute; reflexivity ..|simpl in Hi; lia].
Defined.

(* ------------------------------------------------------------------ *)
(** ** Solver settings *)

(** X24.  [set_solver] changes the solver settings only: afterwards each of
    the seven solver settings is the argument when one is given and the
    setting before when the argument is [None], the two cache flags and the
    rest of the object are kept.  So a call without arguments changes
    nothing, and since [None] stands for the present setting, an absolute
    or relative tolerance that has been set cannot be cleared again. *)
Theorem set_solver_keeps_what_is_not_given
    (family type pre : option string) (tol atol rtol : option Q)
    (maxiter : option Z) (s : alg) :
  let st := the_settings s in
  exists st',
    set_solver family type pre tol atol rtol maxiter s =
      (Ok tt, set_settings st' s) /\
    solver_family st' =
      match family with Some v => v | None => solver_family st end /\
    solver_type st' =
      match type with Some v => v | None => solver_type st end /\
    solver_preconditioner st' =
      match pre with Some v => v | None => solver_preconditioner st end /\
    solver_tol st' =
      match tol with Some v => v | None => solver_tol st end /\
    solver_atol st' =
      match atol with Some v => Some v | None => solver_atol st end /\
    solver_rtol st' =
      match rtol with Some v => Some v | None => solver_rtol st end /\
    solver_maxiter st' =
      match maxiter with Some v => v | None => solver_maxiter st end /\
    cache_A st' = cache_A st /\ cache_b st' = cache_b st /\
    (family = None -> type = None -> pre = None -> tol = None ->
     atol = None -> rtol = None -> maxiter = None -> set_settings st' s = s).
Proof.
  destruct s as [net g st A pA b pb br bv q].
  destruct st as [fam typ pr tl atl rtl mit cA cB].
  cbv zeta. cbn [the_settings].
  exists (mksettings
            (match family with None => fam | Some v => v end)
            (match type with None => typ | Some v => v end)
            (match pre with None => pr | Some v => v end)
            (match tol with None => tl | Some v => v end)
            (match atol with None => atl | Some _ => atol end)
            (match rtol with None => rtl | Some _ => rtol end)
            (match maxiter with None => mit | Some v => v end)
            cA cB).
  split; [reflexivity|].
  cbn [solver_family solver_type solver_preconditioner solver_tol solver_atol
       solver_rtol solver_maxiter cache_A cache_b].
  destruct family, type, pre, tol, atol, rtol, maxiter;
    repeat split; try reflexivity; intros; discriminate.
Qed.

(* ------------------------------------------------------------------ *)
(** ** Inlets, outlets and the effective property *)

Lemma in_finite_values (a : farray) (q : Q) :
  In q (finite_values a) <-> exists k, nth k a None = Some q.
Proof.
  unfold finite_values. rewrite in_flat_map. split.
  - intros [o [Ho Hq]]. destruct o as [q'|]; [|contradiction].
    destruct Hq as [<-|[]].
    destruct (In_nth _ _ None Ho) as [k [_ Hk]]. now exists k.
  - intros [k Hk]. exists (Some q). split; [|now left].
    rewrite <- Hk. apply nth_In. now apply (nth_some_lt _ _ q).
Qed.

Lemma in_insert_unique (x q : Q) (l : vec) :
  In q (insert_unique x l) -> q = x \/ In q l.
Proof.
  induction l as [|y l IH]; simpl.
  - intros [<-|[]]. now left.
  - destruct (Qeq_bool x y); [now right|].
    destruct (Qle_bool x y).
    + intros [<-|H]; [now left | now right].
    + intros [<-|H]; [right; now left|].
      destruct (IH H) as [->|H']; [now left | right; now right].
Qed.

Lemma insert_unique_keeps (x q : Q) (l : vec) :
  In q l -> In q (insert_unique x l).
Proof.
  induction l as [|y l IH]; simpl; [contradiction|].
  intros H. destruct (Qeq_bool x y); [exact H|].
  destruct (Qle_bool x y); [now right|].
  destruct H as [<-|H]; [now left | right; now apply IH].
Qed.

Lemma insert_unique_has (x : Q) (l : vec) :
  exists q, In q (insert_unique x l) /\ q == x.
Proof.
  induction l as [|y l IH]; simpl.
  - exists x. split; [now left | reflexivity].
  - destruct (Qeq_bool x y) eqn:He.
    + exists y. split; [now left|]. apply Qeq_bool_iff in He. now symmetry.
    + destruct (Qle_bool x y).
      * exists x. split; [now left | reflexivity].
      * destruct IH as [q [Hq He']]. exists q. split; [now right | exact He'].
Qed.

Lemma in_unique_values (l : vec) (q : Q) :
  In q (unique_values l) -> In q l.
Proof.
  induction l as [|x l IH]; simpl; [auto|].
  intros H. apply in_insert_unique in H. destruct H as [->|H]; auto.
Qed.

Lemma unique_values_has (l : vec) (q : Q) :
  In q l -> exists q', In q' (unique_values l) /\ q' == q.
Proof.
  induction l as [|x l IH]; simpl; [contradiction|].
  intros [<-|H].
  - apply insert_unique_has.
  - destruct (IH H) as [q' [Hq He]]. exists q'.
    split; [now apply insert_unique_keeps | exact He].
Qed.

Lemma fold_max (l : vec) :
  forall x,
  let m := fold_left (fun m y => if Qle_bool m y then y else m) l x in
  (m = x \/ In m l) /\ x <= m /\ forall y, In y l -> y <= m.
Proof.
  induction l as [|z l IH]; intros x; simpl.
  - split; [now left|]. split; [apply Qle_refl | contradiction].
  - destruct (Qle_bool x z) eqn:Hc.
    + apply Qle_bool_iff in Hc.
      destruct (IH z) as [H1 [H2 H3]]. split; [|split].
      * destruct H1 as [->|H1]; right; [now left | now right].
      * eapply Qle_trans; eassumption.
      * intros y [<-|Hy]; [exact H2 | now apply H3].
    + assert (Hzx : z <= x).
      { destruct (Qlt_le_dec x z) as [H|H]; [|exact H].
        apply Qlt_le_weak, Qle_bool_iff in H. congruence. }
      destruct (IH x) as [H1 [H2 H3]]. split; [|split].
      * destruct H1 as [->|H1]; [now left | right; now right].
      * exact H2.
      * intros y [<-|Hy]; [eapply Qle_trans; eassumption | now apply H3].
Qed.

Lemma fold_min (l : vec) :
  forall x,
  let m := fold_left (fun m y => if Qle_bool y m then y else m) l x in
  (m = x \/ In m l) /\ m <= x /\ forall y, In y l -> m <= y.
Proof.
  induction l as [|z l IH]; intros x; simpl.
  - split; [now left|]. split; [apply Qle_refl | contradiction].
  - destruct (Qle_bool z x) eqn:Hc.
    + apply Qle_bool_iff in Hc.
      destruct (IH z) as [H1 [H2 H3]]. split; [|split].
      * destruct H1 as [->|H1]; right; [now left | now right].
      * eapply Qle_trans; eassumption.
      * intros y [<-|Hy]; [exact H2 | now apply H3].
    + assert (Hzx : x <= z).
      { destruct (Qlt_le_dec z x) as [H|H]; [|exact H].
        apply Qlt_le_weak, Qle_bool_iff in H. congruence. }
      destruct (IH x) as [H1 [H2 H3]]. split; [|split].
      * destruct H1 as [->|H1]; [now left | right; now right].
      * exact H2.
      * intros y [<-|Hy]; [eapply Qle_trans; eassumption | now apply H3].
Qed.

Lemma amax_spec (l : vec) :
  l <> [] ->
  exists m, amax l = Ok m /\ In m l /\ forall y, In y l -> y <= m.
Proof.
  destruct l as [|x l]; [congruence|]. intros _.
  destruct (fold_max l x) as [H1 [H2 H3]].
  eexists. split; [reflexivity|]. split.
  - destruct H1 as [->|H1]; [now left | now right].
  - intros y [<-|Hy]; [exact H2 | now apply H3].
Qed.

Lemma amin_spec (l : vec) :
  l <> [] ->
  exists m, amin l = Ok m /\ In m l /\ forall y, In y l -> m <= y.
Proof.
  destruct l as [|x l]; [congruence|]. intros _.
  destruct (fold_min l x) as [H1 [H2 H3]].
  eexists. split; [reflexivity|]. split.
  - destruct H1 as [->|H1]; [now left | now right].
  - intros y [<-|Hy]; [exact H2 | now apply H3].
Qed.

Lemma in_where_eq (a : farray) (m : Q) (k : nat) :
  In k (where_eq a m) <-> exists q, nth k a None = Some q /\ q == m.
Proof.
  unfold where_eq. rewrite filter_In, in_seq. split.
  - intros [_ H]. destruct (nth k a None) as [q|]; [|discriminate].
    exists q. split; [reflexivity | now apply Qeq_bool_iff].
  - intros [q [Hq He]]. split.
    + pose proof (nth_some_lt _ _ _ Hq). lia.
    + rewrite Hq. now apply Qeq_bool_iff.
Qed.

(** X25.  Inlets and outlets.  When no pore holds a value, [_get_inlets]
    and [_get_outlets] raise [ValueError] (the extremum of an empty array).
    Otherwise both return a non-empty list: the inlets are exactly the
    pores that hold the largest value, the outlets exactly those that hold
    the smallest, and every value held lies between the two. *)
Theorem inlets_hold_the_largest_value (s : alg) (a : farray) :
  bc_value s = Some a ->
  ((forall k, nth k a None = None) ->
   _get_inlets s = (Err ValueError, s) /\
   _get_outlets s = (Err ValueError, s)) /\
  ((exists k q, nth k a None = Some q) ->
   exists (I O : list nat) (hi lo : Q),
     _get_inlets s = (Ok I, s) /\ _get_outlets s = (Ok O, s) /\
     I <> [] /\ O <> [] /\
     (forall k, In k I <-> exists q, nth k a None = Some q /\ q == hi) /\
     (forall k, In k O <-> exists q, nth k a None = Some q /\ q == lo) /\
     (forall k q, nth k a None = Some q -> lo <= q /\ q <= hi)).
Proof.
  intros Ha. split.
  - intros Hnone.
    assert (Hf : finite_values a = []).
    { destruct (finite_values a) as [|q l] eqn:Hq; [reflexivity|].
      assert (Hin : In q (finite_values a)) by (rewrite Hq; now left).
      apply in_finite_values in Hin. destruct Hin as [k Hk].
      rewrite Hnone in Hk. discriminate. }
    unfold _get_inlets, _get_outlets, lookup, bind, lift, ret.
    rewrite Ha, Hf. split; reflexivity.
  - intros [k0 [q0 Hk0]].
    assert (Hq0 : In q0 (finite_values a)) by (apply in_finite_values; now exists k0).
    destruct (unique_values_has _ _ Hq0) as [q0' [Hq0' _]].
    assert (Hne : unique_values (finite_values a) <> []).
    { intros H. rewrite H in Hq0'. contradiction. }
    destruct (amax_spec _ Hne) as [hi [Hmax [Hhi Hle]]].
    destruct (amin_spec _ Hne) as [lo [Hmin [Hlo Hge]]].
    exists (where_eq a hi), (where_eq a lo), hi, lo.
    split; [|split; [|split; [|split; [|split; [|split]]]]].
    + unfold _get_inlets, lookup, bind, lift, ret. now rewrite Ha, Hmax.
    + unfold _get_outlets, lookup, bind, lift, ret. now rewrite Ha, Hmin.
    + apply in_unique_values, in_finite_values in Hhi. destruct Hhi as [k Hk].
      intros H. assert (Hin : In k (where_eq a hi)).
      { apply in_where_eq. exists hi. split; [exact Hk | reflexivity]. }
      rewrite H in Hin. contradiction.
    + apply in_unique_values, in_finite_values in Hlo. destruct Hlo as [k Hk].
      intros H. assert (Hin : In k (where_eq a lo)).
      { apply in_where_eq. exists lo. split; [exact Hk | reflexivity]. }
      rewrite H in Hin. contradiction.
    + intros k. apply in_where_eq.
    + intros k. apply in_where_eq.
    + intros k q Hq.
      assert (Hin : In q (finite_values a)) by (apply in_finite_values; now exists k).
      destruct (unique_values_has _ _ Hin) as [q' [Hq' He]].
      rewrite <- He. split; [now apply Hge | now apply Hle].
Qed.

Lemma inlets_hold_the_largest_value_witness :
  ((forall k, nth k [Some 1; None; None; None; Some 0] None = None) ->
   _get_inlets Exact.chain5_bcs = (Err ValueError, Exact.chain5_bcs) /\
   _get_outlets Exact.chain5_bcs = (Err ValueError, Exact.chain5_bcs)) /\
  ((exists k q, nth k [Some 1; None; None; None; Some 0] None = Some q) ->
   exists (I O : list nat) (hi lo : Q),
     _get_inlets Exact.chain5_bcs = (Ok I, Exact.chain5_bcs) /\
     _get_outlets Exact.chain5_bcs = (Ok O, Exact.chain5_bcs) /\
     I <> [] /\ O <> [] /\
     (forall k, In k I <->
        exists q, nth k [Some 1; None; None; None; Some 0] None = Some q /\ q == hi) /\
     (forall k, In k O <->
        exists q, nth k [Some 1; None; None; None; Some 0] None = Some q /\ q == lo) /\
     (forall k q, nth k [Some 1; None; None; None; Some 0] None = Some q ->
        lo <= q /\ q <= hi)).
Proof.
  apply (inlets_hold_the_largest_value Exact.chain5_bcs
           [Some 1; None; None; None; Some 0]).
  reflexivity.
Defined.

Lemma Qle_bool_false (x y : Q) : Qle_bool x y = false -> y < x.
Proof.
  intros H. destruct (Qlt_le_dec y x) as [Hlt|Hle]; [exact Hlt|].
  apply Qle_bool_iff in Hle. congruence.
Qed.

Lemma Qeq_bool_false (x y : Q) : Qeq_bool x y = false -> ~ x == y.
Proof. intros H He. apply Qeq_bool_iff in He. congruence. Qed.

(** The distinct values of an array that holds two values at most. *)
Lemma unique_of_two_values (lo hi : Q) (l : vec) :
  lo < hi ->
  (forall q, In q l -> q == lo \/ q == hi) ->
  unique_values l = [] \/
  (exists u, unique_values l = [u] /\ (u == lo \/ u == hi)) \/
  (exists u v, unique_values l = [u; v] /\ u == lo /\ v == hi).
Proof.
  intros Hlt. induction l as [|x l IH]; intros Hall; [now left|].
  assert (Hx : x == lo \/ x == hi) by (apply Hall; now left).
  assert (Hl : forall q, In q l -> q == lo \/ q == hi)
    by (intros q Hq; apply Hall; now right).
  specialize (IH Hl). right. cbn [unique_values fold_right].
  fold (unique_values l).
  destruct IH as [->|[[u [-> Hu]]|[u [v [-> [Hu Hv]]]]]]; cbn [insert_unique].
  - left. exists x. split; [reflexivity | exact Hx].
  - destruct (Qeq_bool x u) eqn:He.
    + left. exists u. split; [reflexivity | exact Hu].
    + apply Qeq_bool_false in He.
      destruct (Qle_bool x u) eqn:Hle.
      * apply Qle_bool_iff in Hle. right. exists x, u.
        split; [reflexivity|].
        destruct Hx as [Hx|Hx], Hu as [Hu|Hu]; split; try assumption;
          exfalso; try (apply He; rewrite Hx, Hu; reflexivity); lra.
      * apply Qle_bool_false in Hle. right. exists u, x.
        split; [reflexivity|].
        destruct Hx as [Hx|Hx], Hu as [Hu|Hu]; split; try assumption;
          exfalso; try (apply He; rewrite Hx, Hu; reflexivity); lra.
  - right. exists u, v.
    destruct (Qeq_bool x u) eqn:He; [now repeat split|].
    apply Qeq_bool_false in He.
    destruct (Qle_bool x u) eqn:Hle.
    + apply Qle_bool_iff in Hle. exfalso.
      destruct Hx as [Hx|Hx]; [apply He; now rewrite Hx, Hu | lra].
    + apply Qle_bool_false in Hle.
      destruct (Qeq_bool x v) eqn:He2; [now repeat split|].
      apply Qeq_bool_false in He2. exfalso.
      destruct Hx as [Hx|Hx]; [apply He; now rewrite Hx, Hu|].
      apply He2. now rewrite Hx, Hv.
Qed.

(** X26.  The effective property between two values.  On a well-formed
    network with a stored field and one conductance row per throat, when the
    pores that hold a value hold one of two values [lo < hi], both present,
    and the area and the length of the domain are given, the area not zero:
    the inlets are the pores that hold [hi], and [_calc_eff_prop] returns
    one number, the group rate of the inlets times the length, divided by
    the area and by [hi - lo]. *)
Theorem calc_eff_prop_between_two_values
    (G : geometry) (s : alg) (g : conductance) (x : vec) (a : farray)
    (lo hi area len : Q) (outlets : option (list nat)) :
  net_wf (the_network s) ->
  phase_conductance s = Some g ->
  conductance_rows g = Nt (the_network s) ->
  quantity s = Some x -> length x = Np (the_network s) ->
  bc_value s = Some a -> length a = Np (the_network s) ->
  lo < hi ->
  (forall k q, nth k a None = Some q -> q == lo \/ q == hi) ->
  (exists k q, nth k a None = Some q /\ q == lo) ->
  (exists k q, nth k a None = Some q /\ q == hi) ->
  ~ area == 0 ->
  exists (I : list nat) (r D : Q),
    _get_inlets s = (Ok I, s) /\
    (forall k, In k I <-> exists q, nth k a None = Some q /\ q == hi) /\
    rate I [] "group" s = (Ok [r], s) /\
    _calc_eff_prop G None outlets (Some area) (Some len) s = (Ok [D], s) /\
    D == r * len / (area * (hi - lo)).
Proof.
  intros Hwf Hg Hrows Hq Hlx Ha Hla Hlt Hall [kl [ql [Hkl Hql]]]
         [kh [qh [Hkh Hqh]]] Harea.
  assert (Hall' : forall q, In q (finite_values a) -> q == lo \/ q == hi).
  { intros q Hin. apply in_finite_values in Hin. destruct Hin as [k Hk].
    eapply Hall; eassumption. }
  assert (Hinl : In ql (finite_values a)) by (apply in_finite_values; now exists kl).
  assert (Hinh : In qh (finite_values a)) by (apply in_finite_values; now exists kh).
  destruct (unique_values_has _ _ Hinl) as [ql' [Hl1 Hl2]].
  destruct (unique_values_has _ _ Hinh) as [qh' [Hh1 Hh2]].
  assert (HU : exists u v, unique_values (finite_values a) = [u; v]
                           /\ u == lo /\ v == hi).
  { destruct (unique_of_two_values lo hi _ Hlt Hall')
      as [H|[[u [H Hu]]|H]]; [| |exact H]; exfalso; rewrite H in Hl1, Hh1.
    - contradiction.
    - destruct Hl1 as [<-|[]]. destruct Hh1 as [<-|[]]. lra. }
  destruct HU as [u [v [HU [Hu Hv]]]].
  assert (Hmax : amax [u; v] = Ok v).
  { cbn [amax fold_left].
    assert (H : Qle_bool u v = true) by (apply Qle_bool_iff; lra).
    now rewrite H. }
  set (I := where_eq a v).
  assert (HI : forall k, In k I <-> exists q, nth k a None = Some q /\ q == hi).
  { intros k. unfold I. rewrite in_where_eq. split; intros [q [H1 H2]];
      exists q; (split; [exact H1|]); [now rewrite H2 | now rewrite Hv]. }
  assert (HIne : I <> []).
  { intros H. assert (Hin : In kh I) by (apply HI; now exists qh).
    rewrite H in Hin. contradiction. }
  assert (HIb : in_bounds I (Np (the_network s)) = true).
  { apply in_bounds_true. intros k Hk. apply HI in Hk.
    destruct Hk as [q [Hk _]]. apply nth_some_lt in Hk. lia. }
  pose proof (rate_pores_eval s g x I Hwf Hg Hrows Hq Hlx HIne HIb) as Hrate.
  set (r := Qsum (map (fun p => nth p (pore_rates (the_network s) (two_columns g) x) 0) I)) in *.
  assert (Hin : _get_inlets s = (Ok I, s)).
  { unfold _get_inlets, lookup, bind, lift, ret. now rewrite Ha, HU, Hmax. }
  exists I, r, (Qsum [r] * len / area / Qabs (v - u)).
  split; [exact Hin|]. split; [exact HI|]. split; [exact Hrate|]. split.
  - clearbody r I.
    destruct s as [net g' st A pA b pb br bv q].
    cbn [the_network phase_conductance quantity bc_value] in *. subst.
    unfold _calc_eff_prop. mrun. rewrite Hin. mrun. rewrite Hrate. mrun.
    rewrite HU. reflexivity.
  - cbn [Qsum fold_right].
    assert (Hd : Qabs (v - u) == hi - lo).
    { rewrite Qabs_pos by lra. now rewrite Hu, Hv. }
    rewrite Hd. field. split; lra.
Qed.

Lemma calc_eff_prop_between_two_values_witness :
  exists (I : list nat) (r D : Q),
    _get_inlets (set_quantity (Some Exact.chain5_x) Exact.chain5_bcs) =
      (Ok I, set_quantity (Some Exact.chain5_x) Exact.chain5_bcs) /\
    (forall k, In k I <->
       exists q, nth k [Some 1; None; None; None; Some 0] None = Some q /\ q == 1) /\
    rate I [] "group" (set_quantity (Some Exact.chain5_x) Exact.chain5_bcs) =
      (Ok [r], set_quantity (Some Exact.chain5_x) Exact.chain5_bcs) /\
    _calc_eff_prop (mkgeometry (fun _ _ _ => Ok 1) (fun _ _ _ => Ok 1))
        None None (Some 1) (Some 4)
        (set_quantity (Some Exact.chain5_x) Exact.chain5_bcs) =
      (Ok [D], set_quantity (Some Exact.chain5_x) Exact.chain5_bcs) /\
    D == r * 4 / (1 * (1 - 0)).
Proof.
  apply (calc_eff_prop_between_two_values
           (mkgeometry (fun _ _ _ => Ok 1) (fun _ _ _ => Ok 1))
           (set_quantity (Some Exact.chain5_x) Exact.chain5_bcs)
           (per_throat [1; 1; 1; 1]) Exact.chain5_x
           [Some 1; None; None; None; Some 0] 0 1 1 4 None).
  - unfold net_wf; simpl. repeat constructor.
  - reflexivity.
  - reflexivity.
  - reflexivity.
  - reflexivity.
  - reflexivity.
  - reflexivity.
  - reflexivity.
  - intros k q H. destruct k as [|[|[|[|[|k]]]]]; simpl in H; try discriminate.
    + injection H as <-. right. reflexivity.
    + injection H as <-. left. reflexivity.
    + destruct k; discriminate.
  - exists 4%nat, 0. split; reflexivity.
  - exists 0%nat, 1. split; reflexivity.
  - discriminate.
Defined.

(* ------------------------------------------------------------------ *)
(** ** A system handed to the solver *)

(** X27.  The test of symmetry looks at the object, not at the argument.
    When [_solve] is given a matrix and a vector of its own, the
    conjugate-gradient variant is still refused whenever the working
    matrix of the object is not symmetric, whatever the matrix given is,
    and the object is unchanged. *)
Theorem solve_tests_the_matrix_of_the_object
    (E : env) (s : alg) (A0 A : coo) (b0 b : vec) (x0 : option vec) :
  _A s = Some A0 -> _b s = Some b0 -> length b0 = shape A0 ->
  length (match x0 with Some x => x | None => zeros (length b) end) = shape A0 ->
  solver_type (the_settings s) = "cg"%string ->
  is_symmetric E A0 = false ->
  _solve E (Some A) (Some b) x0 s =
  (Err (Exception "CG solver only works on symmetric matrices."), s).
Proof.
  intros HA Hb Hl Hx Ht Hs.
  destruct s as [net g st A' pA b' pb br bv q].
  destruct st as [fam typ pre tol atol rtol mit cA cB].
  cbn [the_settings _A _b solver_type] in *. subst.
  unfold _solve, _get_rtol, _get_residual, _get_atol, mul, vsub.
  destruct x0 as [x0|];
    destruct atol as [atol|]; destruct rtol as [rtol|]; mrun_settings;
    rewrite ?Hx, ?Nat.eqb_refl; mrun_settings;
    rewrite ?length_matvec, ?Hl, ?Nat.eqb_refl; mrun_settings;
    rewrite Hs; reflexivity.
Qed.

Lemma solve_tests_the_matrix_of_the_object_witness :
  _solve Exact.exact_env (Some (mkcoo 2 [Exact.triple 0 0 1; Exact.triple 1 1 1]))
         (Some [0; 0]) None Exact.asymmetric_alg =
  (Err (Exception "CG solver only works on symmetric matrices."),
   Exact.asymmetric_alg).
Proof.
  apply (solve_tests_the_matrix_of_the_object Exact.exact_env
           Exact.asymmetric_alg Exact.asymmetric_A
           (mkcoo 2 [Exact.triple 0 0 1; Exact.triple 1 1 1]) [0; 0] [0; 0] None);
    reflexivity.
Defined.

(* ------------------------------------------------------------------ *)
(** ** A second elimination *)

Lemma length_rate_step (b : vec) (r : option farray) :
  length (rate_step b r) = length b.
Proof.
  unfold rate_step. destruct r; [apply length_put_masked | reflexivity].
Qed.

Lemma length_value_step_b (A : coo) (b : vec) (bv : farray) :
  length (value_step_b A b bv) = length b.
Proof.
  unfold value_step_b. now rewrite length_sub_masked, length_put_masked.
Qed.

(** In an eliminated matrix the row of a pore without value carries nothing
    at the pores with a value. *)
Lemma eliminated_row_times_values (A : coo) (bv : farray) (k : nat) :
  coo_wf A -> length bv = shape A -> nth k bv None = None ->
  Qsum (tabulate (shape A)
          (fun j => get (value_step_A A bv) k j * fval (nth j bv None))) == 0.
Proof.
  intros Hwf Hlv Hk. unfold tabulate.
  rewrite (Qsum_map_ext _ (fun _ => 0)); [apply Qsum_map_zero|].
  intros j _. rewrite get_value_step_A by assumption. rewrite Hk.
  destruct (Nat.eqb_spec k j) as [->|Hne].
  - rewrite Hk. simpl. ring.
  - destruct (nth j bv None); simpl; ring.
Qed.

(** X28.  Eliminating twice.  [_apply_BCs] works on the working system as
    it finds it, so a second call (a second [run]) starts from the
    eliminated system of the first.  At a pore that holds a rate and no
    value, the first call leaves the rate minus the contribution of the
    values held at the neighbours; the second call, with the same
    conditions, writes the rate again and subtracts nothing, because the
    columns of the pores with a value are empty by then: the contribution
    of the values is lost. *)
Theorem second_elimination_forgets_values
    (E : env) (s : alg) (A0 : coo) (b0 : vec) (bv br : farray) :
  let s1 := snd (_apply_BCs E s) in
  let s2 := snd (_apply_BCs E s1) in
  _A s = Some A0 -> _b s = Some b0 ->
  bc_value s = Some bv -> bc_rate s = Some br ->
  coo_wf A0 -> length b0 = shape A0 ->
  length bv = shape A0 -> length br = shape A0 ->
  exists b1 b2,
    _b s1 = Some b1 /\ fst (_apply_BCs E s1) = Ok tt /\ _b s2 = Some b2 /\
    forall k q, (k < shape A0)%nat ->
      nth k bv None = None -> nth k br None = Some q ->
      nth k b1 0 ==
        q - Qsum (tabulate (shape A0)
                    (fun j => get A0 k j * fval (nth j bv None))) /\
      nth k b2 0 == q.
Proof.
  intros s1 s2 HA Hb Hv Hr Hwf Hlb Hlv Hlr.
  destruct s as [net g st A' pA b' pb br' bv' q'].
  cbn [_A _b bc_value bc_rate] in HA, Hb, Hv, Hr. subst.
  set (A1 := value_step_A A0 bv).
  set (b1 := value_step_b A0 (rate_step b0 (Some br)) bv).
  assert (Hlb1 : length b1 = shape A0).
  { unfold b1. now rewrite length_value_step_b, length_rate_step. }
  set (A2 := value_step_A A1 bv).
  set (b2 := value_step_b A1 (rate_step b1 (Some br)) bv).
  pose proof (apply_BCs_eval E
                (mkalg net g st (Some A0) pA (Some b0) pb (Some br) (Some bv) q')
                A0 b0 bv eq_refl eq_refl eq_refl Hlb Hlv Hlr) as H1.
  pose proof (apply_BCs_eval E
                (mkalg net g st (Some A1) pA (Some b1) pb (Some br) (Some bv) q')
                A1 b1 bv eq_refl eq_refl eq_refl Hlb1 Hlv Hlr) as H2.
  exists b1, b2. unfold s2, s1. rewrite H1. cbn [snd].
  change (set_A (Some (value_step_A A0 bv))
            (set_b (Some (value_step_b A0
                            (rate_step b0 (bc_rate
                               (mkalg net g st (Some A0) pA (Some b0) pb
                                      (Some br) (Some bv) q'))) bv))
               (mkalg net g st (Some A0) pA (Some b0) pb (Some br) (Some bv) q')))
    with (mkalg net g st (Some A1) pA (Some b1) pb (Some br) (Some bv) q').
  rewrite H2.
  split; [reflexivity|]. split; [reflexivity|]. split; [reflexivity|].
  intros k q Hk Hn Hq. split.
  - unfold b1. rewrite nth_value_step_b_free by (assumption || now rewrite length_rate_step).
    rewrite nth_rate_step by (simpl; lia). cbv beta iota. rewrite Hq. reflexivity.
  - unfold b2.
    rewrite nth_value_step_b_free;
      try (apply coo_wf_value_step_A; exact Hwf);
      try (rewrite length_rate_step; exact Hlb1);
      try exact Hlv; try exact Hk; try exact Hn.
    change (shape A1) with (shape A0).
    unfold A1 at 1. rewrite eliminated_row_times_values by assumption.
    rewrite nth_rate_step by (simpl; lia). cbv beta iota. rewrite Hq. ring.
Qed.

Lemma second_elimination_forgets_values_witness :
  exists b1 b2,
    _b (snd (_apply_BCs Exact.exact_env Exact.two_pores_mixed)) = Some b1 /\
    fst (_apply_BCs Exact.exact_env
           (snd (_apply_BCs Exact.exact_env Exact.two_pores_mixed))) = Ok tt /\
    _b (snd (_apply_BCs Exact.exact_env
               (snd (_apply_BCs Exact.exact_env Exact.two_pores_mixed)))) = Some b2 /\
    forall k q, (k < 2)%nat ->
      nth k [Some 1; None] None = None -> nth k [None; Some 5] None = Some q ->
      nth k b1 0 ==
        q - Qsum (tabulate 2
                    (fun j => get Exact.two_pores_L k j
                              * fval (nth j [Some 1; None] None))) /\
      nth k b2 0 == q.
Proof.
  apply (second_elimination_forgets_values Exact.exact_env Exact.two_pores_mixed
           Exact.two_pores_L [0; 0] [Some 1; None] [None; Some 5]).
  - reflexivity.
  - reflexivity.
  - reflexivity.
  - reflexivity.
  - unfold coo_wf; simpl. repeat constructor.
  - reflexivity.
  - reflexivity.
  - reflexivity.
Defined.
